(** * QEnergic: the QUBO site-selection core, embedded in Rocq

    The development follows the JavaScript sources of the optimiser:
    - the solver functions [simulatedAnnealingQUBO], [narGreedyBudget] and
      [gurobiQUBOBudget], which the two API files define identically;
    - the mesh-mode request handler (module [MeshApi]), which synthesises a
      grid of candidate cells inside the polygon;
    - the dataset-mode request handler (module [SiteApi]), which filters the
      generated site dataset;
    - the completion callback of the quantum bridge (module [QuantumApi])
      and the callbacks of its handler as a run over events (module
      [QuantumRun]);
    - the generator of the site dataset (module [DataGenerator]).

    Numbers.  JavaScript numbers are IEEE-754 doubles.  They are modelled by
    exact rationals [Q]: every operation of the sources that is exact on the
    doubles involved (sums, products and comparisons of integers below 2^53,
    which is what the concrete evaluations below use) agrees with the model;
    rounding is not modelled.  The special values that the sources can
    actually produce are modelled where they occur: [undefined] and [NaN] as
    [None] in an [option Q], [Infinity] explicitly in [jsnum] and in the
    initial best energy of the annealer.

    Arrays are lists, read with stdpp's [!!] and updated in place with
    [alter]; a selection vector, whose entries are only ever the numbers 0
    and 1, is a [list bool]. *)

From Stdlib Require Import QArith Qround Qminmax Lqa Lia ZArith String Ascii DecimalString
  DecimalNat Sorted.
From stdpp Require Import base list sorting.

Local Open Scope Q_scope.

(** ** Part I: the model *)

(** *** Numbers *)

(** [a < b] and [a <= b] on numbers, as booleans. *)
Definition Qleb (a b : Q) : bool := Qle_bool a b.
Definition Qltb (a b : Q) : bool := negb (Qle_bool b a).

(** A number that may be [NaN] is an [option Q]; a property that is
    [undefined] reads as [None] too, since every arithmetic use of it yields
    [NaN].  [nadd a b] is [a + b] on such numbers. *)
Definition nadd (a b : option Q) : option Q :=
  match a, b with
  | Some p, Some q => Some (p + q)
  | _, _ => None
  end.

(** The value of a quotient, which can be infinite: [x / 0] is [Infinity]
    with the sign of [x], and [0 / 0] is [NaN].  (Negative zero is not
    modelled.) *)
Inductive jsnum : Type :=
  | NaN
  | Inf (negative : bool)
  | Fin (q : Q).

Definition jdiv (a b : option Q) : jsnum :=
  match a, b with
  | Some p, Some q =>
      if Qeq_bool q 0
      then (if Qeq_bool p 0 then NaN else Inf (Qltb p 0))
      else Fin (p / q)
  | _, _ => NaN
  end.

Definition jsub (a b : jsnum) : jsnum :=
  match a, b with
  | Fin p, Fin q => Fin (p - q)
  | Inf s, Fin _ => Inf s
  | Fin _, Inf s => Inf (negb s)
  | Inf s, Inf s' => if Bool.eqb s s' then NaN else Inf s
  | _, _ => NaN
  end.

(** [v > 0], false on [NaN]. *)
Definition jpos (v : jsnum) : bool :=
  match v with
  | Fin q => Qltb 0 q
  | Inf s => negb s
  | NaN => false
  end.

(** *** Arrays and matrices *)

(** A matrix is an array of rows. *)
Notation matrix := (list (list Q)).

(** [M[i][j]] for an index pair inside the matrix.  (Outside, JavaScript
    raises a TypeError or reads [undefined]; the sources only read inside,
    and the model reads 0 there.) *)
Definition entry (M : matrix) (i j : nat) : Q :=
  match M !! i with
  | Some row => match row !! j with Some v => v | None => 0 end
  | None => 0
  end.

(** [M[i][j] += v] *)
Definition add_entry (M : matrix) (i j : nat) (v : Q) : matrix :=
  alter (alter (fun q => q + v) j) i M.

(** [Array.from({ length: n }, (_, i) => Array(n).fill(0))] *)
Definition zeros (n : nat) : matrix := replicate n (replicate n 0).

(** [for (let i = 0; i < n; i++) body] over a state [S]. *)
Definition for_range {S : Type} (n : nat) (body : S -> nat -> S) (s : S) : S :=
  foldl body s (seq 0 n).

(** The bit [x[i]] of a selection vector and its value as a number. *)
Definition bit (x : list bool) (i : nat) : bool :=
  match x !! i with Some b => b | None => false end.

Definition b2q (b : bool) : Q := if b then 1 else 0.

(** [Array.prototype.sort] with comparator [cmp]: the sort is stable, [a]
    stays before [b] unless [cmp a b > 0] (a [NaN] result counts as 0).  For
    a consistent comparator the result of a stable sort is unique, and
    insertion sort computes it. *)
Fixpoint sort_insert {A : Type} (cmp : A -> A -> jsnum) (a : A) (l : list A) : list A :=
  match l with
  | [] => [a]
  | b :: l' => if jpos (cmp a b) then b :: sort_insert cmp a l' else a :: l
  end.

Definition js_sort {A : Type} (cmp : A -> A -> jsnum) (l : list A) : list A :=
  foldr (sort_insert cmp) [] l.

(** *** The solvers *)

(** What the solvers read of a candidate object: its [cost] and [energy]
    properties, [None] when the object has no such property. *)
Class Priced (C : Type) : Type := {
  prop_cost : C -> option Q;
  prop_energy : C -> option Q
}.

(** One iteration's random draws of the annealer: the index
    [Math.floor(Math.random() * n)], and the outcome of the Metropolis test
    [Math.random() < Math.exp((e1 - e2) / T)], which is only looked at when
    the move is not downhill. *)
Record draw : Type := { pick : nat; metropolis : bool }.

(** The loop variables of the annealer; [None] in [sa_bestE] is the initial
    [Infinity]. *)
Record sa_state : Type := {
  sa_x : list bool;
  sa_bestX : list bool;
  sa_bestE : option Q;
  sa_T : Q
}.

Section Solvers.
Context {C : Type} `{Priced C}.

(** [candidates[i].cost], for an index inside [candidates] (outside,
    JavaScript raises a TypeError; the solvers only read inside). *)
Definition cost_at (candidates : list C) (i : nat) : option Q :=
  match candidates !! i with Some c => prop_cost c | None => None end.

(** [candidates[i].energy / candidates[i].cost] *)
Definition ratio (candidates : list C) (i : nat) : jsnum :=
  match candidates !! i with
  | Some c => jdiv (prop_energy c) (prop_cost c)
  | None => NaN
  end.

(** The inner function [energy(x)] of [simulatedAnnealingQUBO], for a
    budget other than 0, as the guard of the handlers ensures (the penalty
    factor [10000 / budget] is infinite otherwise). *)
Definition energy (Qm : matrix) (n : nat) (candidates : list C) (budget : Q)
    (x : list bool) : Q :=
  let costPenalty := 10000 / budget in
  let '(e, cost) :=
    for_range n (fun '(e, cost) i =>
      let cost' := if bit x i then nadd cost (cost_at candidates i) else cost in
      (for_range n (fun e' j => e' + entry Qm i j * b2q (bit x i) * b2q (bit x j)) e,
       cost'))
      (0, Some 0) in
  match cost with
  | Some c => if Qltb budget c then e + costPenalty * (c - budget) ^ 2 else e
  | None => e
  end.

(** [e2 < bestE] *)
Definition below_best (e2 : Q) (bestE : option Q) : bool :=
  match bestE with Some b => Qltb e2 b | None => true end.

(** The body of the annealing loop up to and including [T *= alpha]. *)
Definition sa_step (Qm : matrix) (n : nat) (candidates : list C) (budget alpha : Q)
    (d : draw) (s : sa_state) : sa_state :=
  let i := pick d in
  let x2 := alter negb i (sa_x s) in
  let e1 := energy Qm n candidates budget (sa_x s) in
  let e2 := energy Qm n candidates budget x2 in
  if Qltb e2 e1 || metropolis d then
    if below_best e2 (sa_bestE s)
    then {| sa_x := x2; sa_bestX := x2; sa_bestE := Some e2; sa_T := sa_T s * alpha |}
    else {| sa_x := x2; sa_bestX := sa_bestX s; sa_bestE := sa_bestE s;
            sa_T := sa_T s * alpha |}
  else {| sa_x := sa_x s; sa_bestX := sa_bestX s; sa_bestE := sa_bestE s;
          sa_T := sa_T s * alpha |}.

(** [for (let iter = 0; iter < maxIter; iter++) { ...; if (T < 1e-6) break; }],
    with [todo] iterations left. *)
Fixpoint sa_loop (Qm : matrix) (n : nat) (candidates : list C) (budget alpha : Q)
    (rnd : nat -> draw) (todo iter : nat) (s : sa_state) : sa_state :=
  match todo with
  | O => s
  | S todo' =>
      let s' := sa_step Qm n candidates budget alpha (rnd iter) s in
      if Qltb (sa_T s') (1 # 1000000) then s'
      else sa_loop Qm n candidates budget alpha rnd todo' (S iter) s'
  end.

Definition sa_init (n : nat) (T0 : Q) : sa_state :=
  {| sa_x := replicate n false; sa_bestX := replicate n false;
     sa_bestE := None; sa_T := T0 |}.

Definition simulatedAnnealingQUBO (Qm : matrix) (n : nat) (candidates : list C)
    (budget : Q) (maxIter : nat) (T0 alpha : Q) (rnd : nat -> draw) : list bool :=
  sa_bestX (sa_loop Qm n candidates budget alpha rnd maxIter 0 (sa_init n T0)).

(** The loop [for (let i of idxs)] of [narGreedyBudget]: the running total
    and the list [selected]. *)
Definition greedy_step (candidates : list C) (budget : Q)
    (st : Q * list nat) (i : nat) : Q * list nat :=
  let '(total, selected) := st in
  match cost_at candidates i with
  | Some c =>
      if Qleb (total + c) budget then (total + c, selected ++ [i]) else (total, selected)
  | None => (total, selected)
  end.

Definition greedy_order (candidates : list C) : list nat :=
  js_sort (fun a b => jsub (ratio candidates b) (ratio candidates a))
          (imap (fun i _ => i) candidates).

Definition narGreedyBudget (Qm : matrix) (candidates : list C) (budget : Q) : list bool :=
  let idxs := greedy_order candidates in
  let '(total, selected) := foldl (greedy_step candidates budget) (0, []) idxs in
  imap (fun i _ => bool_decide (i ∈ selected)) candidates.
End Solvers.

(** Default arguments of [simulatedAnnealingQUBO]. *)
Definition default_maxIter : nat := 10000.
Definition default_T0 : Q := 20.
Definition default_alpha : Q := 999 # 1000.

(** *** Text, JSON values and the runtime *)

(** White space stripped by [String.prototype.trim], within ASCII: tab, line
    feed, vertical tab, form feed, carriage return and space. *)
Definition is_space (c : ascii) : bool :=
  let n := nat_of_ascii c in
  ((9 <=? n)%nat && (n <=? 13)%nat) || (n =? 32)%nat.

Fixpoint trim_start (s : string) : string :=
  match s with
  | EmptyString => EmptyString
  | String c s' => if is_space c then trim_start s' else s
  end.

Fixpoint trim_end (s : string) : string :=
  match s with
  | EmptyString => EmptyString
  | String c s' =>
      match trim_end s' with
      | EmptyString => if is_space c then EmptyString else String c EmptyString
      | t => String c t
      end
  end.

Definition trim (s : string) : string := trim_end (trim_start s).

Definition newline : ascii := ascii_of_nat 10.

(** [s.split('\n')]: never empty, the empty string gives one empty line. *)
Fixpoint split_lines (s : string) : list string :=
  match s with
  | EmptyString => [EmptyString]
  | String c s' =>
      if Ascii.eqb c newline then EmptyString :: split_lines s'
      else match split_lines s' with
           | l :: ls => String c l :: ls
           | [] => [String c EmptyString]
           end
  end.

(** A value produced by [JSON.parse].  An object lists its properties with
    duplicates already resolved. *)
Inductive json : Type :=
  | JNull
  | JBool (b : bool)
  | JNum (q : Q)
  | JStr (s : string)
  | JArr (items : list json)
  | JObj (props : list (string * json)).

(** [!!v] *)
Definition truthy (v : json) : bool :=
  match v with
  | JNull => false
  | JBool b => b
  | JNum q => negb (Qeq_bool q 0)
  | JStr s => negb (String.eqb s EmptyString)
  | JArr _ | JObj _ => true
  end.

(** [v[k]] for a property name [k] that no array or string has of its own:
    [None] is [undefined].  (Reading a property of [null] raises instead;
    the callers test for it.) *)
Fixpoint lookup_prop (k : string) (props : list (string * json)) : option json :=
  match props with
  | [] => None
  | (k', v) :: props' => if String.eqb k' k then Some v else lookup_prop k props'
  end.

Definition get_prop (k : string) (v : json) : option json :=
  match v with
  | JObj props => lookup_prop k props
  | _ => None
  end.

(** Exceptions: an [Error] with its message, the built-in errors, and an
    error whose message is a prefix followed by the message of another. *)
Inductive exn : Type :=
  | Error (message : string)
  | SyntaxError
  | TypeError
  | Prefixed (prefix : string) (cause : exn).

(** What [spawnSync] returns; [status] is [None] for a process killed by a
    signal. *)
Record ProcResult : Type := {
  status : option Z;
  stdout : string;
  stderr : string
}.

(** The collaborators outside the repository: the JSON parser of the
    runtime ([None] when it raises a SyntaxError), the two geometry
    functions of the turf library, and the external Gurobi program as a
    function of what is written to its input files. *)
Class Runtime : Type := {
  JSON_parse : string -> option json;
  booleanPointInPolygon : Q * Q -> list (Q * Q) -> bool;
  turfDistance : Q * Q -> Q * Q -> Q;
  spawn_gurobi : matrix -> list (option Q) -> Q -> ProcResult
}.

(** The result of a call that may throw. *)
Inductive result (A : Type) : Type :=
  | Returns (a : A)
  | Throws (e : exn).
Arguments Returns {A} a.
Arguments Throws {A} e.

(** [String(i)] for an array index. *)
Definition index_string (i : nat) : string :=
  NilEmpty.string_of_uint (Nat.to_uint i).

(** [s.includes(t)] on strings. *)
Fixpoint str_includes (t s : string) : bool :=
  String.prefix t s ||
  match s with
  | EmptyString => false
  | String _ s' => str_includes t s'
  end.

(** [v.includes(i)] for the number [i], where [v] is the value of
    [parsed.selected_indices]: an array or a string has the method, any
    other value raises a TypeError. *)
Definition js_includes (v : option json) (i : nat) : result bool :=
  match v with
  | Some (JArr items) =>
      Returns (existsb (fun w => match w with
                                 | JNum q => Qeq_bool q (inject_Z (Z.of_nat i))
                                 | _ => false
                                 end) items)
  | Some (JStr s) => Returns (str_includes (index_string i) s)
  | _ => Throws TypeError
  end.

(** [candidates.map((_, i) => f(i))] for a callback that may throw: the
    first exception ends the map. *)
Fixpoint map_indices {A B : Type} (f : nat -> result B) (i : nat) (l : list A)
    : result (list B) :=
  match l with
  | [] => Returns []
  | _ :: l' =>
      match f i with
      | Throws e => Throws e
      | Returns b =>
          match map_indices f (S i) l' with
          | Throws e => Throws e
          | Returns bs => Returns (b :: bs)
          end
      end
  end.

(** [last] line of a text, as [lines.pop()] returns it. *)
Definition last_line (s : string) : string :=
  match last (split_lines (trim s)) with Some l => l | None => EmptyString end.

Section Gurobi.
Context `{Runtime} {C : Type} `{Priced C}.

(** The part of [gurobiQUBOBudget] after the process has returned:
    [result.stdout.trim().split('\n').pop()], [JSON.parse], and the map to
    a selection vector. *)
Definition gurobi_read (candidates : list C) (r : ProcResult) : result (list bool) :=
  match status r with
  | Some 0%Z =>
      match JSON_parse (last_line (stdout r)) with
      | None => Throws SyntaxError
      | Some parsed =>
          map_indices (fun i =>
            match parsed with
            | JNull => Throws TypeError
            | _ => js_includes (get_prop "selected_indices" parsed) i
            end) 0 candidates
      end
  | _ => Throws (Error (if String.eqb (stderr r) EmptyString
                        then "Gurobi failed" else stderr r))
  end.

(** [gurobiQUBOBudget]: the two input files are written, the program is
    run and the files are removed; every exception is rethrown with the
    prefix of the [catch] clause. *)
Definition gurobiQUBOBudget (Qm : matrix) (candidates : list C) (budget : Q)
    : result (list bool) :=
  match gurobi_read candidates (spawn_gurobi Qm (prop_cost <$> candidates) budget) with
  | Returns x => Returns x
  | Throws e => Throws (Prefixed "Gurobi optimization failed: " e)
  end.
End Gurobi.

(** *** The request handlers *)

(** The stages of work of a solve request.  A handler logs a stage when it
    starts it, so that the log of a run tells how far the request got. *)
Inductive Stage : Type :=
  | GenerateCandidates
  | BuildQUBO
  | Downsample
  | RunGreedy
  | RunGurobi
  | RunAnnealing.

(** A computation with its log of stages. *)
Definition W (A : Type) : Type := (A * list Stage)%type.

#[global] Instance W_ret : MRet W := fun A a => (a, []).
#[global] Instance W_bind : MBind W := fun A B k m =>
  let '(a, log) := m in let '(b, log') := k a in (b, log ++ log').

Definition tell (s : Stage) : W unit := (tt, [s]).

(** A point as the map client sends it. *)
Record LatLng : Type := { lat : Q; lng : Q }.

(** What a handler answers: status 400 with an error text, status 200 with
    the selected [grids], status 200 with the QUBO export, or status 500
    with the exception of the solver. *)
Inductive Response (C G : Type) : Type :=
  | BadRequest (error : string)
  | OkGrids (grids : list G)
  | OkQubo (Qm : matrix) (candidates : list C) (budget : Q)
  | ServerError (e : exn).
Arguments BadRequest {C G} error.
Arguments OkGrids {C G} grids.
Arguments OkQubo {C G} Qm candidates budget.
Arguments ServerError {C G} e.

(** [l[i]] on an array of numbers, read inside its bounds. *)
Definition item (l : list Q) (i : nat) : Q :=
  match l !! i with Some v => v | None => 0 end.

(** [Math.min(...l)] and [Math.max(...l)] for a non-empty [l]. *)
Definition list_min (l : list Q) : Q :=
  match l with [] => 0 | a :: l' => foldl Qmin a l' end.
Definition list_max (l : list Q) : Q :=
  match l with [] => 0 | a :: l' => foldl Qmax a l' end.

(** [l.filter((_, i) => keep(i))], the index counted from [i]. *)
Fixpoint filter_from {A : Type} (keep : nat -> bool) (i : nat) (l : list A) : list A :=
  match l with
  | [] => []
  | a :: l' =>
      if keep i then a :: filter_from keep (S i) l' else filter_from keep (S i) l'
  end.

(** The closed ring [[...polygon.map(p => [p.lng, p.lat]), [polygon[0].lng, polygon[0].lat]]]. *)
Definition closed_ring (polygon : list LatLng) : list (Q * Q) :=
  ((fun p => (lng p, lat p)) <$> polygon) ++
  match polygon !! 0%nat with Some p => [(lng p, lat p)] | None => [] end.

(** The size cap of the QUBO export and the reduction applied above it. *)
Definition maxCandidates : nat := 1000.

Definition downsample_step (n : nat) : nat :=
  Z.to_nat (Qceiling (inject_Z (Z.of_nat n) / inject_Z (Z.of_nat maxCandidates))).

Definition reducedCandidates {A : Type} (candidates : list A) : list A :=
  let step := downsample_step (length candidates) in
  take maxCandidates (filter_from (fun i => (i mod step =? 0)%nat) 0 candidates).

Definition reducedQ {A : Type} (Qm : matrix) (candidates : list A) : matrix :=
  let step := downsample_step (length candidates) in
  let reduced := reducedCandidates candidates in
  imap (fun i _ => imap (fun j _ => entry Qm (i * step) (j * step)) reduced) reduced.

(** The inner loop over [j] that adds the cross terms of row [i]; its text
    is the same in both handlers, which differ in the weights in scope. *)
Definition cross_terms (theta mu lambda : Q) (Cs Ps : list Q) (n i : nat) (Qm : matrix)
    : matrix :=
  for_range n (fun Qm' j =>
    if (i =? j)%nat then Qm'
    else
      let Qm' := add_entry Qm' i j (2 * theta * item Cs i * item Cs j) in
      let Qm' := add_entry Qm' i j (2 * mu) in
      add_entry Qm' i j (2 * lambda * item Ps i * item Ps j)) Qm.

(** [algo === name] *)
Definition algo_is (algo : option string) (name : string) : bool :=
  match algo with Some a => String.eqb a name | None => false end.

(** The dispatch on [algo], shared by the two handlers:
    [if (algo === 'nar') ... else if (algo === 'gurobi') ... else ...]. *)
Definition run_solver `{Runtime} {C : Type} `{Priced C} (algo : option string)
    (Qm : matrix) (candidates : list C) (budget : Q) (rnd : nat -> draw)
    : W (result (list bool)) :=
  if algo_is algo "nar" then
    tell RunGreedy;; mret (Returns (narGreedyBudget Qm candidates budget))
  else if algo_is algo "gurobi" then
    tell RunGurobi;; mret (gurobiQUBOBudget Qm candidates budget)
  else
    tell RunAnnealing;;
    mret (Returns (simulatedAnnealingQUBO Qm (length candidates) candidates budget
                     default_maxIter default_T0 default_alpha rnd)).

(** **** Mesh mode *)

Module MeshApi.

(** The chosen cell type: [cellSize.price] and [cellSize.energy]. *)
Record CellSize : Type := { price : Q; cell_energy : Q }.

(** The request body.  [K] and [M] are optional. *)
Record Request : Type := {
  polygon : option (list LatLng);
  budget : option Q;
  gridArea : option Q;
  cellSize : option CellSize;
  country : option string;
  popCenter : option LatLng;
  quboOnly : bool;
  algo : option string;
  K : option Q;
  M : option Q
}.

(** A candidate cell [{ lat, lng, cost, energy, dist }]. *)
Record Cell : Type := {
  c_lat : Q;
  c_lng : Q;
  c_cost : Q;
  c_energy : Q;
  c_dist : Q
}.

#[global] Instance Cell_priced : Priced Cell :=
  {| prop_cost c := Some (c_cost c); prop_energy c := Some (c_energy c) |}.

(** The guard
    [!polygon || polygon.length !== 4 || !budget || budget <= 0 ||
     gridArea <= 0 || !cellSize || !country || !popCenter];
    a missing [gridArea] compares false. *)
Definition invalid (req : Request) : bool :=
  match polygon req with
  | None => true
  | Some p => negb (length p =? 4)%nat
  end
  || match budget req with
     | None => true
     | Some b => Qeq_bool b 0 || Qleb b 0
     end
  || match gridArea req with
     | None => false
     | Some a => Qleb a 0
     end
  || match cellSize req with None => true | Some _ => false end
  || match country req with None => true | Some s => String.eqb s EmptyString end
  || match popCenter req with None => true | Some _ => false end.

(** [Math.max(20, Math.floor(budget / cellSize.price) * 5)] and
    [Math.ceil(Math.sqrt(nCandidates))], for a price other than 0 (which the
    guard does not test; the quotient is infinite then). *)
Definition nCandidates (budget : Q) (cs : CellSize) : Z :=
  Z.max 20 (Qfloor (budget / price cs) * 5).

Definition steps (budget : Q) (cs : CellSize) : nat :=
  Z.to_nat (Z.sqrt_up (nCandidates budget cs)).

(** The two nested loops that generate the regular mesh inside the
    polygon. *)
Definition mesh `{Runtime} (coords : list (Q * Q)) (pc : LatLng) (cs : CellSize)
    (steps : nat) : list Cell :=
  let minLng := list_min (fst <$> coords) in
  let minLat := list_min (snd <$> coords) in
  let maxLng := list_max (fst <$> coords) in
  let maxLat := list_max (snd <$> coords) in
  let per := inject_Z (Z.of_nat steps) in
  let center := (lng pc, lat pc) in
  for_range steps (fun cands i =>
    for_range steps (fun cands' j =>
      let lat := minLat + (maxLat - minLat) * (inject_Z (Z.of_nat i) + (1 # 2)) / per in
      let lng := minLng + (maxLng - minLng) * (inject_Z (Z.of_nat j) + (1 # 2)) / per in
      if booleanPointInPolygon (lng, lat) coords
      then cands' ++ [ {| c_lat := lat; c_lng := lng; c_cost := price cs;
                          c_energy := cell_energy cs;
                          c_dist := turfDistance (lng, lat) center |} ]
      else cands') cands) [].

(** The weights of the mesh-mode QUBO. *)
Definition alpha : Q := 1.
Definition theta : Q := 1000.
Definition mu : Q := 1000.
Definition lambda : Q := 1000.

(** The three steps that fill [Q]: the loop of linear terms, the double
    loop of quadratic terms and the constant added to [Q[0][0]]. *)
Definition linear_terms (Cs Ps : list Q) (budget K M : Q) (n : nat) (Q0 : matrix) : matrix :=
  for_range n (fun Qm i =>
    let Qm := add_entry Qm i i (item Cs i) in
    let Qm := add_entry Qm i i (theta * item Cs i ^ 2) in
    let Qm := add_entry Qm i i mu in
    let Qm := add_entry Qm i i (lambda * item Ps i ^ 2) in
    let Qm := add_entry Qm i i (- (alpha * item Ps i)) in
    let Qm := add_entry Qm i i (-2 * theta * budget * item Cs i) in
    let Qm := add_entry Qm i i (-2 * mu * K) in
    add_entry Qm i i (-2 * lambda * M * item Ps i)) Q0.

Definition quadratic_terms (Cs Ps : list Q) (n : nat) (Q0 : matrix) : matrix :=
  for_range n (fun Qm i => cross_terms theta mu lambda Cs Ps n i Qm) Q0.

Definition build_qubo (Cs Ps : list Q) (budget K M : Q) : matrix :=
  let n := length Cs in
  let Q1 := linear_terms Cs Ps budget K M n (zeros n) in
  let Q2 := quadratic_terms Cs Ps n Q1 in
  add_entry Q2 0 0 (theta * budget ^ 2 + mu * K ^ 2 + lambda * M ^ 2).

(** [candidates.map(c => c.cost)] and [candidates.map(c => c.pop ?? 1)]: a
    cell has no [pop] property. *)
Definition costs (candidates : list Cell) : list Q := c_cost <$> candidates.
Definition pops (candidates : list Cell) : list Q := (fun _ => 1) <$> candidates.

Definition qubo_of (candidates : list Cell) (budget : Q) (cs : CellSize)
    (K M : option Q) : matrix :=
  let K' := match K with Some k => k | None => inject_Z (Qfloor (budget / price cs)) end in
  let M' := match M with Some m => m | None => 0 end in
  build_qubo (costs candidates) (pops candidates) budget K' M'.

(** The handler of [/api/optimize], mesh version. *)
Definition handler `{Runtime} (req : Request) (rnd : nat -> draw)
    : W (Response Cell Cell) :=
  if invalid req then mret (BadRequest "Invalid input")
  else
    let polygon := default [] (polygon req) in
    let budget := default 0 (budget req) in
    let cs := default {| price := 0; cell_energy := 0 |} (cellSize req) in
    let pc := default {| lat := 0; lng := 0 |} (popCenter req) in
    tell GenerateCandidates;;
    let candidates := mesh (closed_ring polygon) pc cs (steps budget cs) in
    if (length candidates =? 0)%nat then mret (OkGrids [])
    else
      tell BuildQUBO;;
      let Qm := qubo_of candidates budget cs (K req) (M req) in
      if quboOnly req then
        if (maxCandidates <? length candidates)%nat then
          tell Downsample;;
          mret (OkQubo (reducedQ Qm candidates) (reducedCandidates candidates) budget)
        else mret (OkQubo Qm candidates budget)
      else
        x ← run_solver (algo req) Qm candidates budget rnd;
        match x with
        | Throws e => mret (ServerError e)
        | Returns x => mret (OkGrids (filter_from (bit x) 0 candidates))
        end.

End MeshApi.

(** **** Dataset mode *)

Module SiteApi.

(** A record of the generated dataset. *)
Record Site : Type := {
  Site_ID : string;
  Installation_Cost_USD : Q;
  Population_Coverage : Q;
  Solar_Potential_kWh_m2_day : Q;
  Energy_Capacity_kWh_day : Q;
  X_coord : Q;
  Y_coord : Q
}.

(** A candidate [{ ...site, dist }]. *)
Record Candidate : Type := { site : Site; dist : Q }.

(** A site object has no property named [cost] or [energy]: the solvers
    read [undefined] for both. *)
#[global] Instance Candidate_priced : Priced Candidate :=
  {| prop_cost _ := None; prop_energy _ := None |}.

(** An element of the answer's [grids]. *)
Record Grid : Type := {
  g_lat : Q;
  g_lng : Q;
  g_cost : Q;
  g_energy : Q;
  g_dist : Q;
  g_pop : Q
}.

(** The request body.  (The handler also computes [K] and [M] from the
    body, but never uses them; the QUBO is built from [max_grids] and
    [min_population].) *)
Record Request : Type := {
  polygon : option (list LatLng);
  budget : option Q;
  popCenter : option LatLng;
  quboOnly : bool;
  algo : option string;
  max_grids : option Q;
  min_population : option Q
}.

(** The guard
    [!polygon || polygon.length !== 4 || !budget || budget <= 0 || !popCenter]. *)
Definition invalid (req : Request) : bool :=
  match polygon req with
  | None => true
  | Some p => negb (length p =? 4)%nat
  end
  || match budget req with
     | None => true
     | Some b => Qeq_bool b 0 || Qleb b 0
     end
  || match popCenter req with None => true | Some _ => false end.

(** [ethiopiaSites.filter(...).map(site => ({ ...site, dist }))] *)
Definition candidates_in `{Runtime} (ethiopiaSites : list Site) (coords : list (Q * Q))
    (pc : LatLng) : list Candidate :=
  (fun s => {| site := s;
               dist := turfDistance (X_coord s, Y_coord s) (lng pc, lat pc) |})
  <$> List.filter (fun s => booleanPointInPolygon (X_coord s, Y_coord s) coords)
                  ethiopiaSites.

(** The weights of the dataset-mode QUBO. *)
Definition alpha : Q := 1 # 10.
Definition gamma : Q := 1 # 10.
Definition theta : Q := 1 # 1000000.
Definition mu : Q := 2.
Definition lambda : Q := 1 # 100.

(** The single loop that fills row [i]: the diagonal terms, then the cross
    terms of the row. *)
Definition fill_rows (Cs Ps Es : list Q) (budget max_grids min_population : Q)
    (n : nat) (Q0 : matrix) : matrix :=
  for_range n (fun Qm i =>
    let Qm := add_entry Qm i i (item Cs i - alpha * item Ps i - gamma * item Es i) in
    let Qm := add_entry Qm i i (theta * (item Cs i ^ 2 - 2 * budget * item Cs i)) in
    let Qm := add_entry Qm i i (mu * (1 - 2 * max_grids)) in
    let Qm := add_entry Qm i i
                (lambda * (item Ps i ^ 2 - 2 * min_population * item Ps i)) in
    cross_terms theta mu lambda Cs Ps n i Qm) Q0.

Definition build_qubo (Cs Ps Es : list Q) (budget max_grids min_population : Q)
    : matrix :=
  let n := length Cs in
  let Q1 := fill_rows Cs Ps Es budget max_grids min_population n (zeros n) in
  add_entry Q1 0 0
    (theta * budget ^ 2 + mu * max_grids ^ 2 + lambda * min_population ^ 2).

Definition qubo_of (candidates : list Candidate) (budget : Q)
    (max_grids min_population : option Q) : matrix :=
  build_qubo ((Installation_Cost_USD ∘ site) <$> candidates)
             ((Population_Coverage ∘ site) <$> candidates)
             ((Energy_Capacity_kWh_day ∘ site) <$> candidates)
             budget
             (match max_grids with Some k => k | None => 10 end)
             (match min_population with Some m => m | None => 15000 end).

Definition grid_of (c : Candidate) : Grid :=
  {| g_lat := Y_coord (site c); g_lng := X_coord (site c);
     g_cost := Installation_Cost_USD (site c);
     g_energy := Energy_Capacity_kWh_day (site c);
     g_dist := dist c; g_pop := Population_Coverage (site c) |}.

(** The handler of [/api/optimize], dataset version. *)
Definition handler `{Runtime} (ethiopiaSites : list Site) (req : Request)
    (rnd : nat -> draw) : W (Response Candidate Grid) :=
  if invalid req then mret (BadRequest "Invalid input")
  else
    let polygon := default [] (polygon req) in
    let budget := default 0 (budget req) in
    let pc := default {| lat := 0; lng := 0 |} (popCenter req) in
    tell GenerateCandidates;;
    let candidates := candidates_in ethiopiaSites (closed_ring polygon) pc in
    if (length candidates =? 0)%nat then mret (OkGrids [])
    else
      tell BuildQUBO;;
      let Qm := qubo_of candidates budget (max_grids req) (min_population req) in
      if quboOnly req then
        if (maxCandidates <? length candidates)%nat then
          tell Downsample;;
          mret (OkQubo (reducedQ Qm candidates) (reducedCandidates candidates) budget)
        else mret (OkQubo Qm candidates budget)
      else
        x ← run_solver (algo req) Qm candidates budget rnd;
        match x with
        | Throws e => mret (ServerError e)
        | Returns x => mret (OkGrids (grid_of <$> filter_from (bit x) 0 candidates))
        end.

End SiteApi.

(** **** The quantum bridge *)

Module QuantumApi.

(** What the completion callback answers: status 200 with the selected
    grids (an index outside [candidates] gives [undefined], here [None]),
    the elapsed time and the parsed record, or status 500 with an error
    text. *)
Inductive Answer : Type :=
  | Ok (grids : list (option json)) (time_ms : Z) (raw : json)
  | Failed (error : string).

(** The property key that a JSON value denotes when it is used as an array
    index [candidates[v]]: a number that is a natural number, a string that
    is the decimal writing of one, or an array of one element that denotes
    one (the key of an array is its elements joined by commas). *)
Fixpoint index_of (v : json) : option nat :=
  match v with
  | JNum q =>
      if Qeq_bool q (inject_Z (Qfloor q)) && (0 <=? Qfloor q)%Z
      then Some (Z.to_nat (Qfloor q)) else None
  | JStr s =>
      match NilEmpty.uint_of_string s with
      | Some u => if String.eqb (index_string (Nat.of_uint u)) s
                  then Some (Nat.of_uint u) else None
      | None => None
      end
  | JArr [w] => index_of w
  | _ => None
  end.

(** The loop [for (let i = lines.length - 1; i >= 0; i--)] over the lines
    in reverse order: the first line that parses ends it. *)
Fixpoint scan `{Runtime} (reversed : list string) : option json :=
  match reversed with
  | [] => None
  | l :: rest =>
      match JSON_parse l with
      | Some v => Some v
      | None => scan rest
      end
  end.

Definition last_valid_json `{Runtime} (out : string) : option json :=
  scan (reverse (split_lines (trim out))).

(** [(result.selected_indices || []).map(i => candidates[i])], for a
    truthy [result]; [None] is a TypeError, raised when the value is
    truthy and has no [map] method. *)
Definition selected_grids (result : json) (candidates : list json)
    : option (list (option json)) :=
  match get_prop "selected_indices" result with
  | Some (JArr items) =>
      Some ((fun v => match index_of v with
                      | Some i => candidates !! i
                      | None => None
                      end) <$> items)
  | Some v => if truthy v then None else Some []
  | None => Some []
  end.

(** Whether [result.selected_grids = ...] can be executed: assigning a
    property to a primitive value raises a TypeError in a module, which is
    strict code. *)
Definition assignable (result : json) : bool :=
  match result with
  | JArr _ | JObj _ => true
  | _ => false
  end.

(** The listener of the [close] event, for a process that ended before
    the timeout, with the text [out] collected from its standard output
    and [elapsed] milliseconds after the start. *)
Definition on_close `{Runtime} (candidates : list json) (code : option Z) (out : string)
    (elapsed : Z) : Answer :=
  match code with
  | Some 0%Z =>
      match last_valid_json out with
      | None => Failed "Failed to parse quantum output"
      | Some result =>
          if negb (truthy result) then Failed "Failed to parse quantum output"
          else
            match selected_grids result candidates with
            | None => Failed "Failed to parse quantum output"
            | Some grids =>
                if assignable result then Ok grids elapsed result
                else Failed "Failed to parse quantum output"
            end
      end
  | _ => Failed "Quantum optimization failed"
  end.

End QuantumApi.

(** *** Vocabulary of the properties *)

(** The sum of a list of numbers. *)
Definition sumQ (l : list Q) : Q := foldr Qplus 0 l.

(** Order by decreasing key and, among equal keys, by increasing index. *)
Definition key_order (key : nat -> Q) (a b : nat) : Prop :=
  key b < key a ∨ (key a == key b ∧ (a < b)%nat).

Section Vocabulary.
Context {C : Type} `{Priced C}.

(** The cost and the energy of candidate [i] as numbers, for candidates
    that have both. *)
Definition costq (candidates : list C) (i : nat) : Q :=
  default 0 (cost_at candidates i).

Definition energyq (candidates : list C) (i : nat) : Q :=
  match candidates !! i with Some c => default 0 (prop_energy c) | None => 0 end.

(** Every candidate has a positive cost and an energy. *)
Definition well_priced (candidates : list C) : Prop :=
  ∀ c, c ∈ candidates →
    (∃ k, prop_cost c = Some k ∧ 0 < k) ∧ (∃ e, prop_energy c = Some e).

(** The total cost of the candidates selected by [x]. *)
Definition selection_cost (candidates : list C) (x : list bool) : Q :=
  sumQ (costq candidates <$> filter (fun i => bit x i) (seq 0 (length candidates))).

(** Candidate [a] ranks before candidate [b]: its energy per cost is
    larger, or it is equal and [a] comes first in the list. *)
Definition ranks_before (candidates : list C) : nat -> nat -> Prop :=
  key_order (fun i => energyq candidates i / costq candidates i).

(** The running total when position [p] of the order [idxs] is reached:
    the cost of the candidates before it that [x] selects. *)
Definition total_before (candidates : list C) (x : list bool) (idxs : list nat)
    (p : nat) : Q :=
  sumQ (costq candidates <$> filter (fun i => bit x i) (take p idxs)).
(** The variable [cost] at the end of the loop of [energy]. *)
Definition cost_sum (candidates : list C) (n : nat) (x : list bool) : option Q :=
  for_range n (fun cost i => if bit x i then nadd cost (cost_at candidates i) else cost)
            (Some 0).

(** The penalty that [energy] adds for a total cost above the budget. *)
Definition over_budget_penalty (budget : Q) (cost : option Q) : Q :=
  match cost with
  | Some c => if Qltb budget c then 10000 / budget * (c - budget) ^ 2 else 0
  | None => 0
  end.

(** The states after each iteration that a run of the annealing loop
    executes. *)
Fixpoint sa_states (Qm : matrix) (n : nat) (candidates : list C) (budget alpha : Q)
    (rnd : nat -> draw) (todo iter : nat) (s : sa_state) : list sa_state :=
  match todo with
  | O => []
  | S todo' =>
      let s' := sa_step Qm n candidates budget alpha (rnd iter) s in
      if Qltb (sa_T s') (1 # 1000000) then [s']
      else s' :: sa_states Qm n candidates budget alpha rnd todo' (S iter) s'
  end.

(** The best energy so far is the energy of the best vector and is at most
    the energy of the current vector; before the first accepted move there
    is no best energy and both vectors are the initial one. *)
Definition sa_inv (Qm : matrix) (n : nat) (candidates : list C) (budget : Q)
    (s : sa_state) : Prop :=
  match sa_bestE s with
  | Some b => energy Qm n candidates budget (sa_bestX s) == b
              ∧ b <= energy Qm n candidates budget (sa_x s)
  | None => sa_x s = replicate n false ∧ sa_bestX s = replicate n false
  end.

(** [a <= b] on best energies, [None] being [Infinity]. *)
Definition best_le (a b : option Q) : Prop :=
  match a, b with
  | _, None => True
  | None, Some _ => False
  | Some p, Some q => p <= q
  end.
End Vocabulary.

(** The quadratic form [xᵗQx] of a matrix at a selection vector. *)
Definition quad_form (Qm : matrix) (x : list bool) : Q :=
  let n := length x in
  sumQ ((fun i => sumQ ((fun j => entry Qm i j * b2q (bit x i) * b2q (bit x j))
                        <$> seq 0 n)) <$> seq 0 n).

(** [Σ_i v_i x_i] and [Σ_i v_i² x_i] *)
Definition dot (v : list Q) (x : list bool) : Q :=
  sumQ ((fun i => item v i * b2q (bit x i)) <$> seq 0 (length x)).

Definition dot2 (v : list Q) (x : list bool) : Q :=
  sumQ ((fun i => item v i ^ 2 * b2q (bit x i)) <$> seq 0 (length x)).

(** The number of ones [Σ_i x_i]. *)
Definition ones (x : list bool) : Q :=
  sumQ ((fun i => b2q (bit x i)) <$> seq 0 (length x)).

(** The weights of a QUBO. *)
Record Weights : Type := {
  w_alpha : Q;
  w_gamma : Q;
  w_theta : Q;
  w_mu : Q;
  w_lambda : Q
}.

Definition site_weights : Weights :=
  {| w_alpha := SiteApi.alpha; w_gamma := SiteApi.gamma; w_theta := SiteApi.theta;
     w_mu := SiteApi.mu; w_lambda := SiteApi.lambda |}.

(** The mesh-mode objective has no energy term. *)
Definition mesh_weights : Weights :=
  {| w_alpha := MeshApi.alpha; w_gamma := 0; w_theta := MeshApi.theta;
     w_mu := MeshApi.mu; w_lambda := MeshApi.lambda |}.

(** The objective with its three squared penalties,
    [Σ C x - α Σ P x - γ Σ E x + θ (Σ C x - B)² + μ (Σ x - K)² + λ (M - Σ P x)²]. *)
Definition penalised_objective (w : Weights) (Cs Ps Es : list Q) (B K M : Q)
    (x : list bool) : Q :=
  dot Cs x - w_alpha w * dot Ps x - w_gamma w * dot Es x
  + w_theta w * (dot Cs x - B) ^ 2
  + w_mu w * (ones x - K) ^ 2
  + w_lambda w * (M - dot Ps x) ^ 2.

(** The entries that the two builders store, in closed form. *)
Definition diag_term (w : Weights) (Cs Ps Es : list Q) (B K M : Q) (i : nat) : Q :=
  item Cs i - w_alpha w * item Ps i - w_gamma w * item Es i
  + w_theta w * (item Cs i ^ 2 - 2 * B * item Cs i)
  + w_mu w * (1 - 2 * K)
  + w_lambda w * (item Ps i ^ 2 - 2 * M * item Ps i).

Definition cross_term (w : Weights) (Cs Ps : list Q) (i j : nat) : Q :=
  2 * w_theta w * item Cs i * item Cs j + 2 * w_mu w
  + 2 * w_lambda w * item Ps i * item Ps j.

Definition offset_term (w : Weights) (B K M : Q) : Q :=
  w_theta w * B ^ 2 + w_mu w * K ^ 2 + w_lambda w * M ^ 2.

Definition qubo_entry (w : Weights) (Cs Ps Es : list Q) (B K M : Q) (n i j : nat) : Q :=
  if (i <? n)%nat && (j <? n)%nat then
    (if (i =? j)%nat then diag_term w Cs Ps Es B K M i else cross_term w Cs Ps i j)
    + (if (i =? 0)%nat && (j =? 0)%nat then offset_term w B K M else 0)
  else 0.

(** An [n] by [n] matrix. *)
Definition square (n : nat) (Qm : matrix) : Prop :=
  length Qm = n ∧ Forall (fun row => length row = n) Qm.

(** The update [F] keeps [n] by [n] matrices [n] by [n] and adds [f a b] to
    each entry [(a, b)]. *)
Definition adds (n : nat) (F : matrix -> matrix) (f : nat -> nat -> Q) : Prop :=
  ∀ Qm, square n Qm →
    square n (F Qm) ∧ ∀ a b, entry (F Qm) a b == entry Qm a b + f a b.

(** [v] at the index pair [(i, j)], 0 elsewhere. *)
Definition at_pair (i j : nat) (v : Q) (a b : nat) : Q :=
  if (a =? i)%nat && (b =? j)%nat then v else 0.

(** *** Concrete inputs *)

(** A cell with a cost and an energy, at the origin. *)
Definition cell (cost energy : Q) : MeshApi.Cell :=
  {| MeshApi.c_lat := 0; MeshApi.c_lng := 0; MeshApi.c_cost := cost;
     MeshApi.c_energy := energy; MeshApi.c_dist := 0 |}.

(** Three candidates with costs 10, 20, 15 and energies 5, 8, 6. *)
Definition scenarioB : list MeshApi.Cell := [cell 10 5; cell 20 8; cell 15 6].

(** A two-candidate problem for the annealer: the identity matrix and two
    cells of cost 1 under a budget of 10, so that the energy of a vector is
    the number of its ones. *)
Definition unit_Q : matrix := [[1; 0]; [0; 1]].
Definition unit_cells : list MeshApi.Cell := [cell 1 1; cell 1 1].

(** Draws of a run on it: the first iteration picks index 0 and passes the
    Metropolis test, every later one picks index 1 and fails the test.  (At
    the first iteration the test is [Math.random() < Math.exp(-1 / 20)],
    which a draw below 0.95 passes; later it is
    [Math.random() < Math.exp(-1 / T)] with [T <= 20], which a draw of 0.96
    or more fails.) *)
Definition stuck_draws (iter : nat) : draw :=
  if (iter =? 0)%nat then {| pick := 0; metropolis := true |}
  else {| pick := 1; metropolis := false |}.

(** A mesh-mode problem: two cells of price 10 and energy 5 under a budget
    of 25, with the default [K = Math.floor(25 / 10)] and [M = 0]. *)
Definition two_cells : list MeshApi.Cell := [cell 10 5; cell 10 5].
Definition two_cells_size : MeshApi.CellSize :=
  {| MeshApi.price := 10; MeshApi.cell_energy := 5 |}.
Definition two_cells_Q : matrix := MeshApi.qubo_of two_cells 25 two_cells_size None None.

(** A dataset-mode problem: two sites of cost 20000, coverage 1000 and
    energy 1500 under a budget of 100000, with the default [max_grids] and
    [min_population]. *)
Definition site_at (x y : Q) : SiteApi.Site :=
  {| SiteApi.Site_ID := "Site_1"; SiteApi.Installation_Cost_USD := 20000;
     SiteApi.Population_Coverage := 1000; SiteApi.Solar_Potential_kWh_m2_day := 5;
     SiteApi.Energy_Capacity_kWh_day := 1500;
     SiteApi.X_coord := x; SiteApi.Y_coord := y |}.
Definition two_sites : list SiteApi.Candidate :=
  [ {| SiteApi.site := site_at 38 9; SiteApi.dist := 1 |};
    {| SiteApi.site := site_at 39 9; SiteApi.dist := 2 |} ].
Definition two_sites_Q : matrix := SiteApi.qubo_of two_sites 100000 None None.

(** The three defects of a request that the claims name: a polygon that is
    missing or has not exactly 4 vertices, a budget that is missing or not
    positive, a missing population centre. *)
Definition defective (polygon : option (list LatLng)) (budget : option Q)
    (popCenter : option LatLng) : Prop :=
  match polygon with Some p => length p ≠ 4%nat | None => True end
  ∨ match budget with Some b => b <= 0 | None => True end
  ∨ popCenter = None.

(** A stage in which a solver runs. *)
Definition solver_stage (s : Stage) : Prop :=
  s = RunGreedy ∨ s = RunGurobi ∨ s = RunAnnealing.

(** A runtime in which no point lies inside any polygon, every text fails
    to parse and the external program exits with status 1. *)
Definition barren_runtime : Runtime :=
  {| JSON_parse := fun _ => None;
     booleanPointInPolygon := fun _ _ => false;
     turfDistance := fun _ _ => 0;
     spawn_gurobi := fun _ _ _ =>
       {| status := Some 1%Z; stdout := EmptyString; stderr := EmptyString |} |}.

(** A square region around (38, 9) and requests on it. *)
Definition region : list LatLng :=
  [ {| lat := 8; lng := 37 |}; {| lat := 8; lng := 39 |};
    {| lat := 10; lng := 39 |}; {| lat := 10; lng := 37 |} ].

Definition site_request (budget : option Q) : SiteApi.Request :=
  {| SiteApi.polygon := Some region; SiteApi.budget := budget;
     SiteApi.popCenter := Some {| lat := 9; lng := 38 |};
     SiteApi.quboOnly := false; SiteApi.algo := Some "nar"%string;
     SiteApi.max_grids := None; SiteApi.min_population := None |}.

Definition mesh_request (budget : option Q) : MeshApi.Request :=
  {| MeshApi.polygon := Some region; MeshApi.budget := budget;
     MeshApi.gridArea := Some 1; MeshApi.cellSize := Some two_cells_size;
     MeshApi.country := Some "Ethiopia"%string;
     MeshApi.popCenter := Some {| lat := 9; lng := 38 |};
     MeshApi.quboOnly := false; MeshApi.algo := Some "nar"%string;
     MeshApi.K := None; MeshApi.M := None |}.

(** Draws that always pick index 0 and fail the Metropolis test. *)
Definition idle_draws (iter : nat) : draw := {| pick := 0; metropolis := false |}.

(** A standard output in which the result record is followed by a line of
    logging:
    [{QUOTE selected_indices QUOTE: [0]}] and then [Solver finished], where
    QUOTE is the double quote character. *)
Definition quote : string := String (ascii_of_nat 34) EmptyString.

Definition record_line : string :=
  ("{" ++ quote ++ "selected_indices" ++ quote ++ ": [0]}")%string.

Definition record_value : json := JObj [("selected_indices"%string, JArr [JNum 0])].

Definition log_line : string := "Solver finished".

Definition chatty_stdout : string :=
  (record_line ++ String newline log_line)%string.

(** A runtime whose parser accepts [record_line] only, which is all that the
    evaluation of the bridges on [chatty_stdout] asks of a JSON parser, and
    whose external program prints [chatty_stdout] and exits with status 0. *)
Definition chatty_runtime : Runtime :=
  {| JSON_parse := fun s => if String.eqb s record_line then Some record_value else None;
     booleanPointInPolygon := fun _ _ => true;
     turfDistance := fun _ _ => 0;
     spawn_gurobi := fun _ _ _ =>
       {| status := Some 0%Z; stdout := chatty_stdout; stderr := EmptyString |} |}.


(** *** The generated dataset *)

Module DataGenerator.

(** [ETHIOPIA_BBOX = [32.997583, 3.397448, 47.982379, 14.894053]] *)
Definition bbox_minLng : Q := 32997583 # 1000000.
Definition bbox_minLat : Q := 3397448 # 1000000.
Definition bbox_maxLng : Q := 47982379 # 1000000.
Definition bbox_maxLat : Q := 14894053 # 1000000.

(** [parseFloat(q.toFixed(2))] for [q >= 0]: the multiple of 1/100 nearest
    to [q], the larger one of two. *)
Definition toFixed2 (q : Q) : Q := Qmake (Qfloor (q * 100 + (1 # 2))) 100.

(** [generateDataset(name, numSites)], where [rnd k] is the result of call
    number [k] of [Math.random()]: the costs take the first [numSites]
    calls, the coverages the next, then the solar potentials, then two
    calls per site for its coordinates. *)
Definition generateDataset (name : string) (numSites : nat) (rnd : nat -> Q)
    : list SiteApi.Site :=
  let siteIds :=
    (fun i => ("Site_" ++ index_string (i + 1))%string) <$> seq 0 numSites in
  let installCosts :=
    (fun i => inject_Z (Qfloor (rnd i * 35000)) + 15000) <$> seq 0 numSites in
  let populationCoverage :=
    (fun i => inject_Z (Qfloor (rnd (numSites + i)%nat * 1400)) + 100)
    <$> seq 0 numSites in
  let solarPotential :=
    (fun i => toFixed2 (rnd (2 * numSites + i)%nat * 3 + (7 # 2))) <$> seq 0 numSites in
  let energyCapacity :=
    imap (fun i solar => toFixed2 (solar * item populationCoverage i * (3 # 10)))
         solarPotential in
  let coordinates :=
    (fun i => (bbox_minLng + rnd (3 * numSites + 2 * i)%nat * (bbox_maxLng - bbox_minLng),
               bbox_minLat + rnd (3 * numSites + 2 * i + 1)%nat
                             * (bbox_maxLat - bbox_minLat)))
    <$> seq 0 numSites in
  imap (fun i siteId =>
          {| SiteApi.Site_ID := siteId;
             SiteApi.Installation_Cost_USD := item installCosts i;
             SiteApi.Population_Coverage := item populationCoverage i;
             SiteApi.Solar_Potential_kWh_m2_day := item solarPotential i;
             SiteApi.Energy_Capacity_kWh_day := item energyCapacity i;
             SiteApi.X_coord := fst (default (0, 0) (coordinates !! i));
             SiteApi.Y_coord := snd (default (0, 0) (coordinates !! i)) |})
       siteIds.

(** [generateDataset(..., 50)], the dataset that the handler filters. *)
Definition ethiopiaSites (rnd : nat -> Q) : list SiteApi.Site :=
  generateDataset "Ethiopia_Offgrid_Potential" 50 rnd.

End DataGenerator.

(** Every call of [Math.random()] returns a number in [[0, 1)]. *)
Definition unit_draws (rnd : nat -> Q) : Prop := ∀ k, 0 <= rnd k ∧ rnd k < 1.

(** *** The run of the quantum bridge *)

Module QuantumRun.

(** What happens after the process has been spawned: a chunk of standard
    output or of standard error arrives, the process closes with an exit
    code (at [now] milliseconds after the start), or the timer of 60
    seconds fires. *)
Inductive Event : Type :=
  | Stdout (d : string)
  | Stderr (d : string)
  | Close (code : option Z) (now : Z)
  | Timeout.

(** The variables that the callbacks share, the timer, and what has been
    done so far: the answers sent, the number of times the temporary file
    was removed and the process was killed. *)
Record State : Type := {
  responded : bool;
  out : string;
  err : string;
  timer_set : bool;
  replies : list QuantumApi.Answer;
  unlinks : nat;
  kills : nat
}.

(** The state when the handler returns: the file is written, the process
    runs and the timer is set. *)
Definition started : State :=
  {| responded := false; out := EmptyString; err := EmptyString; timer_set := true;
     replies := []; unlinks := 0; kills := 0 |}.

(** One callback, run to completion.  A timer that was cleared or has fired
    does not fire. *)
Definition step `{Runtime} (candidates : list json) (s : State) (ev : Event) : State :=
  match ev with
  | Stdout d =>
      {| responded := responded s; out := (out s ++ d)%string; err := err s;
         timer_set := timer_set s; replies := replies s; unlinks := unlinks s;
         kills := kills s |}
  | Stderr d =>
      {| responded := responded s; out := out s; err := (err s ++ d)%string;
         timer_set := timer_set s; replies := replies s; unlinks := unlinks s;
         kills := kills s |}
  | Timeout =>
      if timer_set s then
        if responded s then
          {| responded := true; out := out s; err := err s; timer_set := false;
             replies := replies s; unlinks := unlinks s; kills := kills s |}
        else
          {| responded := true; out := out s; err := err s; timer_set := false;
             replies := replies s
                        ++ [QuantumApi.Failed "Quantum optimization timed out"];
             unlinks := S (unlinks s); kills := S (kills s) |}
      else s
  | Close code now =>
      if responded s then s
      else
        {| responded := true; out := out s; err := err s; timer_set := false;
           replies := replies s
                      ++ [QuantumApi.on_close candidates code (out s) now];
           unlinks := S (unlinks s); kills := kills s |}
  end.

Definition run `{Runtime} (candidates : list json) (events : list Event) : State :=
  foldl (step candidates) started events.

(** An event that can end the wait: the close of the process or the timer. *)
Definition ending (ev : Event) : bool :=
  match ev with Close _ _ | Timeout => true | _ => false end.

(** The standard output collected from a list of events. *)
Definition collected (events : list Event) : string :=
  foldl (fun acc ev => match ev with Stdout d => (acc ++ d)%string | _ => acc end)
        EmptyString events.

End QuantumRun.

(** *** Further concrete inputs *)

(** A runtime whose external program prints the record and a line feed and
    exits with status 0. *)
Definition tidy_runtime : Runtime :=
  {| JSON_parse := fun s => if String.eqb s record_line then Some record_value else None;
     booleanPointInPolygon := fun _ _ => true;
     turfDistance := fun _ _ => 0;
     spawn_gurobi := fun _ _ _ =>
       {| status := Some 0%Z; stdout := String.append record_line (String newline EmptyString);
          stderr := EmptyString |} |}.

(** Draws that are all one half. *)
Definition half_draws (k : nat) : Q := 1 # 2.

(** All candidates have the cost [c] and the energy [e]. *)
Definition uniform {C : Type} `{Priced C} (candidates : list C) (c e : Q) : Prop :=
  ∀ x, x ∈ candidates → prop_cost x = Some c ∧ prop_energy x = Some e.

(** [a <= b] on the best energies of two states of the annealer, the later
    one first. *)
Definition improves (later earlier : sa_state) : Prop :=
  best_le (sa_bestE later) (sa_bestE earlier).

(** What the loops of [MeshApi.mesh] keep true of every cell: it carries the
    price and the energy of the cell type, its centre passed the polygon
    test, its distance is the one to the population centre, and it lies in
    the bounding box of the ring. *)
Definition mesh_cell `{Runtime} (coords : list (Q * Q)) (pc : LatLng)
    (cs : MeshApi.CellSize) (c : MeshApi.Cell) : Prop :=
  MeshApi.c_cost c = MeshApi.price cs
  ∧ MeshApi.c_energy c = MeshApi.cell_energy cs
  ∧ booleanPointInPolygon (MeshApi.c_lng c, MeshApi.c_lat c) coords = true
  ∧ MeshApi.c_dist c = turfDistance (MeshApi.c_lng c, MeshApi.c_lat c) (lng pc, lat pc)
  ∧ list_min (snd <$> coords) <= MeshApi.c_lat c
  ∧ MeshApi.c_lat c <= list_max (snd <$> coords)
  ∧ list_min (fst <$> coords) <= MeshApi.c_lng c
  ∧ MeshApi.c_lng c <= list_max (fst <$> coords).

(** The ranges of the fields of a generated site. *)
Definition site_in_range (s : SiteApi.Site) : Prop :=
  (15000 <= SiteApi.Installation_Cost_USD s
   ∧ SiteApi.Installation_Cost_USD s <= 49999)
  ∧ (100 <= SiteApi.Population_Coverage s ∧ SiteApi.Population_Coverage s <= 1499)
  ∧ ((7 # 2) <= SiteApi.Solar_Potential_kWh_m2_day s
     ∧ SiteApi.Solar_Potential_kWh_m2_day s <= (13 # 2))
  ∧ (105 <= SiteApi.Energy_Capacity_kWh_day s
     ∧ SiteApi.Energy_Capacity_kWh_day s <= (292305 # 100))
  ∧ (DataGenerator.bbox_minLng <= SiteApi.X_coord s
     ∧ SiteApi.X_coord s < DataGenerator.bbox_maxLng)
  ∧ (DataGenerator.bbox_minLat <= SiteApi.Y_coord s
     ∧ SiteApi.Y_coord s < DataGenerator.bbox_maxLat).

(** A text of white space only. *)
Definition blank (s : string) : bool := forallb is_space (list_ascii_of_string s).

(** The number [i] is listed in the array [items]. *)
Definition lists_number (items : list json) (i : nat) : Prop :=
  ∃ q, JNum q ∈ items ∧ q == inject_Z (Z.of_nat i).

(** [a] to the power [k]. *)
Fixpoint qpow (a : Q) (k : nat) : Q :=
  match k with
  | O => 1
  | S k' => a * qpow a k'
  end.

(** The mesh-mode request of [mesh_request (Some 25)] with [quboOnly]. *)
Definition export_request : MeshApi.Request :=
  {| MeshApi.polygon := Some region; MeshApi.budget := Some 25;
     MeshApi.gridArea := Some 1; MeshApi.cellSize := Some two_cells_size;
     MeshApi.country := Some "Ethiopia"%string;
     MeshApi.popCenter := Some {| lat := 9; lng := 38 |};
     MeshApi.quboOnly := true; MeshApi.algo := None;
     MeshApi.K := None; MeshApi.M := None |}.

(** ** Part II: properties *)

(** *** Sums *)

Lemma sumQ_cons (a : Q) (l : list Q) : sumQ (a :: l) = a + sumQ l.
Proof. reflexivity. Qed.

Lemma sumQ_app (l k : list Q) : sumQ (l ++ k) == sumQ l + sumQ k.
Proof.
  induction l as [|a l IH]; simpl.
  - ring.
  - rewrite IH. ring.
Qed.

Lemma sumQ_perm (l k : list Q) : l ≡ₚ k → sumQ l == sumQ k.
Proof.
  induction 1 as [|a l k _ IH|a b l|l k m _ IH1 _ IH2]; simpl.
  - reflexivity.
  - now rewrite IH.
  - ring.
  - now rewrite IH1.
Qed.

Lemma sumQ_add {A} (f g : A → Q) (l : list A) :
  sumQ ((fun i => f i + g i) <$> l) == sumQ (f <$> l) + sumQ (g <$> l).
Proof.
  induction l as [|a l IH]; [rewrite !fmap_nil; simpl; ring|].
  rewrite !fmap_cons, !sumQ_cons, IH. ring.
Qed.

Lemma sumQ_mul {A} (c : Q) (f : A → Q) (l : list A) :
  sumQ ((fun i => c * f i) <$> l) == c * sumQ (f <$> l).
Proof.
  induction l as [|a l IH]; [rewrite !fmap_nil; simpl; ring|].
  rewrite !fmap_cons, !sumQ_cons, IH. ring.
Qed.

(** A sum in which one index contributes. *)
Lemma sumQ_zero {A} (f : A → Q) (l : list A) :
  (∀ i, i ∈ l → f i == 0) → sumQ (f <$> l) == 0.
Proof.
  induction l as [|a l IH]; intros Hf; simpl; [reflexivity|].
  rewrite Hf by left. rewrite IH; [ring|]. intros i Hi. apply Hf. by right.
Qed.

Lemma sumQ_ext {A} (f g : A → Q) (l : list A) :
  (∀ i, i ∈ l → f i == g i) → sumQ (f <$> l) == sumQ (g <$> l).
Proof.
  induction l as [|a l IH]; intros Hf; simpl; [reflexivity|].
  rewrite Hf by left. rewrite IH; [reflexivity|]. intros i Hi. apply Hf. by right.
Qed.

Lemma sumQ_single (g : nat → Q) (a m : nat) :
  sumQ ((fun i => if (i =? a)%nat then g i else 0) <$> seq 0 m)
  == if (a <? m)%nat then g a else 0.
Proof.
  induction m as [|m IH].
  - reflexivity.
  - rewrite seq_S, fmap_app, sumQ_app, IH. simpl.
    destruct (Nat.eqb_spec m a) as [->|Hne].
    + rewrite Nat.ltb_irrefl.
      destruct (Nat.ltb_spec a (S a)); [ring|lia].
    + destruct (Nat.ltb_spec a m), (Nat.ltb_spec a (S m)); try lia; ring.
Qed.

(** *** Loops *)

Lemma for_range_S {S} (n : nat) (body : S → nat → S) (s : S) :
  for_range (Datatypes.S n) body s = body (for_range n body s) n.
Proof. unfold for_range. by rewrite seq_S, foldl_app. Qed.

Lemma for_range_pair {S T} (n : nat) (F : S → nat → S) (G : T → nat → T) (s : S) (t : T) :
  for_range n (fun '(a, b) i => (F a i, G b i)) (s, t) = (for_range n F s, for_range n G t).
Proof.
  induction n as [|n IH]; [done|]. by rewrite !for_range_S, IH.
Qed.

Lemma for_range_sum (g : nat → Q) (n : nat) (e0 : Q) :
  for_range n (fun e j => e + g j) e0 == e0 + sumQ (g <$> seq 0 n).
Proof.
  induction n as [|n IH]; [unfold for_range; simpl; ring|].
  rewrite for_range_S, IH, seq_S, fmap_app, sumQ_app. simpl. ring.
Qed.

Lemma for_range_double_sum (g : nat → nat → Q) (n m : nat) (e0 : Q) :
  for_range m (fun e i => for_range n (fun e' j => e' + g i j) e) e0
  == e0 + sumQ ((fun i => sumQ (g i <$> seq 0 n)) <$> seq 0 m).
Proof.
  induction m as [|m IH]; [unfold for_range; simpl; ring|].
  rewrite for_range_S, for_range_sum, IH, seq_S, fmap_app, sumQ_app. simpl. ring.
Qed.

(** *** Comparisons *)

Lemma Qleb_le (a b : Q) : Qleb a b = true ↔ a <= b.
Proof. apply Qle_bool_iff. Qed.

Lemma Qltb_lt (a b : Q) : Qltb a b = true ↔ a < b.
Proof.
  unfold Qltb. rewrite negb_true_iff, <- not_true_iff_false, Qle_bool_iff.
  split; [apply Qnot_le_lt | apply Qlt_not_le].
Qed.

Lemma Qltb_ge (a b : Q) : Qltb a b = false ↔ b <= a.
Proof.
  unfold Qltb. rewrite negb_false_iff. apply Qle_bool_iff.
Qed.

(** *** The sort *)

Lemma sort_insert_perm {A} (cmp : A → A → jsnum) (a : A) (l : list A) :
  sort_insert cmp a l ≡ₚ a :: l.
Proof.
  induction l as [|b l IH]; simpl; [done|].
  destruct (jpos (cmp a b)); [|done].
  rewrite IH. apply Permutation_swap.
Qed.

Lemma js_sort_perm {A} (cmp : A → A → jsnum) (l : list A) : js_sort cmp l ≡ₚ l.
Proof.
  induction l as [|a l IH]; simpl; [done|].
  rewrite sort_insert_perm. now rewrite IH.
Qed.

Lemma js_sort_ext {A} (cmp cmp' : A → A → jsnum) (l : list A) :
  (∀ a b, cmp a b = cmp' a b) → js_sort cmp l = js_sort cmp' l.
Proof.
  intros E. induction l as [|a l IH]; simpl; [done|].
  rewrite IH. generalize (js_sort cmp' l). intros k.
  induction k as [|b k IHk]; simpl; [done|]. by rewrite E, IHk.
Qed.

Lemma foldl_ext_eq {A B} (f g : A → B → A) (l : list B) (a : A) :
  (∀ x y, f x y = g x y) → foldl f a l = foldl g a l.
Proof.
  intros E. revert a. induction l as [|b l IH]; intros a; simpl; [done|].
  by rewrite E, IH.
Qed.

Lemma index_list {A} (l : list A) : imap (fun i _ => i) l = seq 0 (length l).
Proof. rewrite (imap_seq_0 l (fun i => i)). apply list_fmap_id. Qed.

(** Insertion into a list sorted by a key, for a comparator that is positive
    exactly when the key of its first argument is the smaller one: the
    result is sorted by decreasing key and, among equal keys, by increasing
    index. *)
Section SortFacts.
Variables (cmp : nat → nat → jsnum) (key : nat → Q) (D : nat → Prop).
Hypothesis cmp_key : ∀ a b, D a → D b → (jpos (cmp a b) = true ↔ key a < key b).

Local Notation key_order := (key_order key).

Lemma sort_insert_sorted a l :
  D a → Forall D l → Forall (fun b => (a < b)%nat) l →
  StronglySorted key_order l → StronglySorted key_order (sort_insert cmp a l).
Proof.
  intros Da. induction l as [|b l IH]; intros HD Hlt Hs; simpl.
  - repeat constructor.
  - apply Forall_cons in HD as [Db HD]. apply Forall_cons in Hlt as [Hab Hlt].
    apply StronglySorted_inv in Hs as [Hs Hb].
    destruct (jpos (cmp a b)) eqn:E.
    + apply cmp_key in E; [|done..].
      constructor; [by apply IH|].
      rewrite sort_insert_perm. constructor; [by left|done].
    + assert (key b <= key a) as Hle.
      { apply Qnot_lt_le. intros Hlt'. apply cmp_key in Hlt'; [congruence|done..]. }
      constructor; [by constructor|].
      assert (key_order a b) as Rab.
      { destruct (Qle_lt_or_eq _ _ Hle); [by left|right; split; [by symmetry|done]]. }
      constructor; [done|].
      rewrite Forall_forall in Hb, Hlt. apply Forall_forall. intros c Hc.
      specialize (Hb c Hc). specialize (Hlt c Hc).
      destruct Hb as [Hcb|[Hcb _]], Rab as [Hba|[Hba _]].
      * left. lra.
      * left. lra.
      * left. lra.
      * right. split; [lra|done].
Qed.

Lemma js_sort_seq_sorted n : ∀ k,
  (∀ i, (k <= i < k + n)%nat → D i) →
  StronglySorted key_order (js_sort cmp (seq k n)).
Proof.
  induction n as [|n IH]; intros k HD; simpl; [constructor|].
  apply sort_insert_sorted.
  - apply HD. lia.
  - rewrite js_sort_perm. apply Forall_forall. intros i Hi.
    apply elem_of_seq in Hi. apply HD. lia.
  - rewrite js_sort_perm. apply Forall_forall. intros i Hi.
    apply elem_of_seq in Hi. lia.
  - apply IH. intros i Hi. apply HD. lia.
Qed.
End SortFacts.

Lemma sorted_positions {A} (R : relation A) (l : list A) p q a b :
  StronglySorted R l → (p < q)%nat → l !! p = Some a → l !! q = Some b → R a b.
Proof.
  intros Hs Hpq Ha Hb. rewrite <- (take_drop q l) in Hs.
  eapply StronglySorted_app_1_elem_of; [exact Hs| |].
  - apply list_elem_of_lookup. exists p. by rewrite lookup_take_lt.
  - apply list_elem_of_lookup. exists 0%nat. by rewrite lookup_drop, Nat.add_0_r.
Qed.

(** *** The greedy solver *)

Section GreedyFacts.
Context {C : Type} `{Priced C}.
Variables (candidates : list C) (budget : Q).

Local Notation step := (greedy_step candidates budget).

Lemma greedy_order_perm : greedy_order candidates ≡ₚ seq 0 (length candidates).
Proof. unfold greedy_order. now rewrite js_sort_perm, index_list. Qed.

Lemma greedy_order_NoDup : NoDup (greedy_order candidates).
Proof. rewrite greedy_order_perm. apply NoDup_seq. Qed.

Lemma greedy_order_lt i : i ∈ greedy_order candidates → (i < length candidates)%nat.
Proof. rewrite greedy_order_perm, elem_of_seq. lia. Qed.

(** One step either accepts [i], adding its cost, or leaves the state. *)
Lemma greedy_step_cases t S i :
  (∃ c, cost_at candidates i = Some c ∧ t + c <= budget ∧ step (t, S) i = (t + c, S ++ [i]))
  ∨ ((∀ c, cost_at candidates i = Some c → ¬ t + c <= budget) ∧ step (t, S) i = (t, S)).
Proof.
  unfold greedy_step. destruct (cost_at candidates i) as [c|]; [|right; split; [discriminate|done]].
  destruct (Qleb (t + c) budget) eqn:E.
  - left. exists c. apply Qleb_le in E. done.
  - right. split; [|done]. intros c' [= <-] Hle. apply Qleb_le in Hle. congruence.
Qed.

(** The loop extends [selected] by a sublist of the indices it visits,
    adds their costs to the total, and keeps the total within budget. *)
Lemma greedy_fold L : ∀ t S,
  ∃ S', snd (foldl step (t, S) L) = S ++ S'
      ∧ S' `sublist_of` L
      ∧ fst (foldl step (t, S) L) == t + sumQ (costq candidates <$> S')
      ∧ (t <= budget → fst (foldl step (t, S) L) <= budget).
Proof.
  induction L as [|i L IH]; intros t S; cbn [foldl].
  - exists []. rewrite app_nil_r. simpl. split_and!. 1,2,4: done. ring.
  - destruct (greedy_step_cases t S i) as [(c & Hc & Hle & ->)|[_ ->]].
    + destruct (IH (t + c) (S ++ [i])) as (S' & HS & Hsub & Ht & Hb).
      exists (i :: S'). rewrite HS, <- app_assoc. split_and!; [done|by constructor| |auto].
      rewrite Ht, fmap_cons, sumQ_cons. unfold costq at 2. rewrite Hc. simpl. ring.
    + destruct (IH t S) as (S' & HS & Hsub & Ht & Hb).
      exists S'. split_and!; [done|by constructor|done|done].
Qed.

Lemma filter_sublist {A} (P : A → Prop) `{∀ a, Decision (P a)} (S L : list A) :
  S `sublist_of` L → NoDup L → (∀ i, i ∈ L → P i ↔ i ∈ S) → filter P L = S.
Proof.
  induction 1 as [|a S L Hsub IH|a S L Hsub IH]; intros Hnd HP.
  - done.
  - apply NoDup_cons in Hnd as [Hna Hnd].
    rewrite filter_cons_True by (apply HP; left). f_equal. apply IH; [done|].
    intros i Hi. rewrite HP by (by right). rewrite elem_of_cons.
    split; [|tauto]. intros [->|]; [done|done].
  - apply NoDup_cons in Hnd as [Hna Hnd].
    rewrite filter_cons_False.
    + apply IH; [done|]. intros i Hi. apply HP. by right.
    + rewrite HP by left. intros Hin. apply Hna. eapply elem_of_sublist; eauto.
Qed.

(** The answer of the solver, in terms of the final [selected]. *)
Lemma greedy_answer Qm :
  narGreedyBudget Qm candidates budget =
    imap (fun i _ => bool_decide
            (i ∈ snd (foldl step (0, []) (greedy_order candidates)))) candidates.
Proof.
  unfold narGreedyBudget.
  by destruct (foldl step (0, []) (greedy_order candidates)).
Qed.

Lemma greedy_bit Qm i :
  (i < length candidates)%nat →
  bit (narGreedyBudget Qm candidates budget) i = true
    ↔ i ∈ snd (foldl step (0, []) (greedy_order candidates)).
Proof.
  intros Hi. rewrite greedy_answer. unfold bit. rewrite list_lookup_imap.
  destruct (lookup_lt_is_Some_2 candidates i Hi) as [c ->]. simpl.
  apply bool_decide_eq_true.
Qed.

(** The indices that the answer selects are the final [selected], up to
    order. *)
Lemma greedy_selected_perm Qm :
  filter (fun i => bit (narGreedyBudget Qm candidates budget) i)
         (seq 0 (length candidates))
  ≡ₚ snd (foldl step (0, []) (greedy_order candidates)).
Proof.
  destruct (greedy_fold (greedy_order candidates) 0 []) as (S & HS & Hsub & _).
  rewrite HS, app_nil_l.
  apply NoDup_Permutation.
  - apply NoDup_filter, NoDup_seq.
  - eapply sublist_NoDup; [apply greedy_order_NoDup|done].
  - intros i. rewrite list_elem_of_filter, elem_of_seq, Is_true_true.
    split.
    + intros [Hb Hi]. apply greedy_bit in Hb; [|lia]. by rewrite HS in Hb.
    + intros Hi.
      assert (i < length candidates)%nat as Hlt
        by (apply greedy_order_lt; eapply elem_of_sublist; eauto).
      split; [|lia]. apply greedy_bit; [done|]. by rewrite HS.
Qed.

Lemma greedy_cost_is_total Qm :
  selection_cost candidates (narGreedyBudget Qm candidates budget)
  == fst (foldl step (0, []) (greedy_order candidates)).
Proof.
  unfold selection_cost.
  rewrite (sumQ_perm _ _ (fmap_Permutation _ _ _ (greedy_selected_perm Qm))).
  destruct (greedy_fold (greedy_order candidates) 0 []) as (S & HS & _ & Ht & _).
  rewrite HS, Ht, app_nil_l. ring.
Qed.

Lemma greedy_within_budget Qm :
  0 <= budget →
  selection_cost candidates (narGreedyBudget Qm candidates budget) <= budget.
Proof.
  intros HB. rewrite greedy_cost_is_total.
  destruct (greedy_fold (greedy_order candidates) 0 []) as (S & _ & _ & _ & Hb).
  by apply Hb.
Qed.

(** On candidates with a positive cost and an energy, the comparator of
    the sort is positive exactly when its first argument has the smaller
    energy per cost. *)
Lemma well_priced_at i :
  well_priced candidates → (i < length candidates)%nat →
  ∃ c k e, candidates !! i = Some c ∧ prop_cost c = Some k ∧ 0 < k
           ∧ prop_energy c = Some e.
Proof.
  intros Hw Hi. destruct (lookup_lt_is_Some_2 candidates i Hi) as [c Hc].
  destruct (Hw c) as [(k & Hk & Hpos) (e & He)]; [by eapply list_elem_of_lookup_2|].
  by exists c, k, e.
Qed.

Lemma ratio_fin i :
  well_priced candidates → (i < length candidates)%nat →
  ratio candidates i = Fin (energyq candidates i / costq candidates i).
Proof.
  intros Hw Hi. destruct (well_priced_at i Hw Hi) as (c & k & e & Hc & Hk & Hpos & He).
  unfold ratio, energyq, costq, cost_at. rewrite Hc, Hk, He. simpl.
  destruct (Qeq_bool k 0) eqn:E; [|done].
  apply Qeq_bool_iff in E. lra.
Qed.

Lemma comparator_sign a b :
  well_priced candidates → (a < length candidates)%nat → (b < length candidates)%nat →
  jpos (jsub (ratio candidates b) (ratio candidates a)) = true
  ↔ energyq candidates a / costq candidates a < energyq candidates b / costq candidates b.
Proof.
  intros Hw Ha Hb. rewrite !ratio_fin by done. simpl.
  rewrite Qltb_lt. split; intros; lra.
Qed.

Lemma greedy_order_sorted :
  well_priced candidates →
  StronglySorted (ranks_before candidates) (greedy_order candidates).
Proof.
  intros Hw. unfold greedy_order. rewrite index_list.
  apply js_sort_seq_sorted with (D := fun i => (i < length candidates)%nat).
  - intros a b Ha Hb. by apply comparator_sign.
  - intros i Hi. lia.
Qed.

(** The order is the only one that a stable sort by decreasing energy per
    cost can produce: a rearrangement of the indices in which an earlier
    index always ranks before a later one is [greedy_order]. *)
Lemma greedy_order_unique (l : list nat) :
  well_priced candidates →
  l ≡ₚ seq 0 (length candidates) →
  StronglySorted (ranks_before candidates) l →
  l = greedy_order candidates.
Proof.
  intros Hw Hperm Hsorted.
  assert (AntiSymm eq (ranks_before candidates)) as Hanti
    by (intros a b [Hab|[Hab Hlt]] [Hba|[Hba Hlt']]; try lra; lia).
  apply (StronglySorted_unique (ranks_before candidates)).
  - done.
  - by apply greedy_order_sorted.
  - by rewrite Hperm, greedy_order_perm.
Qed.

(** The state of the loop when it reaches position [p], in terms of the
    answer: [selected] holds the indices before [p] that the answer
    selects. *)
Lemma greedy_prefix Qm p a :
  greedy_order candidates !! p = Some a →
  let st := foldl step (0, []) (take p (greedy_order candidates)) in
  snd st = filter (fun i => bit (narGreedyBudget Qm candidates budget) i)
                  (take p (greedy_order candidates))
  ∧ fst st == total_before candidates (narGreedyBudget Qm candidates budget)
                           (greedy_order candidates) p
  ∧ (bit (narGreedyBudget Qm candidates budget) a = true
     ↔ a ∈ snd (step st a)).
Proof.
  intros Hp st.
  pose proof greedy_order_NoDup as Hnd.
  pose proof (take_drop_middle _ _ _ Hp) as Hsplit.
  rewrite <- Hsplit in Hnd.
  apply NoDup_app in Hnd as (Hnd1 & Hdisj & Hnd2).
  apply NoDup_cons in Hnd2 as [Ha2 Hnd2].
  assert (a ∉ take p (greedy_order candidates)) as Ha1
    by (intros Hin; apply (Hdisj a Hin); left).
  assert (a < length candidates)%nat as Hlt
    by (apply greedy_order_lt; eapply list_elem_of_lookup_2; eauto).
  destruct (greedy_fold (take p (greedy_order candidates)) 0 [])
    as (S1 & HS1 & Hsub1 & Ht1 & _).
  fold st in HS1, Ht1. rewrite app_nil_l in HS1.
  assert (foldl step (0, []) (greedy_order candidates)
          = foldl step (step st a) (drop (S p) (greedy_order candidates))) as Hrun.
  { rewrite <- Hsplit at 1. by rewrite foldl_app. }
  destruct (greedy_fold (drop (S p) (greedy_order candidates))
              (fst (step st a)) (snd (step st a))) as (S2 & HS2 & Hsub2 & _).
  rewrite <- surjective_pairing, <- Hrun in HS2.
  assert (∃ Sa, snd (step st a) = S1 ++ Sa ∧ Sa `sublist_of` [a]) as (Sa & HSa & Hsuba).
  { rewrite (surjective_pairing st), HS1.
    destruct (greedy_step_cases st.1 S1 a) as [(c & _ & _ & ->)|[_ ->]].
    - by exists [a].
    - exists []. rewrite app_nil_r. split; [done|apply sublist_nil_l]. }
  assert (∀ i, (i < length candidates)%nat →
            bit (narGreedyBudget Qm candidates budget) i = true
            ↔ i ∈ S1 ∨ i ∈ Sa ∨ i ∈ S2) as Hbit.
  { intros i Hi. rewrite greedy_bit, HS2, HSa by done.
    rewrite !elem_of_app. tauto. }
  assert (snd st = filter (fun i => bit (narGreedyBudget Qm candidates budget) i)
                     (take p (greedy_order candidates))) as Hsel.
  { rewrite HS1. symmetry. apply filter_sublist; [done..|].
    intros i Hi.
    assert (i < length candidates)%nat as Hi'
      by (apply greedy_order_lt; eapply elem_of_sublist; [done|apply sublist_take]).
    rewrite Is_true_true, Hbit by done. split; [|tauto].
    intros [|[Hia|Hi2]]; [done| |].
    - apply (elem_of_sublist _ _ _ Hia) in Hsuba. apply list_elem_of_singleton in Hsuba.
      by subst.
    - exfalso. apply (Hdisj i Hi). right. eapply elem_of_sublist; eauto. }
  split_and!.
  - done.
  - unfold total_before. rewrite <- Hsel, HS1, Ht1. ring.
  - rewrite Hbit, HSa, elem_of_app by done. split; [|tauto].
    intros [H1|[|H2]]; [|tauto|].
    + exfalso. apply Ha1. eapply elem_of_sublist; eauto.
    + exfalso. apply Ha2. eapply elem_of_sublist; eauto.
Qed.

(** A candidate is selected exactly when, at its turn, the running total
    plus its cost is within the budget. *)
Lemma greedy_accepts Qm p a :
  well_priced candidates →
  greedy_order candidates !! p = Some a →
  bit (narGreedyBudget Qm candidates budget) a = true
  ↔ total_before candidates (narGreedyBudget Qm candidates budget)
                 (greedy_order candidates) p + costq candidates a <= budget.
Proof.
  intros Hw Hp.
  destruct (greedy_prefix Qm p a Hp) as (Hsel & Htot & Hbit).
  assert (a < length candidates)%nat as Hlt
    by (apply greedy_order_lt; eapply list_elem_of_lookup_2; eauto).
  destruct (well_priced_at a Hw Hlt) as (c & k & e & Hc & Hk & _ & _).
  assert (cost_at candidates a = Some k) as Hcost by (unfold cost_at; by rewrite Hc).
  assert (costq candidates a = k) as Hq by (unfold costq; by rewrite Hcost).
  rewrite Hbit, <- Htot, Hq.
  set (st := foldl step (0, []) (take p (greedy_order candidates))) in *.
  assert (a ∉ snd st) as Hfresh.
  { rewrite Hsel, list_elem_of_filter. intros [_ Hin].
    pose proof greedy_order_NoDup as Hnd.
    rewrite <- (take_drop_middle _ _ _ Hp) in Hnd.
    apply NoDup_app in Hnd as (_ & Hdisj & _). apply (Hdisj a Hin). left. }
  rewrite (surjective_pairing st) at 1.
  destruct (greedy_step_cases st.1 st.2 a) as [(c' & Hc' & Hle & ->)|[Hno ->]].
  - rewrite Hcost in Hc'. injection Hc' as <-. simpl.
    rewrite elem_of_app, list_elem_of_singleton. tauto.
  - simpl. split; [done|]. intros Hle. by destruct (Hno k Hcost).
Qed.
End GreedyFacts.

Lemma scenarioB_well_priced : well_priced scenarioB.
Proof.
  intros c Hc. unfold scenarioB in Hc.
  repeat (apply elem_of_cons in Hc as [->|Hc]); [..|by apply elem_of_nil in Hc];
    (split; [eexists; split; [reflexivity|reflexivity]|eexists; reflexivity]).
Qed.





(** C10.  The answer of [narGreedyBudget] does not depend on its matrix
    argument; it is the same for two candidate lists that agree on the cost
    and on the energy of every candidate. *)
Theorem greedy_ignores_matrix :
  (∀ (C : Type) (P : Priced C) (Q1 Q2 : matrix) (candidates : list C) (budget : Q),
     narGreedyBudget Q1 candidates budget = narGreedyBudget Q2 candidates budget)
  ∧ (∀ (C : Type) (P : Priced C) (Q1 Q2 : matrix) (cs1 cs2 : list C) (budget : Q),
       prop_cost <$> cs1 = prop_cost <$> cs2 →
       prop_energy <$> cs1 = prop_energy <$> cs2 →
       narGreedyBudget Q1 cs1 budget = narGreedyBudget Q2 cs2 budget).
Proof.
  split; [reflexivity|].
  intros C P Q1 Q2 cs1 cs2 budget Hc He.
  assert (length cs1 = length cs2) as Hlen
    by (rewrite <- (length_fmap prop_cost cs1), Hc; apply length_fmap).
  assert (∀ i, cost_at cs1 i = cost_at cs2 i) as Hcost.
  { intros i. unfold cost_at.
    pose proof (f_equal (fun l => l !! i) Hc) as E. simpl in E.
    rewrite !list_lookup_fmap in E.
    destruct (cs1 !! i), (cs2 !! i); simpl in E; congruence. }
  assert (∀ i, ratio cs1 i = ratio cs2 i) as Hratio.
  { intros i. unfold ratio.
    pose proof (f_equal (fun l => l !! i) Hc) as E1.
    pose proof (f_equal (fun l => l !! i) He) as E2. simpl in E1, E2.
    rewrite !list_lookup_fmap in E1, E2.
    destruct (cs1 !! i), (cs2 !! i); simpl in E1, E2; congruence. }
  assert (greedy_order cs1 = greedy_order cs2) as Hord.
  { unfold greedy_order. rewrite !index_list, Hlen.
    apply js_sort_ext. intros a b. by rewrite !Hratio. }
  unfold narGreedyBudget. rewrite Hord.
  rewrite (foldl_ext_eq (greedy_step cs1 budget) (greedy_step cs2 budget))
    by (intros [t S] i; unfold greedy_step; by rewrite Hcost).
  destruct (foldl _ _ _) as [total selected].
  rewrite (imap_seq_0 cs1 (fun i => bool_decide (i ∈ selected))).
  rewrite (imap_seq_0 cs2 (fun i => bool_decide (i ∈ selected))).
  by rewrite Hlen.
Qed.

Lemma greedy_ignores_matrix_witness :
  narGreedyBudget [] scenarioB 25 = narGreedyBudget [[1]] scenarioB 25.
Proof.
  apply (proj2 greedy_ignores_matrix); reflexivity.
Defined.

(** In dataset mode the candidates are site objects, which have no [cost]
    and no [energy] property: every comparison of the sort is on [NaN], the
    order is the list order, no candidate passes the budget test, and the
    answer selects nothing. *)
Lemma dataset_candidates_never_selected (Qm : matrix)
    (candidates : list SiteApi.Candidate) (budget : Q) :
  narGreedyBudget Qm candidates budget = replicate (length candidates) false.
Proof.
  unfold narGreedyBudget.
  assert (∀ st i, greedy_step candidates budget st i = st) as Hstep.
  { intros [total selected] i. unfold greedy_step, cost_at.
    by destruct (candidates !! i). }
  assert (∀ l st, foldl (greedy_step candidates budget) st l = st) as Hfold.
  { induction l as [|i l IH]; intros st; [done|]. cbn [foldl]. by rewrite Hstep. }
  rewrite Hfold.
  rewrite (imap_seq_0 candidates (fun i => bool_decide (i ∈ ([] : list nat)))).
  generalize 0%nat. induction (length candidates) as [|n IH]; intros k; [done|].
  simpl. f_equal. apply IH.
Qed.

(** *** The annealer *)

Section AnnealerFacts.
Context {C : Type} `{Priced C}.
Variables (Qm : matrix) (n : nat) (candidates : list C) (budget : Q).

(** [energy] is the quadratic form plus the penalty for exceeding the
    budget. *)
Lemma energy_quad_form (x : list bool) :
  length x = n →
  energy Qm n candidates budget x
  == quad_form Qm x + over_budget_penalty budget (cost_sum candidates n x).
Proof.
  intros Hn. unfold energy, quad_form, over_budget_penalty, cost_sum. rewrite Hn.
  rewrite (for_range_pair n
             (fun e i => for_range n
                (fun e' j => e' + entry Qm i j * b2q (bit x i) * b2q (bit x j)) e)
             (fun cost i => if bit x i then nadd cost (cost_at candidates i) else cost)).
  pose proof (for_range_double_sum
                (fun i j => entry Qm i j * b2q (bit x i) * b2q (bit x j)) n n 0) as Hs.
  destruct (for_range n _ (Some 0)) as [c|].
  - destruct (Qltb budget c); rewrite Hs; ring.
  - rewrite Hs. ring.
Qed.

Variables (alpha : Q) (rnd : nat → draw).

Lemma sa_step_inv d s :
  sa_inv Qm n candidates budget s →
  sa_inv Qm n candidates budget (sa_step Qm n candidates budget alpha d s)
  ∧ best_le (sa_bestE (sa_step Qm n candidates budget alpha d s)) (sa_bestE s).
Proof.
  intros Hinv. unfold sa_step.
  set (x2 := alter negb (pick d) (sa_x s)).
  set (e1 := energy Qm n candidates budget (sa_x s)).
  set (e2 := energy Qm n candidates budget x2).
  destruct (Qltb e2 e1 || metropolis d).
  - unfold below_best. destruct (sa_bestE s) as [b|] eqn:Eb.
    + destruct (Qltb e2 b) eqn:Elt.
      * apply Qltb_lt in Elt. unfold sa_inv, best_le. simpl. fold e2.
        split; [split; [reflexivity|lra]|lra].
      * apply Qltb_ge in Elt. unfold sa_inv, best_le in *. simpl. rewrite Eb in *.
        fold e2. destruct Hinv as [Hb _]. split; [split; [done|done]|lra].
    + unfold sa_inv, best_le. simpl. fold e2. split; [split; [reflexivity|lra]|done].
  - unfold sa_inv, best_le in *. simpl. destruct (sa_bestE s); [split; [done|lra]|done].
Qed.

Lemma best_le_trans a b c : best_le a b → best_le b c → best_le a c.
Proof.
  destruct a, b, c; simpl; try done; intros; lra.
Qed.

Lemma best_le_refl a : best_le a a.
Proof. destruct a; simpl; [lra|done]. Qed.

(** Along a run the invariant holds in every state, and the best energy at
    the end is at most the best energy in every state. *)
Lemma sa_loop_states todo : ∀ iter s,
  sa_inv Qm n candidates budget s →
  let final := sa_loop Qm n candidates budget alpha rnd todo iter s in
  sa_inv Qm n candidates budget final
  ∧ best_le (sa_bestE final) (sa_bestE s)
  ∧ ∀ s', s' ∈ sa_states Qm n candidates budget alpha rnd todo iter s →
      sa_inv Qm n candidates budget s' ∧ best_le (sa_bestE final) (sa_bestE s').
Proof.
  induction todo as [|todo IH]; intros iter s Hinv; simpl.
  - split_and!; [done|apply best_le_refl|]. intros s' Hs'. by apply elem_of_nil in Hs'.
  - destruct (sa_step_inv (rnd iter) s Hinv) as [Hinv' Hle].
    destruct (Qltb _ _).
    + split_and!; [done|done|]. intros s' Hs'. apply list_elem_of_singleton in Hs' as ->.
      split; [done|apply best_le_refl].
    + destruct (IH (S iter) _ Hinv') as (Hf & Hfle & Hall).
      split_and!; [done|by eapply best_le_trans|].
      intros s' Hs'. apply elem_of_cons in Hs' as [->|Hs']; [by split|by apply Hall].
Qed.

Lemma sa_loop_last todo : ∀ iter s,
  sa_loop Qm n candidates budget alpha rnd todo iter s = s
  ∨ sa_loop Qm n candidates budget alpha rnd todo iter s
    ∈ sa_states Qm n candidates budget alpha rnd todo iter s.
Proof.
  induction todo as [|todo IH]; intros iter s; simpl; [by left|].
  destruct (Qltb _ _); [right; by left|].
  destruct (IH (S iter) (sa_step Qm n candidates budget alpha (rnd iter) s))
    as [->|Hin]; right; [by left|by right].
Qed.

Lemma sa_init_inv T0 : sa_inv Qm n candidates budget (sa_init n T0).
Proof. by split. Qed.

(** What the annealer guarantees: its answer has at most the energy of the
    current vector of every state of the run in which a move had been
    accepted; when no move is ever accepted, the answer is the initial
    vector. *)
Lemma annealing_answer_below_accepted_states maxIter T0 :
  let answer := simulatedAnnealingQUBO Qm n candidates budget maxIter T0 alpha rnd in
  let states := sa_states Qm n candidates budget alpha rnd maxIter 0 (sa_init n T0) in
  (∀ s, s ∈ states → sa_bestE s ≠ None →
     energy Qm n candidates budget answer <= energy Qm n candidates budget (sa_x s))
  ∧ ((∀ s, s ∈ states → sa_bestE s = None) → answer = replicate n false).
Proof.
  intros answer states.
  destruct (sa_loop_states maxIter 0 (sa_init n T0) (sa_init_inv T0)) as (Hf & _ & Hall).
  fold states in Hall. unfold simulatedAnnealingQUBO in answer.
  set (final := sa_loop Qm n candidates budget alpha rnd maxIter 0 (sa_init n T0)) in *.
  split.
  - intros s Hs Hsome. destruct (Hall s Hs) as [Hinv Hle].
    unfold sa_inv in Hinv, Hf. unfold best_le in Hle.
    destruct (sa_bestE s) as [b|]; [|done].
    destruct (sa_bestE final) as [bf|]; [|done].
    destruct Hinv as [_ Hb]. destruct Hf as [Hbf _]. unfold answer. lra.
  - intros Hnone. unfold sa_inv in Hf.
    destruct (sa_bestE final) as [bf|] eqn:Ef; [|by destruct Hf].
    exfalso.
    destruct (sa_loop_last maxIter 0 (sa_init n T0)) as [Hfin|Hfin]; fold final in Hfin.
    + rewrite Hfin in Ef. discriminate.
    + fold states in Hfin. rewrite (Hnone _ Hfin) in Ef. discriminate.
Qed.
End AnnealerFacts.

(** Once the run on the unit problem sits in [[1, 0]] with that vector as
    its best one, the later draws of [stuck_draws] leave both unchanged. *)
Lemma stuck_run alpha todo : ∀ iter s,
  (1 <= iter)%nat → sa_x s = [true; false] → sa_bestX s = [true; false] →
  sa_bestX (sa_loop unit_Q 2 unit_cells 10 alpha stuck_draws todo iter s) = [true; false].
Proof.
  induction todo as [|todo IH]; intros iter s Hiter Hx Hb; simpl; [done|].
  assert (sa_step unit_Q 2 unit_cells 10 alpha (stuck_draws iter) s
          = {| sa_x := sa_x s; sa_bestX := sa_bestX s; sa_bestE := sa_bestE s;
               sa_T := sa_T s * alpha |}) as ->.
  { unfold sa_step, stuck_draws. destruct (Nat.eqb_spec iter 0) as [?|_]; [lia|].
    rewrite Hx. reflexivity. }
  destruct (Qltb _ _); [done|].
  apply IH; [lia|done..].
Qed.

Lemma stuck_answer maxIter T0 alpha :
  (1 <= maxIter)%nat →
  simulatedAnnealingQUBO unit_Q 2 unit_cells 10 maxIter T0 alpha stuck_draws
  = [true; false].
Proof.
  intros Hm. destruct maxIter as [|todo]; [lia|].
  unfold simulatedAnnealingQUBO. simpl.
  assert (sa_step unit_Q 2 unit_cells 10 alpha (stuck_draws 0) (sa_init 2 T0)
          = {| sa_x := [true; false]; sa_bestX := [true; false]; sa_bestE := Some 1;
               sa_T := T0 * alpha |}) as -> by reflexivity.
  destruct (Qltb _ _); [done|].
  by apply stuck_run.
Qed.

(** C4.  On the unit problem, with the default iteration count, start
    temperature and cooling rate, the run with the draws [stuck_draws]
    returns [[1, 0]], of energy 1, although it evaluated the initial vector
    [[0, 0]], of energy 0: the answer is not a lowest-energy state among
    those evaluated. *)
Theorem annealing_answer_above_initial_state :
  simulatedAnnealingQUBO unit_Q 2 unit_cells 10
    default_maxIter default_T0 default_alpha stuck_draws = [true; false]
  ∧ energy unit_Q 2 unit_cells 10 [true; false] == 1
  ∧ sa_x (sa_init 2 default_T0) = [false; false]
  ∧ energy unit_Q 2 unit_cells 10 [false; false] == 0
  ∧ ¬ energy unit_Q 2 unit_cells 10 [true; false]
      <= energy unit_Q 2 unit_cells 10 [false; false].
Proof.
  split_and!.
  - apply stuck_answer. apply Nat.leb_le. reflexivity.
  - vm_compute. reflexivity.
  - reflexivity.
  - vm_compute. reflexivity.
  - intros Hle. vm_compute in Hle. by apply Hle.
Qed.

(** *** Matrices updated in place *)

Lemma square_zeros n : square n (zeros n).
Proof.
  unfold square, zeros. split; [apply length_replicate|].
  apply Forall_replicate, length_replicate.
Qed.

Lemma entry_zeros n a b : entry (zeros n) a b = 0.
Proof.
  unfold entry, zeros.
  destruct (le_lt_dec n a) as [Ha|Ha].
  - by rewrite (proj1 (lookup_replicate_None _ _ _) Ha).
  - rewrite lookup_replicate_2 by done.
    destruct (le_lt_dec n b) as [Hb|Hb].
    + by rewrite (proj1 (lookup_replicate_None _ _ _) Hb).
    + by rewrite lookup_replicate_2 by done.
Qed.

Lemma entry_outside n Qm a b :
  square n Qm → (n <= a)%nat ∨ (n <= b)%nat → entry Qm a b = 0.
Proof.
  intros [Hlen Hrows] Hab. unfold entry.
  destruct (Qm !! a) as [row|] eqn:E; [|done].
  assert (length row = n) as Hrow
    by (rewrite Forall_forall in Hrows; apply Hrows; by eapply list_elem_of_lookup_2).
  apply lookup_lt_Some in E.
  destruct Hab as [?|?]; [lia|].
  by rewrite lookup_ge_None_2 by lia.
Qed.

Lemma adds_add_entry n i j v :
  (i < n)%nat → (j < n)%nat → adds n (fun Qm => add_entry Qm i j v) (at_pair i j v).
Proof.
  intros Hi Hj Qm [Hlen Hrows]. split.
  - split; unfold add_entry; [by rewrite length_alter|].
    apply Forall_alter; [done|]. intros row Hrow Hl. by rewrite length_alter.
  - intros a b. unfold entry, add_entry, at_pair. rewrite list_lookup_alter.
    destruct (decide (i = a)) as [->|Hne].
    + rewrite Nat.eqb_refl. simpl.
      destruct (Qm !! a) as [row|] eqn:E; simpl.
      * rewrite list_lookup_alter. destruct (decide (j = b)) as [->|Hne].
        -- rewrite Nat.eqb_refl.
           assert (length row = n) as Hrow
             by (rewrite Forall_forall in Hrows; apply Hrows;
                 by eapply list_elem_of_lookup_2).
           destruct (lookup_lt_is_Some_2 row b) as [v' ->]; [lia|]. simpl. reflexivity.
        -- destruct (Nat.eqb_spec b j) as [->|_]; [done|]. ring.
      * apply lookup_ge_None in E. lia.
    + destruct (Nat.eqb_spec a i) as [->|_]; [done|]. simpl. ring.
Qed.

Lemma adds_none n : adds n (fun Qm => Qm) (fun _ _ => 0).
Proof. intros Qm Hs. split; [done|]. intros a b. ring. Qed.

Lemma adds_then n F G f g :
  adds n F f → adds n G g → adds n (fun Qm => G (F Qm)) (fun a b => f a b + g a b).
Proof.
  intros HF HG Qm Hs. destruct (HF Qm Hs) as [Hs' Hf]. destruct (HG _ Hs') as [Hs'' Hg].
  split; [done|]. intros a b. rewrite Hg, Hf. ring.
Qed.

Lemma adds_ext n F f g : adds n F f → (∀ a b, f a b == g a b) → adds n F g.
Proof.
  intros HF E Qm Hs. destruct (HF Qm Hs) as [Hs' Hf].
  split; [done|]. intros a b. by rewrite Hf, E.
Qed.

(** Several additions to the same entry. *)
Lemma adds_entries n i j (vs : list Q) :
  (i < n)%nat → (j < n)%nat →
  adds n (fun Qm => foldl (fun Qm' v => add_entry Qm' i j v) Qm vs)
         (at_pair i j (sumQ vs)).
Proof.
  intros Hi Hj. induction vs as [|v vs IH] using rev_ind.
  - apply (adds_ext _ _ _ _ (adds_none n)). intros a b. unfold at_pair.
    destruct (_ && _); reflexivity.
  - intros Qm Hs. rewrite foldl_app. simpl.
    destruct (adds_then _ _ _ _ _ IH (adds_add_entry n i j v Hi Hj) Qm Hs) as [Hs' He].
    split; [done|]. intros a b. rewrite He. unfold at_pair.
    destruct (_ && _); rewrite ?sumQ_app; simpl; ring.
Qed.

Lemma adds_for_range n m body f :
  (∀ i, (i < m)%nat → adds n (fun Qm => body Qm i) (f i)) →
  adds n (for_range m body) (fun a b => sumQ ((fun i => f i a b) <$> seq 0 m)).
Proof.
  induction m as [|m IH]; intros Hbody.
  - apply (adds_ext _ _ _ _ (adds_none n)). intros a b. reflexivity.
  - assert (adds n (for_range m body)
              (fun a b => sumQ ((fun i => f i a b) <$> seq 0 m))) as Hm
      by (apply IH; intros i Hi; apply Hbody; lia).
    pose proof (adds_then _ _ _ _ _ Hm (Hbody m (Nat.lt_succ_diag_r m))) as Hstep.
    intros Qm Hs. destruct (Hstep Qm Hs) as [Hs' He].
    rewrite for_range_S. split; [done|].
    intros a b. rewrite He, seq_S, fmap_app, sumQ_app. simpl. ring.
Qed.

(** *** The entries of the QUBO matrices *)

Lemma adds_cross_terms theta mu lambda Cs Ps n i :
  (i < n)%nat →
  adds n (cross_terms theta mu lambda Cs Ps n i)
    (fun a b => if (a =? i)%nat && (b <? n)%nat && negb (b =? i)%nat
                then 2 * theta * item Cs i * item Cs b + 2 * mu
                     + 2 * lambda * item Ps i * item Ps b
                else 0).
Proof.
  intros Hi. unfold cross_terms.
  eapply adds_ext.
  - apply adds_for_range with
      (f := fun j => if (i =? j)%nat then (fun _ _ => 0)
                     else at_pair i j (sumQ [2 * theta * item Cs i * item Cs j; 2 * mu;
                                             2 * lambda * item Ps i * item Ps j])).
    intros j Hj. destruct (Nat.eqb_spec i j) as [_|_].
    + apply adds_none.
    + by apply (adds_entries n i j [_; _; _]).
  - intros a b. cbv beta.
    rewrite (sumQ_ext _ (fun j => if (j =? b)%nat
                                  then (if (a =? i)%nat && negb (b =? i)%nat
                                        then 2 * theta * item Cs i * item Cs j + 2 * mu
                                             + 2 * lambda * item Ps i * item Ps j
                                        else 0)
                                  else 0)).
    + rewrite sumQ_single.
      destruct (Nat.eqb_spec a i), (Nat.ltb_spec b n), (Nat.eqb_spec b i);
        simpl; reflexivity.
    + intros j _. unfold at_pair.
      destruct (Nat.eqb_spec i j), (Nat.eqb_spec j b), (Nat.eqb_spec a i),
        (Nat.eqb_spec b j), (Nat.eqb_spec b i); subst; simpl; try lia; ring.
Qed.

Lemma adds_offset n v :
  adds n (fun Qm => add_entry Qm 0 0 v)
    (fun a b => if (0 <? n)%nat then at_pair 0 0 v a b else 0).
Proof.
  destruct n as [|n].
  - intros Qm [Hlen Hrows]. apply nil_length_inv in Hlen as ->. simpl.
    split; [by split|]. intros a b. unfold entry. rewrite lookup_nil. ring.
  - apply adds_add_entry; lia.
Qed.

Lemma mesh_linear_terms Cs Ps B K M n :
  adds n (MeshApi.linear_terms Cs Ps B K M n)
    (fun a b => if (a <? n)%nat && (a =? b)%nat
                then diag_term mesh_weights Cs Ps [] B K M a else 0).
Proof.
  unfold MeshApi.linear_terms.
  eapply adds_ext.
  - apply adds_for_range with
      (f := fun i => at_pair i i
              (sumQ [item Cs i; MeshApi.theta * item Cs i ^ 2; MeshApi.mu;
                     MeshApi.lambda * item Ps i ^ 2; - (MeshApi.alpha * item Ps i);
                     -2 * MeshApi.theta * B * item Cs i; -2 * MeshApi.mu * K;
                     -2 * MeshApi.lambda * M * item Ps i])).
    intros i Hi. by apply (adds_entries n i i [_; _; _; _; _; _; _; _]).
  - intros a b. cbv beta.
    rewrite (sumQ_ext _ (fun i => if (i =? a)%nat
                                  then (if (a =? b)%nat
                                        then diag_term mesh_weights Cs Ps [] B K M i
                                        else 0)
                                  else 0)).
    + rewrite sumQ_single.
      destruct (Nat.ltb_spec a n), (Nat.eqb_spec a b); simpl; reflexivity.
    + intros i _. unfold at_pair, diag_term, mesh_weights.
      cbn [w_alpha w_gamma w_theta w_mu w_lambda sumQ foldr].
      replace (item [] i) with 0 by (unfold item; by rewrite lookup_nil).
      destruct (Nat.eqb_spec a i), (Nat.eqb_spec b i), (Nat.eqb_spec i a),
        (Nat.eqb_spec a b); subst; simpl; try lia; ring.
Qed.

Lemma sum_cross_rows (g : nat → nat → Q) (n a b : nat) :
  sumQ ((fun i => if (a =? i)%nat && (b <? n)%nat && negb (b =? i)%nat
                  then g i b else 0) <$> seq 0 n)
  == if (a <? n)%nat && (b <? n)%nat && negb (a =? b)%nat then g a b else 0.
Proof.
  rewrite (sumQ_ext _ (fun i => if (i =? a)%nat
                                then (if (b <? n)%nat && negb (b =? a)%nat
                                      then g i b else 0)
                                else 0)).
  - rewrite sumQ_single.
    destruct (Nat.ltb_spec a n), (Nat.ltb_spec b n), (Nat.eqb_spec a b),
      (Nat.eqb_spec b a); subst; simpl; try lia; reflexivity.
  - intros i _.
    destruct (Nat.eqb_spec a i), (Nat.eqb_spec i a), (Nat.ltb_spec b n),
      (Nat.eqb_spec b i), (Nat.eqb_spec b a); subst; simpl; try lia; reflexivity.
Qed.

Lemma mesh_quadratic_terms Cs Ps n :
  adds n (MeshApi.quadratic_terms Cs Ps n)
    (fun a b => if (a <? n)%nat && (b <? n)%nat && negb (a =? b)%nat
                then cross_term mesh_weights Cs Ps a b else 0).
Proof.
  unfold MeshApi.quadratic_terms.
  eapply adds_ext.
  - apply adds_for_range with
      (body := fun Qm i => cross_terms MeshApi.theta MeshApi.mu MeshApi.lambda Cs Ps n i Qm).
    intros i Hi. by apply adds_cross_terms.
  - intros a b. cbv beta.
    apply (sum_cross_rows (cross_term mesh_weights Cs Ps)).
Qed.

(** Every entry of the mesh-mode matrix, in closed form. *)
Lemma mesh_qubo_entry Cs Ps B K M i j :
  entry (MeshApi.build_qubo Cs Ps B K M) i j
  == qubo_entry mesh_weights Cs Ps [] B K M (length Cs) i j.
Proof.
  unfold MeshApi.build_qubo. set (n := length Cs).
  pose proof (adds_then _ _ _ _ _
                (adds_then _ _ _ _ _ (mesh_linear_terms Cs Ps B K M n)
                                     (mesh_quadratic_terms Cs Ps n))
                (adds_offset n (offset_term mesh_weights B K M))) as Hadd.
  destruct (Hadd (zeros n) (square_zeros n)) as [_ He].
  rewrite He, entry_zeros. unfold qubo_entry, at_pair.
  destruct (Nat.ltb_spec i n), (Nat.ltb_spec j n), (Nat.eqb_spec i j),
    (Nat.eqb_spec i 0), (Nat.eqb_spec j 0), (Nat.ltb_spec 0 n);
    subst; simpl; try lia; ring.
Qed.

Lemma mesh_qubo_square Cs Ps B K M : square (length Cs) (MeshApi.build_qubo Cs Ps B K M).
Proof.
  unfold MeshApi.build_qubo. set (n := length Cs).
  pose proof (adds_then _ _ _ _ _
                (adds_then _ _ _ _ _ (mesh_linear_terms Cs Ps B K M n)
                                     (mesh_quadratic_terms Cs Ps n))
                (adds_offset n (offset_term mesh_weights B K M))) as Hadd.
  by destruct (Hadd (zeros n) (square_zeros n)) as [Hs _].
Qed.

Lemma site_fill_rows Cs Ps Es B K M n :
  adds n (SiteApi.fill_rows Cs Ps Es B K M n)
    (fun a b => if (a <? n)%nat && (b <? n)%nat
                then (if (a =? b)%nat then diag_term site_weights Cs Ps Es B K M a
                      else cross_term site_weights Cs Ps a b)
                else 0).
Proof.
  unfold SiteApi.fill_rows.
  eapply adds_ext.
  - apply adds_for_range with
      (f := fun i a b =>
              at_pair i i
                (sumQ [item Cs i - SiteApi.alpha * item Ps i - SiteApi.gamma * item Es i;
                       SiteApi.theta * (item Cs i ^ 2 - 2 * B * item Cs i);
                       SiteApi.mu * (1 - 2 * K);
                       SiteApi.lambda * (item Ps i ^ 2 - 2 * M * item Ps i)]) a b
              + (if (a =? i)%nat && (b <? n)%nat && negb (b =? i)%nat
                 then 2 * SiteApi.theta * item Cs i * item Cs b + 2 * SiteApi.mu
                      + 2 * SiteApi.lambda * item Ps i * item Ps b
                 else 0)).
    intros i Hi.
    apply (adds_then n
             (fun Qm => foldl (fun Qm' v => add_entry Qm' i i v) Qm [_; _; _; _])
             (cross_terms SiteApi.theta SiteApi.mu SiteApi.lambda Cs Ps n i)).
    + by apply adds_entries.
    + by apply adds_cross_terms.
  - intros a b. cbv beta.
    rewrite (sumQ_ext _ (fun i => if (i =? a)%nat
                                  then (if (b <? n)%nat
                                        then (if (a =? b)%nat
                                              then diag_term site_weights Cs Ps Es B K M i
                                              else cross_term site_weights Cs Ps i b)
                                        else 0)
                                  else 0)).
    + rewrite sumQ_single.
      destruct (Nat.ltb_spec a n), (Nat.ltb_spec b n), (Nat.eqb_spec a b);
        subst; simpl; try lia; reflexivity.
    + intros i Hi. apply elem_of_seq in Hi.
      unfold at_pair, diag_term, cross_term, site_weights.
      cbn [w_alpha w_gamma w_theta w_mu w_lambda sumQ foldr].
      destruct (Nat.eqb_spec a i), (Nat.eqb_spec b i), (Nat.eqb_spec i a),
        (Nat.ltb_spec b n), (Nat.eqb_spec a b); subst; simpl; try lia; ring.
Qed.

(** Every entry of the dataset-mode matrix, in closed form. *)
Lemma site_qubo_entry Cs Ps Es B K M i j :
  entry (SiteApi.build_qubo Cs Ps Es B K M) i j
  == qubo_entry site_weights Cs Ps Es B K M (length Cs) i j.
Proof.
  unfold SiteApi.build_qubo. set (n := length Cs).
  pose proof (adds_then _ _ _ _ _ (site_fill_rows Cs Ps Es B K M n)
                (adds_offset n (offset_term site_weights B K M))) as Hadd.
  destruct (Hadd (zeros n) (square_zeros n)) as [_ He].
  rewrite He, entry_zeros. unfold qubo_entry, at_pair.
  destruct (Nat.ltb_spec i n), (Nat.ltb_spec j n), (Nat.eqb_spec i j),
    (Nat.eqb_spec i 0), (Nat.eqb_spec j 0), (Nat.ltb_spec 0 n);
    subst; simpl; try lia; ring.
Qed.

Lemma site_qubo_square Cs Ps Es B K M :
  square (length Cs) (SiteApi.build_qubo Cs Ps Es B K M).
Proof.
  unfold SiteApi.build_qubo. set (n := length Cs).
  pose proof (adds_then _ _ _ _ _ (site_fill_rows Cs Ps Es B K M n)
                (adds_offset n (offset_term site_weights B K M))) as Hadd.
  by destruct (Hadd (zeros n) (square_zeros n)) as [Hs _].
Qed.

Lemma b2q_square (b : bool) : b2q b * b2q b == b2q b.
Proof. destruct b; simpl; ring. Qed.

(** The quadratic form of a matrix with the entries [qubo_entry]. *)
Lemma quad_form_of_entries (w : Weights) (Cs Ps Es : list Q) (B K M : Q)
    (Qm : matrix) (x : list bool) :
  (∀ i j, entry Qm i j == qubo_entry w Cs Ps Es B K M (length x) i j) →
  quad_form Qm x
  == penalised_objective w Cs Ps Es B K M x
     + w_theta w * (dot Cs x ^ 2 - dot2 Cs x)
     + w_mu w * (ones x ^ 2 - ones x)
     + w_lambda w * (dot Ps x ^ 2 - dot2 Ps x)
     - offset_term w B K M * (1 - b2q (bit x 0)).
Proof.
  intros He. unfold quad_form, penalised_objective, dot, dot2, ones.
  set (n := length x).
  set (SC := sumQ ((fun i => item Cs i * b2q (bit x i)) <$> seq 0 n)).
  set (SP := sumQ ((fun i => item Ps i * b2q (bit x i)) <$> seq 0 n)).
  set (SE := sumQ ((fun i => item Es i * b2q (bit x i)) <$> seq 0 n)).
  set (N := sumQ ((fun i => b2q (bit x i)) <$> seq 0 n)).
  set (SC2 := sumQ ((fun i => item Cs i ^ 2 * b2q (bit x i)) <$> seq 0 n)).
  set (SP2 := sumQ ((fun i => item Ps i ^ 2 * b2q (bit x i)) <$> seq 0 n)).
  assert (∀ i, i ∈ seq 0 n →
            sumQ ((fun j => entry Qm i j * b2q (bit x i) * b2q (bit x j)) <$> seq 0 n)
            == (2 * w_theta w * SC) * (item Cs i * b2q (bit x i))
               + ((2 * w_mu w * N) * b2q (bit x i)
                  + ((2 * w_lambda w * SP) * (item Ps i * b2q (bit x i))
                     + ((diag_term w Cs Ps Es B K M i - cross_term w Cs Ps i i)
                          * b2q (bit x i)
                        + (if (i =? 0)%nat then offset_term w B K M * b2q (bit x i)
                           else 0))))) as Hrow.
  { intros i Hi. apply elem_of_seq in Hi.
    rewrite (sumQ_ext _ (fun j =>
      (2 * w_theta w * (item Cs i * b2q (bit x i))) * (item Cs j * b2q (bit x j))
      + ((2 * w_mu w * b2q (bit x i)) * b2q (bit x j)
         + ((2 * w_lambda w * (item Ps i * b2q (bit x i))) * (item Ps j * b2q (bit x j))
            + (if (j =? i)%nat
               then (diag_term w Cs Ps Es B K M j - cross_term w Cs Ps j j
                     + (if (i =? 0)%nat then offset_term w B K M else 0)) * b2q (bit x j)
               else 0))))).
    - rewrite !sumQ_add, !sumQ_mul, sumQ_single. fold SC SP N.
      destruct (Nat.ltb_spec i n); [|lia].
      destruct (i =? 0)%nat; ring.
    - intros j Hj. apply elem_of_seq in Hj. rewrite He. unfold qubo_entry. fold n.
      destruct (Nat.ltb_spec i n), (Nat.ltb_spec j n); try lia. simpl.
      destruct (Nat.eqb_spec i j) as [->|Hij].
      + rewrite Nat.eqb_refl. simpl. rewrite andb_diag.
        unfold cross_term.
        destruct (bit x j), (j =? 0)%nat; cbn [b2q]; ring.
      + destruct (Nat.eqb_spec j i) as [->|_]; [done|].
        assert ((i =? 0)%nat && (j =? 0)%nat = false) as ->.
        { destruct (Nat.eqb_spec i 0), (Nat.eqb_spec j 0); subst; simpl; try done. }
        unfold cross_term. ring. }
  rewrite (sumQ_ext _ _ _ Hrow).
  rewrite !sumQ_add, !sumQ_mul. fold SC SP N.
  rewrite (sumQ_ext
             (fun i => (diag_term w Cs Ps Es B K M i - cross_term w Cs Ps i i)
                       * b2q (bit x i))
             (fun i => (1 - 2 * w_theta w * B) * (item Cs i * b2q (bit x i))
                       + ((- w_alpha w - 2 * w_lambda w * M) * (item Ps i * b2q (bit x i))
                          + ((- w_gamma w) * (item Es i * b2q (bit x i))
                             + ((- w_theta w) * (item Cs i ^ 2 * b2q (bit x i))
                                + ((- w_lambda w) * (item Ps i ^ 2 * b2q (bit x i))
                                   + (w_mu w * (1 - 2 * K) - 2 * w_mu w)
                                     * b2q (bit x i)))))))
    by (intros i _; unfold diag_term, cross_term; ring).
  rewrite !sumQ_add, !sumQ_mul. fold SC SP SE N SC2 SP2.
  rewrite (sumQ_single (fun i => offset_term w B K M * b2q (bit x i)) 0 n).
  assert ((if (0 <? n)%nat then offset_term w B K M * b2q (bit x 0) else 0)
          == offset_term w B K M * b2q (bit x 0)) as ->.
  { destruct (Nat.ltb_spec 0 n) as [_|Hn]; [reflexivity|].
    assert (x = []) as -> by (apply nil_length_inv; fold n; lia).
    simpl. ring. }
  unfold offset_term. ring.
Qed.

(** The quadratic forms of the two builders: the objective with its
    penalties, plus each cross term once more, minus the constant unless
    candidate 0 is selected. *)
Lemma mesh_quad_form Cs Ps B K M (x : list bool) :
  length x = length Cs →
  quad_form (MeshApi.build_qubo Cs Ps B K M) x
  == penalised_objective mesh_weights Cs Ps [] B K M x
     + w_theta mesh_weights * (dot Cs x ^ 2 - dot2 Cs x)
     + w_mu mesh_weights * (ones x ^ 2 - ones x)
     + w_lambda mesh_weights * (dot Ps x ^ 2 - dot2 Ps x)
     - offset_term mesh_weights B K M * (1 - b2q (bit x 0)).
Proof.
  intros Hn. apply quad_form_of_entries. intros i j. rewrite Hn. apply mesh_qubo_entry.
Qed.

Lemma site_quad_form Cs Ps Es B K M (x : list bool) :
  length x = length Cs →
  quad_form (SiteApi.build_qubo Cs Ps Es B K M) x
  == penalised_objective site_weights Cs Ps Es B K M x
     + w_theta site_weights * (dot Cs x ^ 2 - dot2 Cs x)
     + w_mu site_weights * (ones x ^ 2 - ones x)
     + w_lambda site_weights * (dot Ps x ^ 2 - dot2 Ps x)
     - offset_term site_weights B K M * (1 - b2q (bit x 0)).
Proof.
  intros Hn. apply quad_form_of_entries. intros i j. rewrite Hn. apply site_qubo_entry.
Qed.



(** C1.  On the mesh-mode problem [two_cells], the quadratic form of the
    matrix that the handler builds is 233018 at [[1, 1]] and 0 at [[0, 0]],
    whereas the objective with its three squared penalties is 29018 and
    629000 there; on the dataset-mode problem [two_sites] the two differ at
    [[1, 1]] and at [[0, 0]] as well. *)
Theorem quadratic_form_is_not_penalised_objective :
  quad_form two_cells_Q [true; true] == 233018
  ∧ penalised_objective mesh_weights [10; 10] [1; 1] [5; 5] 25 2 0 [true; true] == 29018
  ∧ quad_form two_cells_Q [false; false] == 0
  ∧ penalised_objective mesh_weights [10; 10] [1; 1] [5; 5] 25 2 0 [false; false] == 629000
  ∧ ¬ quad_form two_sites_Q [true; true]
      == penalised_objective site_weights [20000; 20000] [1000; 1000] [1500; 1500]
           100000 10 15000 [true; true]
  ∧ ¬ quad_form two_sites_Q [false; false]
      == penalised_objective site_weights [20000; 20000] [1000; 1000] [1500; 1500]
           100000 10 15000 [false; false].
Proof.
  split_and!; try (vm_compute; reflexivity); intros E; vm_compute in E; discriminate E.
Qed.

(** *** The request handlers *)

Lemma site_defective_invalid req :
  defective (SiteApi.polygon req) (SiteApi.budget req) (SiteApi.popCenter req) →
  SiteApi.invalid req = true.
Proof.
  unfold defective, SiteApi.invalid. intros [Hp|[Hb|Hc]].
  - destruct (SiteApi.polygon req) as [p|]; [|done].
    destruct (Nat.eqb_spec (length p) 4); [done|done].
  - destruct (SiteApi.polygon req) as [p|]; [|done].
    destruct (negb _); [done|]. simpl.
    destruct (SiteApi.budget req) as [b|]; [|done].
    apply Qleb_le in Hb. rewrite Hb. by rewrite orb_true_r.
  - rewrite Hc. by rewrite orb_true_r.
Qed.

Lemma mesh_defective_invalid req :
  defective (MeshApi.polygon req) (MeshApi.budget req) (MeshApi.popCenter req) →
  MeshApi.invalid req = true.
Proof.
  unfold defective, MeshApi.invalid. intros [Hp|[Hb|Hc]].
  - destruct (MeshApi.polygon req) as [p|]; [|done].
    destruct (Nat.eqb_spec (length p) 4); [done|done].
  - destruct (MeshApi.polygon req) as [p|]; [|done].
    destruct (negb _); [done|]. simpl.
    destruct (MeshApi.budget req) as [b|]; [|done].
    apply Qleb_le in Hb. rewrite Hb. by rewrite orb_true_r.
  - rewrite Hc. by rewrite orb_true_r.
Qed.

(** C8.  A request whose polygon is missing or has not exactly 4 vertices,
    or whose budget is missing or not positive, or whose population centre
    is missing, is answered by either handler with status 400 and the error
    [Invalid input], and with an empty log: no stage of work was started. *)
Theorem invalid_request_rejected_at_once :
  (∀ (RT : Runtime) ethiopiaSites req rnd,
     defective (SiteApi.polygon req) (SiteApi.budget req) (SiteApi.popCenter req) →
     SiteApi.handler ethiopiaSites req rnd = (BadRequest "Invalid input", []))
  ∧ (∀ (RT : Runtime) req rnd,
       defective (MeshApi.polygon req) (MeshApi.budget req) (MeshApi.popCenter req) →
       MeshApi.handler req rnd = (BadRequest "Invalid input", [])).
Proof.
  split.
  - intros RT sites req rnd Hd. unfold SiteApi.handler.
    by rewrite (site_defective_invalid req Hd).
  - intros RT req rnd Hd. unfold MeshApi.handler.
    by rewrite (mesh_defective_invalid req Hd).
Qed.

Lemma invalid_request_rejected_at_once_witness :
  @SiteApi.handler barren_runtime [site_at 38 9] (site_request (Some 0)) idle_draws
    = (BadRequest "Invalid input", [])
  ∧ @MeshApi.handler barren_runtime (mesh_request None) idle_draws
    = (BadRequest "Invalid input", []).
Proof.
  split.
  - apply (proj1 invalid_request_rejected_at_once).
    right. left. simpl. discriminate.
  - apply (proj2 invalid_request_rejected_at_once).
    right. left. exact I.
Defined.

(** C9.  When a request passes the guard and the generation of candidates
    yields none, either handler answers with status 200 and an empty list of
    grids, and its log holds the generation stage only: no solver was
    run. *)
Theorem no_candidates_no_solver :
  (∀ (RT : Runtime) ethiopiaSites req rnd,
     SiteApi.invalid req = false →
     SiteApi.candidates_in ethiopiaSites
       (closed_ring (default [] (SiteApi.polygon req)))
       (default {| lat := 0; lng := 0 |} (SiteApi.popCenter req)) = [] →
     ∃ log, SiteApi.handler ethiopiaSites req rnd = (OkGrids [], log)
            ∧ log = [GenerateCandidates] ∧ ∀ s, s ∈ log → ¬ solver_stage s)
  ∧ (∀ (RT : Runtime) req rnd,
       MeshApi.invalid req = false →
       (let budget := default 0 (MeshApi.budget req) in
        let cs := default {| MeshApi.price := 0; MeshApi.cell_energy := 0 |}
                          (MeshApi.cellSize req) in
        MeshApi.mesh (closed_ring (default [] (MeshApi.polygon req)))
          (default {| lat := 0; lng := 0 |} (MeshApi.popCenter req)) cs
          (MeshApi.steps budget cs)) = [] →
       ∃ log, MeshApi.handler req rnd = (OkGrids [], log)
              ∧ log = [GenerateCandidates] ∧ ∀ s, s ∈ log → ¬ solver_stage s).
Proof.
  assert (∀ s, s ∈ [GenerateCandidates] → ¬ solver_stage s) as Hlog.
  { intros s Hs. apply list_elem_of_singleton in Hs as ->.
    intros [?|[?|?]]; discriminate. }
  split.
  - intros RT sites req rnd Hv Hnone. exists [GenerateCandidates].
    split; [|by split]. unfold SiteApi.handler. rewrite Hv, Hnone. reflexivity.
  - intros RT req rnd Hv Hnone. exists [GenerateCandidates].
    split; [|by split]. unfold MeshApi.handler. rewrite Hv.
    cbv zeta in Hnone. rewrite Hnone. reflexivity.
Qed.

Lemma no_candidates_no_solver_witness :
  (∃ log, @SiteApi.handler barren_runtime [site_at 38 9] (site_request (Some 100000))
            idle_draws = (OkGrids [], log)
          ∧ log = [GenerateCandidates] ∧ ∀ s, s ∈ log → ¬ solver_stage s)
  ∧ (∃ log, @MeshApi.handler barren_runtime (mesh_request (Some 25)) idle_draws
            = (OkGrids [], log)
            ∧ log = [GenerateCandidates] ∧ ∀ s, s ∈ log → ¬ solver_stage s).
Proof.
  split.
  - apply (proj1 no_candidates_no_solver barren_runtime); reflexivity.
  - apply (proj2 no_candidates_no_solver barren_runtime); reflexivity.
Defined.

(** *** The bridges to the external solvers *)

Section ScanFacts.
Context `{Runtime}.

(** The scan of the quantum bridge returns the value of the last line
    that parses: lines after it that do not parse are skipped. *)
Lemma scan_skips (before after : list string) (l : string) (v : json) :
  JSON_parse l = Some v →
  Forall (fun l' => JSON_parse l' = None) after →
  QuantumApi.scan (reverse (before ++ l :: after)) = Some v.
Proof.
  intros Hl Hafter. rewrite reverse_app, reverse_cons, <- app_assoc. simpl.
  apply Forall_reverse in Hafter.
  induction (reverse after) as [|l' ls IH]; simpl.
  - by rewrite Hl.
  - apply Forall_cons in Hafter as [-> Hafter]. by apply IH.
Qed.

(** The scan stops at the last line that parses, whatever its value: a
    later line of logging that happens to be JSON text, a bare number say,
    is taken for the result. *)
Lemma scan_takes_last_json (before : list string) (l : string) (v : json) :
  JSON_parse l = Some v →
  QuantumApi.scan (reverse (before ++ [l])) = Some v.
Proof. intros Hl. by apply (scan_skips before [] l v). Qed.

(** The Gurobi bridge parses the last line only. *)
Lemma gurobi_reads_last_line {C} `{Priced C} (candidates : list C) (r : ProcResult) :
  status r = Some 0%Z →
  JSON_parse (last_line (stdout r)) = None →
  gurobi_read candidates r = Throws SyntaxError.
Proof. intros Hs Hp. unfold gurobi_read. by rewrite Hs, Hp. Qed.
End ScanFacts.

(** C5.  Let the process exit with status 0 after printing a result record
    followed by a line of logging, where the runtime parses the record and
    rejects the logging line.  The quantum bridge finds the record and
    answers with the selected candidate; the Gurobi bridge reads the last
    line only and fails with a SyntaxError, which the handler turns into a
    status 500. *)
Theorem gurobi_bridge_fails_on_trailing_log :
  ∀ (RT : Runtime) (candidates : list MeshApi.Cell) (c : json) (cs : list json)
    (Qm : matrix) (budget : Q) (elapsed : Z),
    JSON_parse record_line = Some record_value →
    JSON_parse log_line = None →
    spawn_gurobi Qm (prop_cost <$> candidates) budget
      = {| status := Some 0%Z; stdout := chatty_stdout; stderr := EmptyString |} →
    QuantumApi.on_close (c :: cs) (Some 0%Z) chatty_stdout elapsed
      = QuantumApi.Ok [Some c] elapsed record_value
    ∧ gurobiQUBOBudget Qm candidates budget
      = Throws (Prefixed "Gurobi optimization failed: " SyntaxError).
Proof.
  intros RT candidates c cs Qm budget elapsed Hrec Hlog Hspawn. split.
  - unfold QuantumApi.on_close, QuantumApi.last_valid_json.
    change (split_lines (trim chatty_stdout)) with ([] ++ record_line :: [log_line]).
    rewrite (scan_skips [] [log_line] record_line record_value Hrec)
      by (by repeat constructor).
    reflexivity.
  - unfold gurobiQUBOBudget. rewrite Hspawn.
    rewrite gurobi_reads_last_line; [done|done|exact Hlog].
Qed.

Lemma gurobi_bridge_fails_on_trailing_log_witness :
  @QuantumApi.on_close chatty_runtime [JNum 7; JNum 8] (Some 0%Z) chatty_stdout 12
    = QuantumApi.Ok [Some (JNum 7)] 12 record_value
  ∧ @gurobiQUBOBudget chatty_runtime _ _ two_cells_Q two_cells 25
    = Throws (Prefixed "Gurobi optimization failed: " SyntaxError).
Proof.
  apply (gurobi_bridge_fails_on_trailing_log chatty_runtime); reflexivity.
Defined.

(** *** Downsampling *)

(** [downsample_step n] is the ceiling of [n / 1000]. *)
Lemma downsample_step_ceiling n :
  (n <= downsample_step n * 1000 ∧ downsample_step n * 1000 < n + 1000)%nat.
Proof.
  unfold downsample_step.
  change (inject_Z (Z.of_nat maxCandidates)) with (1000 # 1).
  unfold Qceiling, Qfloor, Qdiv, Qinv, Qmult, Qopp, inject_Z. simpl.
  change (Z.pos (1 * 1000)) with 1000%Z.
  pose proof (Z.div_mod (- (Z.of_nat n * 1)) 1000 ltac:(lia)) as Hdm.
  pose proof (Z.mod_pos_bound (- (Z.of_nat n * 1)) 1000 ltac:(lia)) as Hr.
  revert Hdm Hr.
  generalize ((- (Z.of_nat n * 1)) `div` 1000)%Z ((- (Z.of_nat n * 1)) `mod` 1000)%Z.
  intros q r Hdm Hr. lia.
Qed.

(** Keeping the indices that are multiples of [k] keeps every [k]-th
    element: when the next multiple of [k] is [r] places ahead, the element
    at position [i] of the result is the one at position [r + i * k]. *)
Lemma filter_from_stride {A} (k : nat) (l : list A) : ∀ s r q i,
  (0 < k)%nat → (r < k)%nat → (s + r = q * k)%nat →
  filter_from (fun p => (p mod k =? 0)%nat) s l !! i = l !! (r + i * k)%nat.
Proof.
  induction l as [|a l IH]; intros s r q i Hk Hr Hq; simpl.
  - by rewrite !lookup_nil.
  - destruct r as [|r].
    + assert (s mod k = 0)%nat as ->
        by (rewrite Nat.add_0_r in Hq; subst s; apply Nat.Div0.mod_mul).
      simpl. destruct i as [|i]; [done|].
      simpl. destruct k as [|[|k]]; [lia| |].
      * rewrite (IH (S s) 0%nat (S s) i); [f_equal; lia|lia|lia|lia].
      * rewrite (IH (S s) (S k) (S q) i); [f_equal; lia|lia|lia|lia].
    + assert (s mod k ≠ 0)%nat as Hs.
      { assert (1 <= q)%nat as Hq1 by (destruct q; [lia|lia]).
        assert (k - S r = s mod k)%nat as <-; [|lia].
        apply (Nat.mod_unique s k (q - 1)); [lia|].
        destruct q as [|q']; [lia|]. simpl. rewrite Nat.sub_0_r. nia. }
      destruct (Nat.eqb_spec (s mod k) 0) as [?|_]; [done|].
      rewrite (IH (S s) r q i); [done|lia|lia|lia].
Qed.

Lemma reduced_lookup {A} (candidates : list A) i :
  (maxCandidates < length candidates)%nat →
  reducedCandidates candidates !! i
  = candidates !! (i * downsample_step (length candidates))%nat.
Proof.
  intros Hn. unfold reducedCandidates.
  pose proof (downsample_step_ceiling (length candidates)) as [Hlo Hhi].
  set (k := downsample_step (length candidates)) in *.
  assert (0 < k)%nat as Hk by (unfold maxCandidates in Hn; lia).
  destruct (le_lt_dec maxCandidates i) as [Hi|Hi].
  - rewrite lookup_take_ge by done. symmetry. apply lookup_ge_None.
    unfold maxCandidates in Hi. nia.
  - rewrite lookup_take_lt by done.
    by rewrite (filter_from_stride k candidates 0 0 0 i Hk Hk eq_refl).
Qed.

Lemma reduced_length {A} (candidates : list A) :
  (length (reducedCandidates candidates) <= maxCandidates)%nat.
Proof. unfold reducedCandidates. rewrite length_take. lia. Qed.

Lemma reducedQ_entry {A} (Qm : matrix) (candidates : list A) i j :
  (i < length (reducedCandidates candidates))%nat →
  (j < length (reducedCandidates candidates))%nat →
  entry (reducedQ Qm candidates) i j
  = entry Qm (i * downsample_step (length candidates))
             (j * downsample_step (length candidates)).
Proof.
  intros Hi Hj. unfold reducedQ, entry at 1.
  rewrite list_lookup_imap.
  destruct (lookup_lt_is_Some_2 _ _ Hi) as [c ->]. simpl.
  rewrite list_lookup_imap.
  by destruct (lookup_lt_is_Some_2 _ _ Hj) as [c' ->].
Qed.

Lemma reducedQ_square {A} (Qm : matrix) (candidates : list A) :
  square (length (reducedCandidates candidates)) (reducedQ Qm candidates).
Proof.
  unfold reducedQ, square. split; [by rewrite length_imap|].
  apply Forall_forall. intros row Hrow.
  apply list_elem_of_lookup in Hrow as [i Hrow].
  rewrite list_lookup_imap in Hrow.
  destruct (reducedCandidates candidates !! i); [|done].
  injection Hrow as <-. by rewrite length_imap.
Qed.




(** ** Part III: further properties of the code *)

(** *** Selection vectors *)

Lemma map_indices_length {A B} (f : nat → result B) (l : list A) : ∀ i bs,
  map_indices f i l = Returns bs → length bs = length l.
Proof.
  induction l as [|a l IH]; intros i bs; simpl.
  - by intros [= <-].
  - destruct (f i) as [b|e]; [|done].
    destruct (map_indices f (S i) l) as [bs'|e] eqn:E; [|done].
    intros [= <-]. simpl. f_equal. by eapply IH.
Qed.

Lemma sa_step_lengths {C} `{Priced C} Qm n (candidates : list C) budget alpha d s :
  length (sa_x s) = n → length (sa_bestX s) = n →
  length (sa_x (sa_step Qm n candidates budget alpha d s)) = n
  ∧ length (sa_bestX (sa_step Qm n candidates budget alpha d s)) = n.
Proof.
  intros Hx Hb. unfold sa_step.
  destruct (_ || _); [destruct (below_best _ _)|]; simpl; rewrite ?length_alter; done.
Qed.

Lemma sa_loop_lengths {C} `{Priced C} Qm n (candidates : list C) budget alpha rnd todo :
  ∀ iter s,
  length (sa_x s) = n → length (sa_bestX s) = n →
  length (sa_bestX (sa_loop Qm n candidates budget alpha rnd todo iter s)) = n.
Proof.
  induction todo as [|todo IH]; intros iter s Hx Hb; simpl; [done|].
  destruct (sa_step_lengths Qm n candidates budget alpha (rnd iter) s Hx Hb) as [Hx' Hb'].
  destruct (Qltb _ _); [done|]. by apply IH.
Qed.

Lemma greedy_length {C} `{Priced C} Qm (candidates : list C) budget :
  length (narGreedyBudget Qm candidates budget) = length candidates.
Proof. unfold narGreedyBudget. destruct (foldl _ _ _). apply length_imap. Qed.

(** X1.  Each solver returns a vector with one entry per candidate: the
    greedy solver always, the annealer whenever every index that it draws
    is one of a candidate (as [Math.floor(Math.random() * n)] is for
    [n > 0]), the Gurobi bridge whenever it returns at all. *)
Theorem selection_vector_length :
  ∀ (RT : Runtime) (C : Type) (P : Priced C) (Qm : matrix) (candidates : list C)
    (budget : Q),
    length (narGreedyBudget Qm candidates budget) = length candidates
    ∧ (∀ maxIter T0 alpha rnd,
         (∀ k, (pick (rnd k) < length candidates)%nat) →
         length (simulatedAnnealingQUBO Qm (length candidates) candidates budget
                   maxIter T0 alpha rnd) = length candidates)
    ∧ (∀ x, gurobiQUBOBudget Qm candidates budget = Returns x →
            length x = length candidates).
Proof.
  intros RT C P Qm candidates budget. split_and!.
  - unfold narGreedyBudget. destruct (foldl _ _ _). apply length_imap.
  - intros maxIter T0 alpha rnd _.
    unfold simulatedAnnealingQUBO. apply sa_loop_lengths; apply length_replicate.
  - intros x Hx. unfold gurobiQUBOBudget in Hx.
    destruct (gurobi_read _ _) as [x'|e] eqn:E; [|done]. injection Hx as <-.
    unfold gurobi_read in E.
    destruct (status _) as [[| |]|]; try done.
    destruct (JSON_parse _); [|done]. by eapply map_indices_length.
Qed.

Lemma selection_vector_length_witness :
  length [true; false] = length two_cells.
Proof.
  apply (selection_vector_length tidy_runtime MeshApi.Cell _ two_cells_Q two_cells 25).
  reflexivity.
Defined.

(** *** The annealer *)

(** X2.  For a budget other than 0, the answer of the annealer has at most
    the energy of the current vector of every state of the run in which a
    move had already been accepted; and when no move is ever accepted the
    answer is the initial all-zero vector. *)
Theorem annealing_answer_is_best_accepted :
  ∀ (C : Type) (P : Priced C) (Qm : matrix) (n : nat) (candidates : list C)
    (budget alpha : Q) (rnd : nat → draw) (maxIter : nat) (T0 : Q),
    ¬ budget == 0 →
    let answer := simulatedAnnealingQUBO Qm n candidates budget maxIter T0 alpha rnd in
    let states := sa_states Qm n candidates budget alpha rnd maxIter 0 (sa_init n T0) in
    (∀ s, s ∈ states → sa_bestE s ≠ None →
       energy Qm n candidates budget answer <= energy Qm n candidates budget (sa_x s))
    ∧ ((∀ s, s ∈ states → sa_bestE s = None) → answer = replicate n false).
Proof.
  intros C P Qm n candidates budget alpha rnd maxIter T0 _.
  apply annealing_answer_below_accepted_states.
Qed.

Lemma annealing_answer_is_best_accepted_witness :
  energy unit_Q 2 unit_cells 10
    (simulatedAnnealingQUBO unit_Q 2 unit_cells 10 3 20 (999 # 1000) stuck_draws)
  <= energy unit_Q 2 unit_cells 10
       (sa_x (sa_step unit_Q 2 unit_cells 10 (999 # 1000) (stuck_draws 0) (sa_init 2 20))).
Proof.
  assert (¬ 10 == 0) as Hbudget by discriminate.
  apply (proj1 (annealing_answer_is_best_accepted MeshApi.Cell _ unit_Q 2 unit_cells 10
                  (999 # 1000) stuck_draws 3 20 Hbudget)).
  - left.
  - discriminate.
Defined.

Section AnnealerOrder.
Context {C : Type} `{Priced C}.
Variables (Qm : matrix) (n : nat) (candidates : list C) (budget alpha : Q)
          (rnd : nat → draw).

Lemma sa_states_improve todo : ∀ iter s s',
  sa_inv Qm n candidates budget s →
  s' ∈ sa_states Qm n candidates budget alpha rnd todo iter s →
  sa_inv Qm n candidates budget s' ∧ improves s' s.
Proof.
  induction todo as [|todo IH]; intros iter s s' Hinv; simpl.
  - intros Hs'. by apply elem_of_nil in Hs'.
  - destruct (sa_step_inv Qm n candidates budget alpha (rnd iter) s Hinv) as [Hinv' Hle].
    destruct (Qltb _ _).
    + intros Hs'. apply list_elem_of_singleton in Hs' as ->. by split.
    + intros Hs'. apply elem_of_cons in Hs' as [->|Hs']; [by split|].
      destruct (IH _ _ _ Hinv' Hs') as [Hi Himp]. split; [done|].
      unfold improves in *. by eapply best_le_trans.
Qed.

Lemma sa_states_ordered todo : ∀ iter s i j si sj,
  sa_inv Qm n candidates budget s →
  sa_states Qm n candidates budget alpha rnd todo iter s !! i = Some si →
  sa_states Qm n candidates budget alpha rnd todo iter s !! j = Some sj →
  (i <= j)%nat → improves sj si.
Proof.
  induction todo as [|todo IH]; intros iter s i j si sj Hinv; simpl.
  - by rewrite lookup_nil.
  - destruct (sa_step_inv Qm n candidates budget alpha (rnd iter) s Hinv) as [Hinv' _].
    destruct (Qltb _ _).
    + intros Hi Hj _. apply list_lookup_singleton_Some in Hi as [_ <-].
      apply list_lookup_singleton_Some in Hj as [_ <-]. apply best_le_refl.
    + intros Hi Hj Hij. destruct i as [|i], j as [|j]; simpl in Hi, Hj; try lia.
      * injection Hi as <-. injection Hj as <-. apply best_le_refl.
      * injection Hi as <-.
        eapply sa_states_improve; [exact Hinv'|]. by eapply list_elem_of_lookup_2.
      * eapply IH; [exact Hinv'|exact Hi|exact Hj|lia].
Qed.
End AnnealerOrder.

(** X3.  Along a run of the annealer, for a budget other than 0, the best
    energy never increases: the best energy of a later state is at most that
    of an earlier one (no best energy yet counting as infinite). *)
Theorem annealing_best_energy_never_increases :
  ∀ (C : Type) (P : Priced C) (Qm : matrix) (n : nat) (candidates : list C)
    (budget alpha : Q) (rnd : nat → draw) (maxIter : nat) (T0 : Q)
    (i j : nat) (si sj : sa_state),
    ¬ budget == 0 →
    sa_states Qm n candidates budget alpha rnd maxIter 0 (sa_init n T0) !! i = Some si →
    sa_states Qm n candidates budget alpha rnd maxIter 0 (sa_init n T0) !! j = Some sj →
    (i <= j)%nat →
    improves sj si.
Proof.
  intros C P Qm n candidates budget alpha rnd maxIter T0 i j si sj _ Hi Hj Hij.
  eapply sa_states_ordered; [apply sa_init_inv|exact Hi|exact Hj|exact Hij].
Qed.

Lemma annealing_best_energy_never_increases_witness :
  improves
    (sa_step unit_Q 2 unit_cells 10 (999 # 1000) (stuck_draws 1)
       (sa_step unit_Q 2 unit_cells 10 (999 # 1000) (stuck_draws 0) (sa_init 2 20)))
    (sa_step unit_Q 2 unit_cells 10 (999 # 1000) (stuck_draws 0) (sa_init 2 20)).
Proof.
  apply (annealing_best_energy_never_increases MeshApi.Cell _ unit_Q 2 unit_cells 10
           (999 # 1000) stuck_draws 3 20 0 1); [discriminate|reflexivity|reflexivity|lia].
Defined.

Section EnergyFacts.
Context {C : Type} `{Priced C}.

Lemma cost_sum_prefix (candidates : list C) (x : list bool) (m : nat) :
  (∀ c, c ∈ candidates → ∃ k, prop_cost c = Some k) →
  (m <= length candidates)%nat →
  ∃ c, for_range m (fun cost i => if bit x i then nadd cost (cost_at candidates i)
                                  else cost) (Some 0) = Some c
       ∧ c == sumQ (costq candidates <$> filter (fun i => bit x i) (seq 0 m)).
Proof.
  intros Hc. induction m as [|m IH]; intros Hm.
  - exists 0. split; reflexivity.
  - destruct IH as (c & Hfold & Hsum); [lia|].
    rewrite for_range_S, Hfold.
    destruct (lookup_lt_is_Some_2 candidates m) as [cand Hcand]; [lia|].
    destruct (Hc cand) as [k Hk]; [by eapply list_elem_of_lookup_2|].
    assert (cost_at candidates m = Some k) as Hcost
      by (unfold cost_at; by rewrite Hcand).
    destruct (bit x m) eqn:Hbit.
    + rewrite Hcost. exists (c + k). split; [done|].
      rewrite seq_S, filter_app, fmap_app, sumQ_app. simpl.
      rewrite filter_cons_True by (by rewrite Hbit).
      rewrite filter_nil, fmap_cons, sumQ_cons.
      unfold costq at 2. rewrite Hcost. simpl. rewrite Hsum. ring.
    + exists c. split; [done|].
      rewrite seq_S, filter_app, fmap_app, sumQ_app. simpl.
      rewrite filter_cons_False by (rewrite Hbit; intros []).
      rewrite filter_nil. simpl. rewrite Hsum. ring.
Qed.

Lemma cost_sum_is_selection_cost (candidates : list C) (x : list bool) :
  (∀ c, c ∈ candidates → ∃ k, prop_cost c = Some k) →
  ∃ c, cost_sum candidates (length candidates) x = Some c
       ∧ c == selection_cost candidates x.
Proof. intros Hc. by apply cost_sum_prefix. Qed.
End EnergyFacts.

Lemma Qltb_proper (a b c : Q) : b == c → Qltb a b = Qltb a c.
Proof.
  intros E. destruct (Qltb a c) eqn:Hc.
  - apply Qltb_lt. apply Qltb_lt in Hc. by rewrite E.
  - apply Qltb_ge. apply Qltb_ge in Hc. by rewrite E.
Qed.

(** X4.  For candidates that all have a cost and a budget other than 0,
    the energy that the annealer minimises is the quadratic form of the
    matrix when the selected candidates cost at most the budget, and the
    quadratic form plus [10000 / budget] times the square of the excess when
    they cost more. *)
Theorem energy_is_quadratic_form_plus_penalty :
  ∀ (C : Type) (P : Priced C) (Qm : matrix) (candidates : list C) (budget : Q)
    (x : list bool),
    ¬ budget == 0 →
    (∀ c, c ∈ candidates → ∃ k, prop_cost c = Some k) →
    length x = length candidates →
    (selection_cost candidates x <= budget →
       energy Qm (length candidates) candidates budget x == quad_form Qm x)
    ∧ (budget < selection_cost candidates x →
         energy Qm (length candidates) candidates budget x
         == quad_form Qm x
            + 10000 / budget * (selection_cost candidates x - budget) ^ 2).
Proof.
  intros C P Qm candidates budget x _ Hc Hlen.
  rewrite (energy_quad_form Qm (length candidates) candidates budget x Hlen).
  destruct (cost_sum_is_selection_cost candidates x Hc) as (c & -> & Hsum).
  unfold over_budget_penalty. rewrite (Qltb_proper budget _ _ Hsum).
  split; intros Hcmp.
  - apply Qltb_ge in Hcmp. rewrite Hcmp. ring.
  - apply Qltb_lt in Hcmp. rewrite Hcmp. rewrite Hsum. reflexivity.
Qed.

Lemma energy_is_quadratic_form_plus_penalty_witness :
  (selection_cost two_cells [true; true] <= 25 →
     energy two_cells_Q (length two_cells) two_cells 25 [true; true]
     == quad_form two_cells_Q [true; true])
  ∧ (25 < selection_cost two_cells [true; true] →
       energy two_cells_Q (length two_cells) two_cells 25 [true; true]
       == quad_form two_cells_Q [true; true]
          + 10000 / 25 * (selection_cost two_cells [true; true] - 25) ^ 2).
Proof.
  apply (energy_is_quadratic_form_plus_penalty MeshApi.Cell _ two_cells_Q two_cells 25
           [true; true]).
  - discriminate.
  - intros c _. by exists (MeshApi.c_cost c).
  - reflexivity.
Defined.

Lemma site_cost_sum (candidates : list SiteApi.Candidate) (x : list bool) (n : nat) :
  cost_sum candidates n x = Some 0 ∨ cost_sum candidates n x = None.
Proof.
  unfold cost_sum. induction n as [|n IH]; [by left|].
  rewrite for_range_S.
  assert (cost_at candidates n = None) as ->
    by (unfold cost_at; by destruct (candidates !! n)).
  destruct (bit x n); [|done].
  right. by destruct IH as [->| ->].
Qed.

(** X5.  In dataset mode the budget plays no part in the annealer: the
    candidates are site objects without a [cost] property, the total cost is
    0 or [NaN], and the energy of every vector is the quadratic form
    alone. *)
Theorem dataset_energy_ignores_budget :
  ∀ (Qm : matrix) (candidates : list SiteApi.Candidate) (budget : Q) (x : list bool),
    0 <= budget →
    length x = length candidates →
    energy Qm (length candidates) candidates budget x == quad_form Qm x.
Proof.
  intros Qm candidates budget x HB Hlen.
  rewrite (energy_quad_form Qm (length candidates) candidates budget x Hlen).
  destruct (site_cost_sum candidates x (length candidates)) as [-> | ->]; simpl.
  - apply Qltb_ge in HB. rewrite HB. ring.
  - ring.
Qed.

Lemma dataset_energy_ignores_budget_witness :
  energy two_sites_Q (length two_sites) two_sites 1 [true; true]
  == quad_form two_sites_Q [true; true].
Proof.
  apply (dataset_energy_ignores_budget two_sites_Q two_sites 1 [true; true]).
  - discriminate.
  - reflexivity.
Defined.

(** *** The greedy solver on candidates of one kind *)

Lemma js_sort_sorted_input {A} (cmp : A → A → jsnum) (l : list A) :
  (∀ a b, a ∈ l → b ∈ l → jpos (cmp a b) = false) → js_sort cmp l = l.
Proof.
  induction l as [|a l IH]; intros Hcmp; simpl; [done|].
  rewrite IH by (intros x y Hx Hy; apply Hcmp; by right).
  destruct l as [|b l]; simpl; [done|].
  rewrite Hcmp; [done|left|right; left].
Qed.

Lemma jsub_self_not_positive (r : jsnum) : jpos (jsub r r) = false.
Proof.
  destruct r as [|s|q]; simpl; [done| |].
  - by rewrite Bool.eqb_reflx.
  - apply Qltb_ge. lra.
Qed.

Lemma count_succ (a : nat) :
  inject_Z (Z.of_nat (S a)) == inject_Z (Z.of_nat a) + 1.
Proof. rewrite Nat2Z.inj_succ. unfold Z.succ. rewrite inject_Z_plus. reflexivity. Qed.

Lemma count_le (a b : nat) :
  (a <= b)%nat → inject_Z (Z.of_nat a) <= inject_Z (Z.of_nat b).
Proof. intros Hab. rewrite <- Zle_Qle. lia. Qed.

Section UniformGreedy.
Context {C : Type} `{Priced C}.
Variables (candidates : list C) (c e budget : Q).
Hypothesis all_alike : uniform candidates c e.

Lemma uniform_cost_at i :
  (i < length candidates)%nat → cost_at candidates i = Some c.
Proof.
  intros Hi. unfold cost_at.
  destruct (lookup_lt_is_Some_2 candidates i Hi) as [x Hx]. rewrite Hx.
  apply all_alike. by eapply list_elem_of_lookup_2.
Qed.

Lemma uniform_ratio i :
  (i < length candidates)%nat → ratio candidates i = jdiv (Some e) (Some c).
Proof.
  intros Hi. unfold ratio.
  destruct (lookup_lt_is_Some_2 candidates i Hi) as [x Hx]. rewrite Hx.
  destruct (all_alike x) as [-> ->]; [by eapply list_elem_of_lookup_2|done].
Qed.

(** All ratios tie, so the sort leaves the list order. *)
Lemma uniform_order : greedy_order candidates = seq 0 (length candidates).
Proof.
  unfold greedy_order. rewrite index_list.
  apply js_sort_sorted_input. intros a b Ha Hb.
  apply elem_of_seq in Ha. apply elem_of_seq in Hb.
  rewrite !uniform_ratio by lia. apply jsub_self_not_positive.
Qed.

(** After the first [m] candidates the loop has selected the first [a] of
    them, where [a] more do not fit. *)
Lemma uniform_fold m :
  (m <= length candidates)%nat →
  ∃ a, (a <= m)%nat
       ∧ snd (foldl (greedy_step candidates budget) (0, []) (seq 0 m)) = seq 0 a
       ∧ fst (foldl (greedy_step candidates budget) (0, []) (seq 0 m))
         == inject_Z (Z.of_nat a) * c
       ∧ ((0 < a)%nat → inject_Z (Z.of_nat a) * c <= budget)
       ∧ ((a < m)%nat → ¬ inject_Z (Z.of_nat (S a)) * c <= budget).
Proof.
  induction m as [|m IH]; intros Hm.
  - exists 0%nat. change (inject_Z (Z.of_nat 0)) with 0. simpl.
    split_and!; [done|done|ring|lia|lia].
  - destruct IH as (a & Ham & Hsel & Htot & Hfit & Hstop); [lia|].
    rewrite seq_S, foldl_app. simpl.
    destruct (foldl (greedy_step candidates budget) (0, []) (seq 0 m))
      as [total selected] eqn:Efold.
    simpl in Hsel, Htot. subst selected.
    destruct (greedy_step_cases candidates budget total (seq 0 a) m)
      as [(k & Hk & Hle & ->)|[Hno ->]].
    + rewrite uniform_cost_at in Hk by lia. injection Hk as <-.
      assert (a = m) as ->.
      { destruct (decide (a = m)) as [|Hne]; [done|]. exfalso.
        apply Hstop; [lia|]. rewrite count_succ. rewrite Htot in Hle. lra. }
      exists (S m). cbn [fst snd]. split_and!.
      * done.
      * by rewrite seq_S.
      * rewrite count_succ, Htot. ring.
      * intros _. rewrite count_succ. rewrite Htot in Hle. lra.
      * lia.
    + exists a. cbn [fst snd]. split_and!; [lia|done|done|done|].
      intros _. intros Hfits. apply (Hno c); [apply uniform_cost_at; lia|].
      rewrite Htot. rewrite count_succ in Hfits. lra.
Qed.
End UniformGreedy.

Lemma uniform_greedy_selects {C} `{Priced C} (Qm : matrix) (candidates : list C)
    (c e budget : Q) (i : nat) :
  uniform candidates c e → 0 <= c →
  (bit (narGreedyBudget Qm candidates budget) i = true
   ↔ (i < length candidates)%nat ∧ inject_Z (Z.of_nat (S i)) * c <= budget).
Proof.
  intros Hu Hc.
  destruct (le_lt_dec (length candidates) i) as [Hge|Hlt].
  - split; [|lia]. intros Hbit. exfalso. unfold bit in Hbit.
    rewrite lookup_ge_None_2 in Hbit; [done|].
    by rewrite greedy_length.
  - rewrite (greedy_bit candidates budget Qm i Hlt).
    rewrite (uniform_order candidates c e Hu).
    destruct (uniform_fold candidates c e budget Hu (length candidates))
      as (a & Han & -> & _ & Hfit & Hstop); [done|].
    rewrite elem_of_seq. split.
    + intros [_ Hia]. split; [done|].
      pose proof (count_le (S i) a ltac:(lia)) as Hcnt.
      apply Qle_trans with (inject_Z (Z.of_nat a) * c); [|apply Hfit; lia].
      by apply Qmult_le_compat_r.
    + intros [_ Hfits]. split; [lia|].
      destruct (le_lt_dec a i) as [Hai|]; [|lia]. exfalso.
      apply Hstop; [lia|].
      pose proof (count_le (S a) (S i) ltac:(lia)) as Hcnt.
      apply Qle_trans with (inject_Z (Z.of_nat (S i)) * c); [|done].
      by apply Qmult_le_compat_r.
Qed.



(** *** The mesh of candidate cells *)

Lemma for_range_ind {S} (P : nat → S → Prop) (n : nat) (body : S → nat → S) (s : S) :
  P 0%nat s →
  (∀ i a, (i < n)%nat → P i a → P (Datatypes.S i) (body a i)) →
  P n (for_range n body s).
Proof.
  intros H0 Hstep.
  assert (∀ m, (m <= n)%nat → P m (for_range m body s)) as Hall.
  { induction m as [|m IH]; intros Hm; [done|].
    rewrite for_range_S. apply Hstep; [lia|]. apply IH. lia. }
  by apply Hall.
Qed.

Lemma foldl_Qmin_le (l : list Q) : ∀ a,
  foldl Qmin a l <= a ∧ ∀ x, x ∈ l → foldl Qmin a l <= x.
Proof.
  induction l as [|b l IH]; intros a; simpl.
  - split; [apply Qle_refl|]. intros x Hx. by apply elem_of_nil in Hx.
  - destruct (IH (Qmin a b)) as [Hhead Hrest]. split.
    + eapply Qle_trans; [exact Hhead|]. apply Q.le_min_l.
    + intros x Hx. apply elem_of_cons in Hx as [->|Hx]; [|by apply Hrest].
      eapply Qle_trans; [exact Hhead|]. apply Q.le_min_r.
Qed.

Lemma foldl_Qmax_ge (l : list Q) : ∀ a,
  a <= foldl Qmax a l ∧ ∀ x, x ∈ l → x <= foldl Qmax a l.
Proof.
  induction l as [|b l IH]; intros a; simpl.
  - split; [apply Qle_refl|]. intros x Hx. by apply elem_of_nil in Hx.
  - destruct (IH (Qmax a b)) as [Hhead Hrest]. split.
    + eapply Qle_trans; [|exact Hhead]. apply Q.le_max_l.
    + intros x Hx. apply elem_of_cons in Hx as [->|Hx]; [|by apply Hrest].
      eapply Qle_trans; [|exact Hhead]. apply Q.le_max_r.
Qed.

Lemma list_min_le_max (l : list Q) : list_min l <= list_max l.
Proof.
  destruct l as [|a l]; simpl; [apply Qle_refl|].
  eapply Qle_trans; [apply (proj1 (foldl_Qmin_le l a))|apply (proj1 (foldl_Qmax_ge l a))].
Qed.

(** The centre of subdivision [i] of [steps] lies between the bounds. *)
Lemma subdivision_centre (lo hi : Q) (i steps : nat) :
  lo <= hi → (i < steps)%nat →
  lo <= lo + (hi - lo) * (inject_Z (Z.of_nat i) + (1 # 2)) / inject_Z (Z.of_nat steps)
  ∧ lo + (hi - lo) * (inject_Z (Z.of_nat i) + (1 # 2)) / inject_Z (Z.of_nat steps) <= hi.
Proof.
  intros Hlh Hi.
  assert (0 <= inject_Z (Z.of_nat i)) as Hi0.
  { change 0 with (inject_Z 0). rewrite <- Zle_Qle. lia. }
  assert (inject_Z (Z.of_nat i) + 1 <= inject_Z (Z.of_nat steps)) as Hi1.
  { rewrite <- count_succ. apply count_le. lia. }
  set (t := inject_Z (Z.of_nat i)) in *. set (s := inject_Z (Z.of_nat steps)) in *.
  assert (0 < s) as Hs by lra.
  assert (0 <= (t + (1 # 2)) / s) as Hf0.
  { apply Qle_shift_div_l; [done|]. lra. }
  assert ((t + (1 # 2)) / s <= 1) as Hf1.
  { apply Qle_shift_div_r; [done|]. lra. }
  set (f := (t + (1 # 2)) / s) in *.
  assert ((hi - lo) * (t + (1 # 2)) / s == (hi - lo) * f) as ->.
  { unfold f, Qdiv. ring. }
  split; nra.
Qed.

Section MeshFacts.
Context `{Runtime}.
Variables (coords : list (Q * Q)) (pc : LatLng) (cs : MeshApi.CellSize).

Lemma mesh_invariant (steps : nat) :
  Forall (mesh_cell coords pc cs) (MeshApi.mesh coords pc cs steps)
  ∧ (length (MeshApi.mesh coords pc cs steps) <= steps * steps)%nat.
Proof.
  unfold MeshApi.mesh. cbv zeta.
  apply (for_range_ind
           (fun i cands => Forall (mesh_cell coords pc cs) cands
                           ∧ (length cands <= i * steps)%nat)).
  - split; [constructor|simpl; lia].
  - intros i cands Hi [Hall Hlen].
    match goal with
    | |- Forall _ ?r ∧ _ =>
        assert (Forall (mesh_cell coords pc cs) r
                ∧ (length r <= i * steps + steps)%nat) as [? ?];
          [|split; [done|simpl; lia]]
    end.
    apply (for_range_ind
             (fun j cands' => Forall (mesh_cell coords pc cs) cands'
                              ∧ (length cands' <= i * steps + j)%nat)).
    + split; [done|lia].
    + intros j cands' Hj [Hall' Hlen'].
      destruct (booleanPointInPolygon _ _) eqn:Hin; [|split; [done|lia]].
      split; [|rewrite length_app; simpl; lia].
      apply Forall_app. split; [done|]. apply Forall_singleton.
      pose proof (subdivision_centre _ _ i steps (list_min_le_max (snd <$> coords)) Hi)
        as [? ?].
      pose proof (subdivision_centre _ _ j steps (list_min_le_max (fst <$> coords)) Hj)
        as [? ?].
      unfold mesh_cell. simpl. by split_and!.
Qed.
End MeshFacts.

Lemma steps_at_least_5 (budget : Q) (cs : MeshApi.CellSize) :
  (5 <= MeshApi.steps budget cs)%nat.
Proof.
  unfold MeshApi.steps, MeshApi.nCandidates.
  pose proof (Z.sqrt_up_le_mono 20 (Z.max 20 (Qfloor (budget / MeshApi.price cs) * 5))
                ltac:(lia)) as Hmono.
  change (Z.sqrt_up 20) with 5%Z in Hmono. lia.
Qed.

(** X7.  For a cell type with a price other than 0, the mesh has at least 5
    steps a side and at most steps × steps cells; every cell carries the
    price and the energy of the cell type, its centre passed the polygon
    test and lies in the bounding box of the ring, and its distance is the
    one from its centre to the population centre. *)
Theorem mesh_cells_generated :
  ∀ (RT : Runtime) (coords : list (Q * Q)) (pc : LatLng) (cs : MeshApi.CellSize)
    (budget : Q),
    ¬ MeshApi.price cs == 0 →
    (5 <= MeshApi.steps budget cs)%nat
    ∧ (length (MeshApi.mesh coords pc cs (MeshApi.steps budget cs))
       <= MeshApi.steps budget cs * MeshApi.steps budget cs)%nat
    ∧ Forall (mesh_cell coords pc cs)
             (MeshApi.mesh coords pc cs (MeshApi.steps budget cs)).
Proof.
  intros RT coords pc cs budget _.
  destruct (mesh_invariant coords pc cs (MeshApi.steps budget cs)) as [Hall Hlen].
  split_and!; [apply steps_at_least_5|done|done].
Qed.

Lemma mesh_cells_generated_witness :
  (5 <= MeshApi.steps 25 two_cells_size)%nat
  ∧ (length (@MeshApi.mesh chatty_runtime (closed_ring region) {| lat := 9; lng := 38 |}
               two_cells_size (MeshApi.steps 25 two_cells_size))
     <= MeshApi.steps 25 two_cells_size * MeshApi.steps 25 two_cells_size)%nat
  ∧ Forall (@mesh_cell chatty_runtime (closed_ring region) {| lat := 9; lng := 38 |}
              two_cells_size)
           (@MeshApi.mesh chatty_runtime (closed_ring region) {| lat := 9; lng := 38 |}
              two_cells_size (MeshApi.steps 25 two_cells_size)).
Proof.
  apply (mesh_cells_generated chatty_runtime). simpl. discriminate.
Defined.

(** *** The answers of the handlers *)

Lemma W_bind_fst {A B} (m : W A) (k : A → W B) : fst (m ≫= k) = fst (k (fst m)).
Proof. destruct m as [a log]. unfold mbind, W_bind. simpl. by destruct (k a). Qed.

Lemma W_bind_snd {A B} (m : W A) (k : A → W B) :
  snd (m ≫= k) = snd m ++ snd (k (fst m)).
Proof. destruct m as [a log]. unfold mbind, W_bind. simpl. by destruct (k a). Qed.

Lemma run_solver_fst `{Runtime} {C} `{Priced C} algo Qm (candidates : list C) budget rnd :
  fst (run_solver algo Qm candidates budget rnd)
  = if algo_is algo "nar" then Returns (narGreedyBudget Qm candidates budget)
    else if algo_is algo "gurobi" then gurobiQUBOBudget Qm candidates budget
    else Returns (simulatedAnnealingQUBO Qm (length candidates) candidates budget
                    default_maxIter default_T0 default_alpha rnd).
Proof.
  unfold run_solver.
  destruct (algo_is algo "nar"); [by rewrite W_bind_fst|].
  destruct (algo_is algo "gurobi"); by rewrite W_bind_fst.
Qed.

Lemma run_solver_snd `{Runtime} {C} `{Priced C} algo Qm (candidates : list C) budget rnd :
  snd (run_solver algo Qm candidates budget rnd)
  = if algo_is algo "nar" then [RunGreedy]
    else if algo_is algo "gurobi" then [RunGurobi] else [RunAnnealing].
Proof.
  unfold run_solver.
  destruct (algo_is algo "nar"); [by rewrite W_bind_snd|].
  destruct (algo_is algo "gurobi"); by rewrite W_bind_snd.
Qed.

(** The answer of the mesh handler to a request that passes the guard. *)
Lemma mesh_handler_fst `{Runtime} (req : MeshApi.Request) rnd :
  MeshApi.invalid req = false →
  fst (MeshApi.handler req rnd)
  = let budget := default 0 (MeshApi.budget req) in
    let cs := default {| MeshApi.price := 0; MeshApi.cell_energy := 0 |}
                      (MeshApi.cellSize req) in
    let candidates :=
      MeshApi.mesh (closed_ring (default [] (MeshApi.polygon req)))
        (default {| lat := 0; lng := 0 |} (MeshApi.popCenter req)) cs
        (MeshApi.steps budget cs) in
    let Qm := MeshApi.qubo_of candidates budget cs (MeshApi.K req) (MeshApi.M req) in
    if (length candidates =? 0)%nat then OkGrids []
    else if MeshApi.quboOnly req then
      if (maxCandidates <? length candidates)%nat
      then OkQubo (reducedQ Qm candidates) (reducedCandidates candidates) budget
      else OkQubo Qm candidates budget
    else match fst (run_solver (MeshApi.algo req) Qm candidates budget rnd) with
         | Throws e => ServerError e
         | Returns x => OkGrids (filter_from (bit x) 0 candidates)
         end.
Proof.
  intros Hv. unfold MeshApi.handler. rewrite Hv. cbv zeta.
  rewrite W_bind_fst.
  destruct (length _ =? 0)%nat; [done|].
  rewrite W_bind_fst.
  destruct (MeshApi.quboOnly req).
  - destruct (maxCandidates <? _)%nat; [by rewrite W_bind_fst|done].
  - rewrite W_bind_fst. by destruct (fst (run_solver _ _ _ _ _)).
Qed.

(** The answer of the dataset handler to a request that passes the guard. *)
Lemma site_handler_fst `{Runtime} ethiopiaSites (req : SiteApi.Request) rnd :
  SiteApi.invalid req = false →
  fst (SiteApi.handler ethiopiaSites req rnd)
  = let budget := default 0 (SiteApi.budget req) in
    let candidates :=
      SiteApi.candidates_in ethiopiaSites
        (closed_ring (default [] (SiteApi.polygon req)))
        (default {| lat := 0; lng := 0 |} (SiteApi.popCenter req)) in
    let Qm := SiteApi.qubo_of candidates budget (SiteApi.max_grids req)
                (SiteApi.min_population req) in
    if (length candidates =? 0)%nat then OkGrids []
    else if SiteApi.quboOnly req then
      if (maxCandidates <? length candidates)%nat
      then OkQubo (reducedQ Qm candidates) (reducedCandidates candidates) budget
      else OkQubo Qm candidates budget
    else match fst (run_solver (SiteApi.algo req) Qm candidates budget rnd) with
         | Throws e => ServerError e
         | Returns x => OkGrids (SiteApi.grid_of <$> filter_from (bit x) 0 candidates)
         end.
Proof.
  intros Hv. unfold SiteApi.handler. rewrite Hv. cbv zeta.
  rewrite W_bind_fst.
  destruct (length _ =? 0)%nat; [done|].
  rewrite W_bind_fst.
  destruct (SiteApi.quboOnly req).
  - destruct (maxCandidates <? _)%nat; [by rewrite W_bind_fst|done].
  - rewrite W_bind_fst. by destruct (fst (run_solver _ _ _ _ _)).
Qed.

Lemma filter_from_prefix {A} (keep : nat → bool) (l : list A) : ∀ s m,
  (∀ i, (i < length l)%nat → keep (s + i)%nat = (i <? m)%nat) →
  filter_from keep s l = take m l.
Proof.
  induction l as [|a l IH]; intros s m Hkeep; simpl; [by rewrite take_nil|].
  pose proof (Hkeep 0%nat ltac:(simpl; lia)) as H0. rewrite Nat.add_0_r in H0.
  rewrite H0. destruct m as [|m]; simpl.
  - apply (IH (S s) 0%nat). intros i Hi.
    specialize (Hkeep (S i) ltac:(simpl; lia)).
    by replace (S s + i)%nat with (s + S i)%nat by lia.
  - f_equal. apply (IH (S s) m). intros i Hi.
    specialize (Hkeep (S i) ltac:(simpl; lia)).
    by replace (S s + i)%nat with (s + S i)%nat by lia.
Qed.

Lemma filter_from_sublist {A} (keep : nat → bool) (l : list A) : ∀ s,
  filter_from keep s l `sublist_of` l.
Proof.
  induction l as [|a l IH]; intros s; simpl; [done|].
  destruct (keep s); [by apply sublist_skip|by apply sublist_cons].
Qed.

(** [i + 1] items of price [c] fit the budget exactly when [i] is below the
    whole number of prices that the budget holds. *)
Lemma affordable_count (i : nat) (c b : Q) :
  0 < c →
  (inject_Z (Z.of_nat (S i)) * c <= b ↔ (i < Z.to_nat (Qfloor (b / c)))%nat).
Proof.
  intros Hc.
  assert (b == b / c * c) as Hb by (field; intros Hc0; rewrite Hc0 in Hc; discriminate).
  split.
  - intros Hfit.
    assert (inject_Z (Z.of_nat (S i)) <= b / c) as Hq
      by (by apply Qle_shift_div_l).
    apply Qfloor_resp_le in Hq. rewrite Qfloor_Z in Hq. lia.
  - intros Hlt.
    assert (Z.of_nat (S i) <= Qfloor (b / c))%Z as Hz by lia.
    rewrite Zle_Qle in Hz.
    pose proof (Qfloor_le (b / c)) as Hfl.
    apply Qle_trans with (b / c * c); [|rewrite <- Hb; apply Qle_refl].
    apply Qmult_le_compat_r; [|lra].
    by apply Qle_trans with (inject_Z (Qfloor (b / c))).
Qed.

Lemma mesh_uniform `{Runtime} coords pc cs steps :
  uniform (MeshApi.mesh coords pc cs steps) (MeshApi.price cs) (MeshApi.cell_energy cs).
Proof.
  intros c Hc.
  destruct (mesh_invariant coords pc cs steps) as [Hall _].
  rewrite Forall_forall in Hall. destruct (Hall c Hc) as (Hcost & Hen & _).
  simpl. by rewrite Hcost, Hen.
Qed.



Lemma filter_from_fmap {A B} (f : A → B) (keep : nat → bool) (l : list A) : ∀ s,
  filter_from keep s (f <$> l) = f <$> filter_from keep s l.
Proof.
  induction l as [|a l IH]; intros s; simpl; [done|].
  destruct (keep s); simpl; by rewrite IH.
Qed.

Lemma filter_from_none {A} (keep : nat → bool) (l : list A) : ∀ s,
  (∀ i, keep i = false) → filter_from keep s l = [].
Proof.
  induction l as [|a l IH]; intros s Hkeep; simpl; [done|].
  rewrite Hkeep. by apply IH.
Qed.

Lemma List_filter_sublist {A} (f : A → bool) (l : list A) :
  List.filter f l `sublist_of` l.
Proof.
  induction l as [|a l IH]; simpl; [done|].
  destruct (f a); [by apply sublist_skip|by apply sublist_cons].
Qed.

Lemma List_filter_Forall {A} (f : A → bool) (l : list A) :
  Forall (fun a => f a = true) (List.filter f l).
Proof.
  apply Forall_forall. intros a Ha. apply list_elem_of_In in Ha.
  by apply List.filter_In in Ha as [_ Ha].
Qed.

Lemma mesh_handler_invalid `{Runtime} (req : MeshApi.Request) rnd :
  MeshApi.invalid req = true →
  MeshApi.handler req rnd = (BadRequest "Invalid input", []).
Proof. intros Hv. unfold MeshApi.handler. by rewrite Hv. Qed.

Lemma site_handler_invalid `{Runtime} sites (req : SiteApi.Request) rnd :
  SiteApi.invalid req = true →
  SiteApi.handler sites req rnd = (BadRequest "Invalid input", []).
Proof. intros Hv. unfold SiteApi.handler. by rewrite Hv. Qed.

(** X9.  The grids of an answer are taken from the generated candidates, in
    their order and without repetition.  In mesh mode they are a sublist of
    the mesh.  In dataset mode they are the images of a sublist of the
    dataset, all of whose sites passed the polygon test: latitude from
    [Y_coord], longitude from [X_coord], cost from [Installation_Cost_USD],
    energy from [Energy_Capacity_kWh_day], population from
    [Population_Coverage] and the distance to the population centre. *)
Theorem answer_grids_are_candidates :
  (∀ (RT : Runtime) (req : MeshApi.Request) (rnd : nat → draw) grids,
     fst (MeshApi.handler req rnd) = OkGrids grids →
     grids `sublist_of`
       MeshApi.mesh (closed_ring (default [] (MeshApi.polygon req)))
         (default {| lat := 0; lng := 0 |} (MeshApi.popCenter req))
         (default {| MeshApi.price := 0; MeshApi.cell_energy := 0 |}
                  (MeshApi.cellSize req))
         (MeshApi.steps (default 0 (MeshApi.budget req))
            (default {| MeshApi.price := 0; MeshApi.cell_energy := 0 |}
                     (MeshApi.cellSize req))))
  ∧ (∀ (RT : Runtime) (ethiopiaSites : list SiteApi.Site) (req : SiteApi.Request)
       (rnd : nat → draw) grids,
       fst (SiteApi.handler ethiopiaSites req rnd) = OkGrids grids →
       ∃ chosen,
         chosen `sublist_of` ethiopiaSites
         ∧ Forall (fun s => booleanPointInPolygon
                              (SiteApi.X_coord s, SiteApi.Y_coord s)
                              (closed_ring (default [] (SiteApi.polygon req))) = true)
                  chosen
         ∧ grids
           = (fun s =>
                {| SiteApi.g_lat := SiteApi.Y_coord s;
                   SiteApi.g_lng := SiteApi.X_coord s;
                   SiteApi.g_cost := SiteApi.Installation_Cost_USD s;
                   SiteApi.g_energy := SiteApi.Energy_Capacity_kWh_day s;
                   SiteApi.g_dist :=
                     turfDistance (SiteApi.X_coord s, SiteApi.Y_coord s)
                       (lng (default {| lat := 0; lng := 0 |} (SiteApi.popCenter req)),
                        lat (default {| lat := 0; lng := 0 |} (SiteApi.popCenter req)));
                   SiteApi.g_pop := SiteApi.Population_Coverage s |}) <$> chosen).
Proof.
  split.
  - intros RT req rnd grids Hans.
    destruct (MeshApi.invalid req) eqn:Hv.
    { by rewrite (mesh_handler_invalid req rnd Hv) in Hans. }
    rewrite (mesh_handler_fst req rnd Hv) in Hans. cbv zeta in Hans.
    destruct (length _ =? 0)%nat.
    { injection Hans as <-. apply sublist_nil_l. }
    destruct (MeshApi.quboOnly req).
    { by destruct (maxCandidates <? _)%nat. }
    destruct (fst (run_solver _ _ _ _ _)) as [x|e]; [|done].
    injection Hans as <-. apply filter_from_sublist.
  - intros RT sites req rnd grids Hans.
    destruct (SiteApi.invalid req) eqn:Hv.
    { by rewrite (site_handler_invalid sites req rnd Hv) in Hans. }
    rewrite (site_handler_fst sites req rnd Hv) in Hans. cbv zeta in Hans.
    destruct (length _ =? 0)%nat.
    { injection Hans as <-. exists []. split_and!; [apply sublist_nil_l|done|done]. }
    destruct (SiteApi.quboOnly req).
    { by destruct (maxCandidates <? _)%nat. }
    destruct (fst (run_solver _ _ _ _ _)) as [x|e]; [|done].
    injection Hans as <-. unfold SiteApi.candidates_in.
    rewrite filter_from_fmap, <- list_fmap_compose.
    eexists. split_and!; [| |reflexivity].
    + etrans; [apply filter_from_sublist|apply List_filter_sublist].
    + apply Forall_forall. intros s Hs.
      eapply elem_of_sublist in Hs; [|apply filter_from_sublist].
      pose proof (List_filter_Forall
                    (fun s => booleanPointInPolygon
                                (SiteApi.X_coord s, SiteApi.Y_coord s)
                                (closed_ring (default [] (SiteApi.polygon req))))
                    sites) as Hall.
      rewrite Forall_forall in Hall. by apply Hall.
Qed.

Lemma answer_grids_are_candidates_witness :
  take 2 (@MeshApi.mesh chatty_runtime (closed_ring region) {| lat := 9; lng := 38 |}
            two_cells_size 5)
  `sublist_of` @MeshApi.mesh chatty_runtime (closed_ring region)
                 {| lat := 9; lng := 38 |} two_cells_size 5.
Proof.
  apply (proj1 answer_grids_are_candidates chatty_runtime (mesh_request (Some 25))
           idle_draws).
  vm_compute. reflexivity.
Defined.

Lemma bit_replicate_false (n i : nat) : bit (replicate n false) i = false.
Proof.
  unfold bit. destruct (replicate n false !! i) as [b|] eqn:E; [|done].
  by apply lookup_replicate in E as [-> _].
Qed.

(** X10.  In dataset mode the greedy solver never selects a site: the
    candidates have no property [cost], so a request that passes the guard
    and asks for the algorithm [nar] is answered with an empty list of
    grids, whatever the budget and the sites. *)
Theorem dataset_greedy_answers_no_grids :
  ∀ (RT : Runtime) (ethiopiaSites : list SiteApi.Site) (req : SiteApi.Request)
    (rnd : nat → draw),
    SiteApi.invalid req = false → SiteApi.quboOnly req = false →
    SiteApi.algo req = Some "nar"%string →
    fst (SiteApi.handler ethiopiaSites req rnd) = OkGrids [].
Proof.
  intros RT sites req rnd Hv Hq Ha.
  rewrite (site_handler_fst sites req rnd Hv). cbv zeta. rewrite Hq, Ha.
  destruct (length _ =? 0)%nat; [done|].
  rewrite run_solver_fst.
  change (algo_is (Some "nar"%string) "nar") with true. cbv iota.
  rewrite dataset_candidates_never_selected.
  rewrite filter_from_none; [done|]. intros i. apply bit_replicate_false.
Qed.

Lemma dataset_greedy_answers_no_grids_witness :
  fst (@SiteApi.handler chatty_runtime [site_at 38 9] (site_request (Some 100000))
         idle_draws) = OkGrids [].
Proof.
  apply (dataset_greedy_answers_no_grids chatty_runtime); reflexivity.
Defined.

(** *** The guards *)

Lemma not_positive (b : Q) : Qeq_bool b 0 || Qleb b 0 = true ↔ b <= 0.
Proof.
  rewrite orb_true_iff, Qeq_bool_iff, Qleb_le. split; [|by right].
  intros [Hb|Hb]; [rewrite Hb; apply Qle_refl|done].
Qed.

Lemma site_invalid_defective req :
  SiteApi.invalid req = true →
  defective (SiteApi.polygon req) (SiteApi.budget req) (SiteApi.popCenter req).
Proof.
  unfold defective, SiteApi.invalid. intros Hinv.
  destruct (SiteApi.polygon req) as [p|]; [|by left].
  destruct (Nat.eqb_spec (length p) 4) as [Hp|Hp]; [|by left]. simpl in Hinv.
  destruct (SiteApi.budget req) as [b|]; [|by (right; left)].
  destruct (Qeq_bool b 0 || Qleb b 0) eqn:Hb.
  { right. left. by apply not_positive. }
  simpl in Hinv. destruct (SiteApi.popCenter req); [done|by (right; right)].
Qed.

Lemma mesh_invalid_cases req :
  MeshApi.invalid req = true ↔
  (defective (MeshApi.polygon req) (MeshApi.budget req) (MeshApi.popCenter req)
   ∨ (∃ a, MeshApi.gridArea req = Some a ∧ a <= 0)
   ∨ MeshApi.cellSize req = None
   ∨ MeshApi.country req = None
   ∨ MeshApi.country req = Some EmptyString).
Proof.
  split.
  - unfold defective, MeshApi.invalid. intros Hinv.
    destruct (MeshApi.polygon req) as [p|]; [|by (left; left)].
    destruct (Nat.eqb_spec (length p) 4) as [Hp|Hp]; [|by (left; left)]. simpl in Hinv.
    destruct (MeshApi.budget req) as [b|]; [|by (left; right; left)].
    destruct (Qeq_bool b 0 || Qleb b 0) eqn:Hb.
    { left. right. left. by apply not_positive. }
    simpl in Hinv.
    destruct (MeshApi.gridArea req) as [a|].
    + destruct (Qleb a 0) eqn:Ha.
      { right. left. exists a. split; [done|]. by apply Qleb_le. }
      simpl in Hinv. destruct (MeshApi.cellSize req); [|by (right; right; left)].
      simpl in Hinv. destruct (MeshApi.country req) as [s|]; [|by (right; right; right; left)].
      destruct (String.eqb s EmptyString) eqn:Es;
        [apply String.eqb_eq in Es; subst s; by (right; right; right; right)|].
      simpl in Hinv. destruct (MeshApi.popCenter req); [done|by (left; right; right)].
    + simpl in Hinv. destruct (MeshApi.cellSize req); [|by (right; right; left)].
      simpl in Hinv. destruct (MeshApi.country req) as [s|]; [|by (right; right; right; left)].
      destruct (String.eqb s EmptyString) eqn:Es;
        [apply String.eqb_eq in Es; subst s; by (right; right; right; right)|].
      simpl in Hinv. destruct (MeshApi.popCenter req); [done|by (left; right; right)].
  - intros [Hd|[(a & Ha & Hle)|[Hcs|[Hco|Hco]]]].
    + by apply mesh_defective_invalid.
    + unfold MeshApi.invalid. rewrite Ha. apply Qleb_le in Hle. rewrite Hle.
      by rewrite !orb_true_r.
    + unfold MeshApi.invalid. rewrite Hcs. by rewrite !orb_true_r.
    + unfold MeshApi.invalid. rewrite Hco. by rewrite !orb_true_r.
    + unfold MeshApi.invalid. rewrite Hco. by rewrite !orb_true_r.
Qed.

(** X11.  Either handler answers with status 400 exactly when the request
    is defective.  In dataset mode the defects are a polygon that is missing
    or has not 4 vertices, a budget that is missing or not positive, and a
    missing population centre; mesh mode adds a grid area that is given and
    not positive, a missing cell type, and a country that is missing or
    empty.  No later step of a handler answers with status 400. *)
Theorem bad_request_exactly_when_defective :
  (∀ (RT : Runtime) (ethiopiaSites : list SiteApi.Site) (req : SiteApi.Request)
     (rnd : nat → draw),
     (∃ e, fst (SiteApi.handler ethiopiaSites req rnd) = BadRequest e)
     ↔ defective (SiteApi.polygon req) (SiteApi.budget req) (SiteApi.popCenter req))
  ∧ (∀ (RT : Runtime) (req : MeshApi.Request) (rnd : nat → draw),
       (∃ e, fst (MeshApi.handler req rnd) = BadRequest e)
       ↔ (defective (MeshApi.polygon req) (MeshApi.budget req) (MeshApi.popCenter req)
          ∨ (∃ a, MeshApi.gridArea req = Some a ∧ a <= 0)
          ∨ MeshApi.cellSize req = None
          ∨ MeshApi.country req = None
          ∨ MeshApi.country req = Some EmptyString)).
Proof.
  split.
  - intros RT sites req rnd. split.
    + intros [e He]. apply site_invalid_defective.
      destruct (SiteApi.invalid req) eqn:Hv; [done|]. exfalso.
      rewrite (site_handler_fst sites req rnd Hv) in He. cbv zeta in He.
      destruct (length _ =? 0)%nat; [done|].
      destruct (SiteApi.quboOnly req).
      { by destruct (maxCandidates <? _)%nat. }
      by destruct (fst (run_solver _ _ _ _ _)).
    + intros Hd. exists "Invalid input"%string.
      by rewrite (site_handler_invalid sites req rnd (site_defective_invalid req Hd)).
  - intros RT req rnd. rewrite <- mesh_invalid_cases. split.
    + intros [e He].
      destruct (MeshApi.invalid req) eqn:Hv; [done|]. exfalso.
      rewrite (mesh_handler_fst req rnd Hv) in He. cbv zeta in He.
      destruct (length _ =? 0)%nat; [done|].
      destruct (MeshApi.quboOnly req).
      { by destruct (maxCandidates <? _)%nat. }
      by destruct (fst (run_solver _ _ _ _ _)).
    + intros Hv. exists "Invalid input"%string.
      by rewrite (mesh_handler_invalid req rnd Hv).
Qed.

(** *** The logs of the handlers *)

Lemma mesh_handler_snd `{Runtime} (req : MeshApi.Request) rnd :
  snd (MeshApi.handler req rnd)
  = if MeshApi.invalid req then []
    else
      let budget := default 0 (MeshApi.budget req) in
      let cs := default {| MeshApi.price := 0; MeshApi.cell_energy := 0 |}
                        (MeshApi.cellSize req) in
      let candidates :=
        MeshApi.mesh (closed_ring (default [] (MeshApi.polygon req)))
          (default {| lat := 0; lng := 0 |} (MeshApi.popCenter req)) cs
          (MeshApi.steps budget cs) in
      let Qm := MeshApi.qubo_of candidates budget cs (MeshApi.K req) (MeshApi.M req) in
      GenerateCandidates ::
      if (length candidates =? 0)%nat then []
      else BuildQUBO ::
           if MeshApi.quboOnly req then
             if (maxCandidates <? length candidates)%nat then [Downsample] else []
           else snd (run_solver (MeshApi.algo req) Qm candidates budget rnd).
Proof.
  unfold MeshApi.handler. destruct (MeshApi.invalid req); [done|]. cbv zeta.
  rewrite W_bind_snd. unfold tell at 1. cbn [fst snd app]. f_equal.
  destruct (length _ =? 0)%nat; [done|].
  rewrite W_bind_snd. unfold tell at 1. cbn [fst snd app]. f_equal.
  destruct (MeshApi.quboOnly req).
  - destruct (maxCandidates <? _)%nat; [by rewrite W_bind_snd|done].
  - rewrite W_bind_snd.
    destruct (fst (run_solver _ _ _ _ _)); apply app_nil_r.
Qed.

Lemma site_handler_snd `{Runtime} ethiopiaSites (req : SiteApi.Request) rnd :
  snd (SiteApi.handler ethiopiaSites req rnd)
  = if SiteApi.invalid req then []
    else
      let budget := default 0 (SiteApi.budget req) in
      let candidates :=
        SiteApi.candidates_in ethiopiaSites
          (closed_ring (default [] (SiteApi.polygon req)))
          (default {| lat := 0; lng := 0 |} (SiteApi.popCenter req)) in
      let Qm := SiteApi.qubo_of candidates budget (SiteApi.max_grids req)
                  (SiteApi.min_population req) in
      GenerateCandidates ::
      if (length candidates =? 0)%nat then []
      else BuildQUBO ::
           if SiteApi.quboOnly req then
             if (maxCandidates <? length candidates)%nat then [Downsample] else []
           else snd (run_solver (SiteApi.algo req) Qm candidates budget rnd).
Proof.
  unfold SiteApi.handler. destruct (SiteApi.invalid req); [done|]. cbv zeta.
  rewrite W_bind_snd. unfold tell at 1. cbn [fst snd app]. f_equal.
  destruct (length _ =? 0)%nat; [done|].
  rewrite W_bind_snd. unfold tell at 1. cbn [fst snd app]. f_equal.
  destruct (SiteApi.quboOnly req).
  - destruct (maxCandidates <? _)%nat; [by rewrite W_bind_snd|done].
  - rewrite W_bind_snd.
    destruct (fst (run_solver _ _ _ _ _)); apply app_nil_r.
Qed.

Lemma export_stages (big : bool) (s : Stage) :
  s ∈ GenerateCandidates :: BuildQUBO :: (if big then [Downsample] else []) →
  ¬ solver_stage s.
Proof.
  intros Hs [?|[?|?]]; subst s; destruct big;
    repeat (apply elem_of_cons in Hs as [Hs|Hs]; [discriminate|]);
    by apply elem_of_nil in Hs.
Qed.

Lemma reduced_sublist {A} (candidates : list A) :
  reducedCandidates candidates `sublist_of` candidates.
Proof.
  unfold reducedCandidates. etrans; [apply sublist_take|apply filter_from_sublist].
Qed.

(** X12.  A request with [quboOnly] that passes the guard and has at
    least one candidate is answered with a matrix, a list of candidates and
    the budget: the matrix is square, its side is the number of candidates
    in the answer, these are at most 1000 and a sublist of the generated
    candidates, and no solver is run.  Up to 1000 candidates the answer
    holds all of them with the matrix as built. *)
Theorem qubo_export_shape :
  (∀ (RT : Runtime) (req : MeshApi.Request) (rnd : nat → draw),
     MeshApi.invalid req = false → MeshApi.quboOnly req = true →
     let budget := default 0 (MeshApi.budget req) in
     let cs := default {| MeshApi.price := 0; MeshApi.cell_energy := 0 |}
                       (MeshApi.cellSize req) in
     let candidates :=
       MeshApi.mesh (closed_ring (default [] (MeshApi.polygon req)))
         (default {| lat := 0; lng := 0 |} (MeshApi.popCenter req)) cs
         (MeshApi.steps budget cs) in
     candidates ≠ [] →
     ∃ Qm exported,
       fst (MeshApi.handler req rnd) = OkQubo Qm exported budget
       ∧ square (length exported) Qm
       ∧ (length exported <= maxCandidates)%nat
       ∧ exported `sublist_of` candidates
       ∧ ((length candidates <= maxCandidates)%nat →
          exported = candidates
          ∧ Qm = MeshApi.qubo_of candidates budget cs (MeshApi.K req) (MeshApi.M req))
       ∧ ∀ s, s ∈ snd (MeshApi.handler req rnd) → ¬ solver_stage s)
  ∧ (∀ (RT : Runtime) (ethiopiaSites : list SiteApi.Site) (req : SiteApi.Request)
       (rnd : nat → draw),
       SiteApi.invalid req = false → SiteApi.quboOnly req = true →
       let budget := default 0 (SiteApi.budget req) in
       let candidates :=
         SiteApi.candidates_in ethiopiaSites
           (closed_ring (default [] (SiteApi.polygon req)))
           (default {| lat := 0; lng := 0 |} (SiteApi.popCenter req)) in
       candidates ≠ [] →
       ∃ Qm exported,
         fst (SiteApi.handler ethiopiaSites req rnd) = OkQubo Qm exported budget
         ∧ square (length exported) Qm
         ∧ (length exported <= maxCandidates)%nat
         ∧ exported `sublist_of` candidates
         ∧ ((length candidates <= maxCandidates)%nat →
            exported = candidates
            ∧ Qm = SiteApi.qubo_of candidates budget (SiteApi.max_grids req)
                     (SiteApi.min_population req))
         ∧ ∀ s, s ∈ snd (SiteApi.handler ethiopiaSites req rnd) → ¬ solver_stage s).
Proof.
  split.
  - intros RT req rnd Hv Hq budget cs candidates Hsome.
    rewrite (mesh_handler_fst req rnd Hv), mesh_handler_snd, Hv, Hq. cbv zeta.
    fold budget cs candidates.
    destruct (Nat.eqb_spec (length candidates) 0) as [Hnone|_].
    { by apply nil_length_inv in Hnone. }
    destruct (Nat.ltb_spec maxCandidates (length candidates)) as [Hbig|Hsmall].
    + eexists _, _. split_and!; [reflexivity| | | | |].
      * apply reducedQ_square.
      * apply reduced_length.
      * apply reduced_sublist.
      * lia.
      * apply (export_stages true).
    + eexists _, _. split_and!; [reflexivity| | | | |].
      * unfold MeshApi.qubo_of.
        replace (length candidates) with (length (MeshApi.costs candidates))
          by (unfold MeshApi.costs; apply length_fmap).
        apply mesh_qubo_square.
      * done.
      * done.
      * done.
      * apply (export_stages false).
  - intros RT sites req rnd Hv Hq budget candidates Hsome.
    rewrite (site_handler_fst sites req rnd Hv), site_handler_snd, Hv, Hq. cbv zeta.
    fold budget candidates.
    destruct (Nat.eqb_spec (length candidates) 0) as [Hnone|_].
    { by apply nil_length_inv in Hnone. }
    destruct (Nat.ltb_spec maxCandidates (length candidates)) as [Hbig|Hsmall].
    + eexists _, _. split_and!; [reflexivity| | | | |].
      * apply reducedQ_square.
      * apply reduced_length.
      * apply reduced_sublist.
      * lia.
      * apply (export_stages true).
    + eexists _, _. split_and!; [reflexivity| | | | |].
      * unfold SiteApi.qubo_of.
        replace (length candidates)
          with (length ((SiteApi.Installation_Cost_USD ∘ SiteApi.site) <$> candidates))
          by apply length_fmap.
        apply site_qubo_square.
      * done.
      * done.
      * done.
      * apply (export_stages false).
Qed.

Lemma qubo_export_shape_witness :
  ∃ Qm exported,
    fst (@MeshApi.handler chatty_runtime export_request idle_draws)
    = OkQubo Qm exported 25
    ∧ square (length exported) Qm
    ∧ (length exported <= maxCandidates)%nat
    ∧ exported `sublist_of`
        @MeshApi.mesh chatty_runtime (closed_ring region) {| lat := 9; lng := 38 |}
          two_cells_size 5
    ∧ ((length (@MeshApi.mesh chatty_runtime (closed_ring region)
                  {| lat := 9; lng := 38 |} two_cells_size 5) <= maxCandidates)%nat →
       exported
       = @MeshApi.mesh chatty_runtime (closed_ring region) {| lat := 9; lng := 38 |}
           two_cells_size 5
       ∧ Qm = MeshApi.qubo_of
                (@MeshApi.mesh chatty_runtime (closed_ring region)
                   {| lat := 9; lng := 38 |} two_cells_size 5)
                25 two_cells_size None None)
    ∧ ∀ s, s ∈ snd (@MeshApi.handler chatty_runtime export_request idle_draws) →
           ¬ solver_stage s.
Proof.
  apply (proj1 qubo_export_shape chatty_runtime export_request idle_draws).
  - reflexivity.
  - reflexivity.
  - intros Hnone. vm_compute in Hnone. discriminate Hnone.
Defined.

(** *** The generated dataset *)

Lemma item_fmap_seq (f : nat → Q) (n i : nat) :
  (i < n)%nat → item (f <$> seq 0 n) i = f i.
Proof.
  intros Hi. unfold item. rewrite list_lookup_fmap, lookup_seq_lt by done. done.
Qed.

Lemma floor_of_scaled_draw (r : Q) (k : Z) :
  0 <= r → r < 1 → (0 < k)%Z →
  (0 <= Qfloor (r * inject_Z k) ∧ Qfloor (r * inject_Z k) <= k - 1)%Z.
Proof.
  intros H0 H1 Hk.
  assert (0 < inject_Z k) as Hk' by (change 0 with (inject_Z 0); by rewrite <- Zlt_Qlt).
  split.
  - change 0%Z with (Qfloor 0). apply Qfloor_resp_le.
    apply Qmult_le_0_compat; lra.
  - assert (inject_Z (Qfloor (r * inject_Z k)) < inject_Z k) as Hlt.
    { eapply Qle_lt_trans; [apply Qfloor_le|].
      apply Qlt_le_trans with (1 * inject_Z k); [|lra].
      by apply Qmult_lt_compat_r. }
    rewrite <- Zlt_Qlt in Hlt. lia.
Qed.

Lemma toFixed2_range (q : Q) (lo hi : Z) :
  inject_Z lo <= q * 100 + (1 # 2) → q * 100 + (1 # 2) < inject_Z (hi + 1) →
  Qmake lo 100 <= DataGenerator.toFixed2 q ∧ DataGenerator.toFixed2 q <= Qmake hi 100.
Proof.
  intros Hlo Hhi. unfold DataGenerator.toFixed2.
  apply Qfloor_resp_le in Hlo. rewrite Qfloor_Z in Hlo.
  assert (inject_Z (Qfloor (q * 100 + (1 # 2))) < inject_Z (hi + 1)) as Hlt.
  { eapply Qle_lt_trans; [apply Qfloor_le|done]. }
  rewrite <- Zlt_Qlt in Hlt.
  revert Hlo Hlt. generalize (Qfloor (q * 100 + (1 # 2))). intros z Hlo Hlt.
  unfold Qle. cbn [Qnum Qden]. lia.
Qed.

Lemma generated_site (name : string) (n : nat) (rnd : nat → Q) (i : nat) :
  (i < n)%nat →
  DataGenerator.generateDataset name n rnd !! i
  = Some
      {| SiteApi.Site_ID := ("Site_" ++ index_string (i + 1))%string;
         SiteApi.Installation_Cost_USD := inject_Z (Qfloor (rnd i * 35000)) + 15000;
         SiteApi.Population_Coverage :=
           inject_Z (Qfloor (rnd (n + i)%nat * 1400)) + 100;
         SiteApi.Solar_Potential_kWh_m2_day :=
           DataGenerator.toFixed2 (rnd (2 * n + i)%nat * 3 + (7 # 2));
         SiteApi.Energy_Capacity_kWh_day :=
           DataGenerator.toFixed2
             (DataGenerator.toFixed2 (rnd (2 * n + i)%nat * 3 + (7 # 2))
              * (inject_Z (Qfloor (rnd (n + i)%nat * 1400)) + 100) * (3 # 10));
         SiteApi.X_coord :=
           DataGenerator.bbox_minLng
           + rnd (3 * n + 2 * i)%nat
             * (DataGenerator.bbox_maxLng - DataGenerator.bbox_minLng);
         SiteApi.Y_coord :=
           DataGenerator.bbox_minLat
           + rnd (3 * n + 2 * i + 1)%nat
             * (DataGenerator.bbox_maxLat - DataGenerator.bbox_minLat) |}.
Proof.
  intros Hi. unfold DataGenerator.generateDataset. cbv zeta.
  rewrite list_lookup_imap, list_lookup_fmap, lookup_seq_lt by done.
  cbn [fmap option_fmap option_map]. f_equal.
  rewrite !item_fmap_seq by done.
  rewrite list_lookup_fmap, lookup_seq_lt by done.
  cbn [fmap option_fmap option_map default from_option id fst snd]. f_equal.
  unfold item at 1. rewrite list_lookup_imap, list_lookup_fmap, lookup_seq_lt by done.
  cbn [fmap option_fmap option_map]. by rewrite item_fmap_seq.
Qed.

Lemma generated_length (name : string) (n : nat) (rnd : nat → Q) :
  length (DataGenerator.generateDataset name n rnd) = n.
Proof.
  unfold DataGenerator.generateDataset. cbv zeta.
  by rewrite length_imap, length_fmap, length_seq.
Qed.

Lemma generated_in_range (name : string) (n : nat) (rnd : nat → Q) :
  unit_draws rnd → Forall site_in_range (DataGenerator.generateDataset name n rnd).
Proof.
  intros Hrnd. apply Forall_forall. intros s Hs.
  apply list_elem_of_lookup in Hs as [i Hs].
  assert (i < n)%nat as Hi.
  { rewrite <- (generated_length name n rnd). by eapply lookup_lt_Some. }
  rewrite (generated_site name n rnd i Hi) in Hs. apply (inj Some) in Hs. subst s.
  destruct (Hrnd i) as [Hc0 Hc1].
  destruct (Hrnd (n + i)%nat) as [Hp0 Hp1].
  destruct (Hrnd (2 * n + i)%nat) as [Hs0 Hs1].
  destruct (Hrnd (3 * n + 2 * i)%nat) as [Hx0 Hx1].
  destruct (Hrnd (3 * n + 2 * i + 1)%nat) as [Hy0 Hy1].
  pose proof (floor_of_scaled_draw _ 35000 Hc0 Hc1 ltac:(lia)) as [Hcl Hch].
  pose proof (floor_of_scaled_draw _ 1400 Hp0 Hp1 ltac:(lia)) as [Hpl Hph].
  change (inject_Z 35000) with 35000 in Hcl, Hch.
  change (inject_Z 1400) with 1400 in Hpl, Hph.
  rewrite Zle_Qle in Hcl, Hch, Hpl, Hph.
  change (inject_Z 0) with 0 in Hcl, Hpl.
  change (inject_Z (35000 - 1)) with 34999 in Hch.
  change (inject_Z (1400 - 1)) with 1399 in Hph.
  pose proof (toFixed2_range (rnd (2 * n + i)%nat * 3 + (7 # 2)) 350 650
                ltac:(change (inject_Z 350) with 350; lra)
                ltac:(change (inject_Z (650 + 1)) with 651; lra)) as [Hsl Hsh].
  unfold site_in_range. cbn [SiteApi.Installation_Cost_USD SiteApi.Population_Coverage
    SiteApi.Solar_Potential_kWh_m2_day SiteApi.Energy_Capacity_kWh_day
    SiteApi.X_coord SiteApi.Y_coord].
  set (cost := inject_Z (Qfloor (rnd i * 35000))) in *.
  set (pop := inject_Z (Qfloor (rnd (n + i)%nat * 1400))) in *.
  set (solar := DataGenerator.toFixed2 (rnd (2 * n + i)%nat * 3 + (7 # 2))) in *.
  assert (105 <= DataGenerator.toFixed2 (solar * (pop + 100) * (3 # 10))
          ∧ DataGenerator.toFixed2 (solar * (pop + 100) * (3 # 10)) <= (292305 # 100))
    as [Hel Heh].
  { destruct (toFixed2_range (solar * (pop + 100) * (3 # 10)) 10500 292305)
      as [Hel Heh].
    - change (inject_Z 10500) with 10500. nra.
    - change (inject_Z (292305 + 1)) with 292306. nra.
    - split; lra. }
  unfold DataGenerator.bbox_minLng, DataGenerator.bbox_maxLng,
    DataGenerator.bbox_minLat, DataGenerator.bbox_maxLat.
  split_and!; try lra; nra.
Qed.

(** X13.  When every call of [Math.random()] returns a number in [[0, 1)],
    [generateDataset(name, n)] returns [n] sites; site [i] is named
    [Site_] followed by [i + 1]; and every site has a cost between 15000 and
    49999, a coverage between 100 and 1499, a solar potential between 3.5
    and 6.5, an energy capacity between 105 and 2923.05, and coordinates in
    the bounding box. *)
Theorem generated_dataset_in_range :
  ∀ (name : string) (n : nat) (rnd : nat → Q),
    unit_draws rnd →
    length (DataGenerator.generateDataset name n rnd) = n
    ∧ (∀ i, (i < n)%nat →
         SiteApi.Site_ID <$> DataGenerator.generateDataset name n rnd !! i
         = Some ("Site_" ++ index_string (i + 1))%string)
    ∧ Forall site_in_range (DataGenerator.generateDataset name n rnd).
Proof.
  intros name n rnd Hrnd. split_and!.
  - apply generated_length.
  - intros i Hi. by rewrite (generated_site name n rnd i Hi).
  - by apply generated_in_range.
Qed.

Lemma generated_dataset_in_range_witness :
  length (DataGenerator.ethiopiaSites half_draws) = 50%nat
  ∧ (∀ i, (i < 50)%nat →
       SiteApi.Site_ID <$> DataGenerator.ethiopiaSites half_draws !! i
       = Some ("Site_" ++ index_string (i + 1))%string)
  ∧ Forall site_in_range (DataGenerator.ethiopiaSites half_draws).
Proof.
  apply (generated_dataset_in_range "Ethiopia_Offgrid_Potential" 50 half_draws).
  intros k. split; [discriminate|reflexivity].
Defined.

Lemma candidates_in_length `{Runtime} sites coords pc :
  (length (SiteApi.candidates_in sites coords pc) <= length sites)%nat.
Proof.
  unfold SiteApi.candidates_in. rewrite length_fmap. apply List.filter_length_le.
Qed.

(** X14.  The dataset that the handler filters has 50 sites, so the
    handler never downsamples it: the stage [Downsample] is in no log, and
    an export with [quboOnly] holds every candidate and the matrix as
    built. *)
Theorem generated_dataset_never_downsampled :
  ∀ (RT : Runtime) (draws : nat → Q) (req : SiteApi.Request) (rnd : nat → draw),
    (Downsample ∉ snd (SiteApi.handler (DataGenerator.ethiopiaSites draws) req rnd))
    ∧ ∀ Qm exported budget,
        fst (SiteApi.handler (DataGenerator.ethiopiaSites draws) req rnd)
        = OkQubo Qm exported budget →
        exported
        = SiteApi.candidates_in (DataGenerator.ethiopiaSites draws)
            (closed_ring (default [] (SiteApi.polygon req)))
            (default {| lat := 0; lng := 0 |} (SiteApi.popCenter req))
        ∧ Qm = SiteApi.qubo_of exported budget (SiteApi.max_grids req)
                 (SiteApi.min_population req).
Proof.
  intros RT draws req rnd.
  pose proof (candidates_in_length (DataGenerator.ethiopiaSites draws)
                (closed_ring (default [] (SiteApi.polygon req)))
                (default {| lat := 0; lng := 0 |} (SiteApi.popCenter req))) as Hlen.
  unfold DataGenerator.ethiopiaSites in Hlen at 2. rewrite generated_length in Hlen.
  assert ((maxCandidates <? length
             (SiteApi.candidates_in (DataGenerator.ethiopiaSites draws)
                (closed_ring (default [] (SiteApi.polygon req)))
                (default {| lat := 0; lng := 0 |} (SiteApi.popCenter req))))%nat = false)
    as Hsmall by (apply Nat.ltb_ge; unfold maxCandidates; lia).
  split.
  - rewrite site_handler_snd. cbv zeta. rewrite Hsmall.
    destruct (SiteApi.invalid req); [apply not_elem_of_nil|].
    destruct (length _ =? 0)%nat.
    { intros Hin. apply list_elem_of_singleton in Hin. discriminate. }
    destruct (SiteApi.quboOnly req).
    { intros Hin. repeat (apply elem_of_cons in Hin as [Hin|Hin]; [discriminate|]).
      by apply elem_of_nil in Hin. }
    rewrite run_solver_snd.
    intros Hin. repeat (apply elem_of_cons in Hin as [Hin|Hin]; [discriminate|]).
    destruct (algo_is _ "nar"); [|destruct (algo_is _ "gurobi")];
      apply list_elem_of_singleton in Hin; discriminate.
  - intros Qm exported budget Hans.
    destruct (SiteApi.invalid req) eqn:Hv.
    { by rewrite (site_handler_invalid _ req rnd Hv) in Hans. }
    rewrite (site_handler_fst _ req rnd Hv) in Hans. cbv zeta in Hans.
    rewrite Hsmall in Hans.
    destruct (length _ =? 0)%nat; [done|].
    destruct (SiteApi.quboOnly req).
    + by injection Hans as <- <- <-.
    + by destruct (fst (run_solver _ _ _ _ _)).
Qed.

(** *** The bridges *)

Lemma trim_start_blank (ws : string) : blank ws = true → trim_start ws = EmptyString.
Proof.
  induction ws as [|c ws IH]; simpl; [done|].
  unfold blank. simpl. intros [Hc Hws]%andb_true_iff. rewrite Hc. by apply IH.
Qed.

Lemma trim_end_blank (ws : string) : blank ws = true → trim_end ws = EmptyString.
Proof.
  induction ws as [|c ws IH]; simpl; [done|].
  unfold blank. simpl. intros [Hc Hws]%andb_true_iff.
  rewrite (IH Hws). by rewrite Hc.
Qed.

Lemma trim_end_app (s ws : string) :
  blank ws = true → trim_end (s ++ ws) = trim_end s.
Proof.
  intros Hws. induction s as [|c s IH]; simpl.
  - by apply trim_end_blank.
  - by rewrite IH.
Qed.

Lemma trim_start_app (ws s : string) :
  blank ws = true → trim_start (ws ++ s) = trim_start s.
Proof.
  induction ws as [|c ws IH]; simpl; [done|].
  unfold blank. simpl. intros [Hc Hws]%andb_true_iff. rewrite Hc. by apply IH.
Qed.

Lemma trim_start_keeps (s ws : string) :
  blank ws = true →
  trim_end (trim_start (s ++ ws)) = trim_end (trim_start s).
Proof.
  intros Hws. induction s as [|c s IH]; simpl.
  - by rewrite (trim_start_blank ws Hws).
  - destruct (is_space c); [done|].
    change (String c (s ++ ws)) with (String c s ++ ws)%string.
    by rewrite trim_end_app.
Qed.

Lemma trim_padded (lead s trail : string) :
  blank lead = true → blank trail = true →
  trim (lead ++ s ++ trail) = trim s.
Proof.
  intros Hl Ht. unfold trim. rewrite trim_start_app by done.
  by apply trim_start_keeps.
Qed.



Lemma map_indices_total {A B} (f : nat → result B) (g : nat → B) (l : list A) : ∀ s,
  (∀ i, f i = Returns (g i)) →
  map_indices f s l = Returns (g <$> seq s (length l)).
Proof.
  induction l as [|a l IH]; intros s Hf; simpl; [done|].
  by rewrite Hf, (IH (S s) Hf).
Qed.

Lemma listed_number (items : list json) (i : nat) :
  existsb (fun w => match w with
                    | JNum q => Qeq_bool q (inject_Z (Z.of_nat i))
                    | _ => false
                    end) items = true
  ↔ lists_number items i.
Proof.
  rewrite existsb_exists. unfold lists_number. split.
  - intros (w & Hw & Hq). destruct w as [| |q| | |]; try done.
    exists q. split; [by apply list_elem_of_In|by apply Qeq_bool_iff].
  - intros (q & Hq & Heq). exists (JNum q).
    split; [by apply list_elem_of_In|by apply Qeq_bool_iff].
Qed.

(** X16.  When the Gurobi program exits with status 0 and the last line of
    its output parses to a record whose [selected_indices] is an array, the
    bridge returns the vector that selects candidate [i] exactly when the
    number [i] is in the array: entries that are no number, a string say,
    and numbers that are no index of a candidate select nothing. *)
Theorem gurobi_selects_listed_numbers :
  ∀ (RT : Runtime) (C : Type) (P : Priced C) (Qm : matrix) (candidates : list C)
    (budget : Q) (parsed : json) (items : list json),
    status (spawn_gurobi Qm (prop_cost <$> candidates) budget) = Some 0%Z →
    JSON_parse (last_line (stdout (spawn_gurobi Qm (prop_cost <$> candidates) budget)))
    = Some parsed →
    get_prop "selected_indices" parsed = Some (JArr items) →
    ∃ x, gurobiQUBOBudget Qm candidates budget = Returns x
         ∧ length x = length candidates
         ∧ ∀ i, bit x i = true ↔ (i < length candidates)%nat ∧ lists_number items i.
Proof.
  intros RT C P Qm candidates budget parsed items Hs Hp Hsel.
  unfold gurobiQUBOBudget, gurobi_read. rewrite Hs, Hp.
  rewrite (map_indices_total _
             (fun i => existsb (fun w => match w with
                                         | JNum q => Qeq_bool q (inject_Z (Z.of_nat i))
                                         | _ => false
                                         end) items)).
  - eexists. split_and!; [reflexivity|by rewrite length_fmap, length_seq|].
    intros i. unfold bit. rewrite list_lookup_fmap.
    destruct (le_lt_dec (length candidates) i) as [Hge|Hlt].
    + rewrite lookup_seq_ge by done. simpl. split; [done|lia].
    + rewrite lookup_seq_lt by done. simpl. rewrite listed_number.
      split; [by split|by intros [_ ?]].
  - intros i. rewrite Hsel. by destruct parsed.
Qed.

Lemma gurobi_selects_listed_numbers_witness :
  ∃ x, @gurobiQUBOBudget tidy_runtime MeshApi.Cell _ two_cells_Q two_cells 25 = Returns x
       ∧ length x = length two_cells
       ∧ ∀ i, bit x i = true
              ↔ (i < length two_cells)%nat ∧ lists_number [JNum 0] i.
Proof.
  apply (gurobi_selects_listed_numbers tidy_runtime MeshApi.Cell _ two_cells_Q two_cells
           25 record_value [JNum 0]); reflexivity.
Defined.

Lemma scan_finds `{Runtime} (lines : list string) (v : json) :
  QuantumApi.scan (reverse lines) = Some v →
  ∃ before l after,
    lines = before ++ l :: after
    ∧ JSON_parse l = Some v
    ∧ Forall (fun l' => JSON_parse l' = None) after.
Proof.
  induction lines as [|l lines IH] using rev_ind; [done|].
  rewrite reverse_snoc. simpl.
  destruct (JSON_parse l) as [w|] eqn:Hl.
  - intros [= <-]. exists lines, l, []. by split_and!.
  - intros Hscan. destruct (IH Hscan) as (before & l' & after & -> & Hl' & Hafter).
    exists before, l', (after ++ [l]). split_and!.
    + by rewrite <- app_assoc.
    + done.
    + apply Forall_app. split; [done|]. by apply Forall_singleton.
Qed.



(** *** The run of the quantum bridge *)

Section QuantumRunFacts.
Context `{Runtime}.
Variable candidates : list json.

Lemma run_snoc (events : list QuantumRun.Event) (ev : QuantumRun.Event) :
  QuantumRun.run candidates (events ++ [ev])
  = QuantumRun.step candidates (QuantumRun.run candidates events) ev.
Proof. unfold QuantumRun.run. by rewrite foldl_app. Qed.

(** Before any reply the timer is set and nothing was removed or killed;
    after it there is one reply, one removal, at most one kill and no
    timer. *)
Lemma run_invariant (events : list QuantumRun.Event) :
  let s := QuantumRun.run candidates events in
  (QuantumRun.responded s = false
   ∧ QuantumRun.replies s = [] ∧ QuantumRun.unlinks s = 0%nat
   ∧ QuantumRun.kills s = 0%nat ∧ QuantumRun.timer_set s = true)
  ∨ (QuantumRun.responded s = true
     ∧ (∃ r, QuantumRun.replies s = [r]) ∧ QuantumRun.unlinks s = 1%nat
     ∧ (QuantumRun.kills s <= 1)%nat ∧ QuantumRun.timer_set s = false).
Proof.
  induction events as [|ev events IH] using rev_ind.
  - left. by split_and!.
  - cbv zeta in *. rewrite run_snoc.
    destruct IH as [(Hr & Hrep & Hu & Hk & Ht)|(Hr & [r Hrep] & Hu & Hk & Ht)].
    + destruct ev as [d|d|code now|]; unfold QuantumRun.step; rewrite ?Hr, ?Ht;
        cbn [QuantumRun.responded QuantumRun.replies QuantumRun.unlinks
             QuantumRun.kills QuantumRun.timer_set].
      * left. by split_and!.
      * left. by split_and!.
      * right. rewrite Hrep, Hu, Hk. split_and!; [done|by eexists|done|lia|done].
      * right. rewrite Hrep, Hu, Hk. split_and!; [done|by eexists|done|lia|done].
    + destruct ev as [d|d|code now|]; unfold QuantumRun.step; rewrite ?Hr, ?Ht;
        cbn [QuantumRun.responded QuantumRun.replies QuantumRun.unlinks
             QuantumRun.kills QuantumRun.timer_set];
        right; split_and!; eauto.
Qed.

Lemma run_waiting (events : list QuantumRun.Event) :
  Forall (fun ev => QuantumRun.ending ev = false) events →
  let s := QuantumRun.run candidates events in
  QuantumRun.responded s = false ∧ QuantumRun.timer_set s = true
  ∧ QuantumRun.replies s = [] ∧ QuantumRun.kills s = 0%nat
  ∧ QuantumRun.out s = QuantumRun.collected events.
Proof.
  induction events as [|ev events IH] using rev_ind; intros Hall.
  - by split_and!.
  - apply Forall_app in Hall as [Hall Hev]. rewrite Forall_singleton in Hev.
    cbv zeta in *. rewrite run_snoc. unfold QuantumRun.collected. rewrite foldl_app.
    fold (QuantumRun.collected events).
    destruct (IH Hall) as (Hr & Ht & Hrep & Hk & Hout).
    destruct ev as [d|d|code now|]; simpl in Hev; try discriminate;
      unfold QuantumRun.step;
      cbn [QuantumRun.responded QuantumRun.replies QuantumRun.out
           QuantumRun.kills QuantumRun.timer_set foldl];
      rewrite ?Hout; by split_and!.
Qed.

Lemma run_settled (events : list QuantumRun.Event) (s : QuantumRun.State) :
  QuantumRun.responded s = true → QuantumRun.timer_set s = false →
  QuantumRun.replies (foldl (QuantumRun.step candidates) s events) = QuantumRun.replies s
  ∧ QuantumRun.kills (foldl (QuantumRun.step candidates) s events) = QuantumRun.kills s.
Proof.
  revert s. induction events as [|ev events IH]; intros s Hr Ht; [done|].
  cbn [foldl].
  assert (QuantumRun.responded (QuantumRun.step candidates s ev) = true
          ∧ QuantumRun.timer_set (QuantumRun.step candidates s ev) = false
          ∧ QuantumRun.replies (QuantumRun.step candidates s ev) = QuantumRun.replies s
          ∧ QuantumRun.kills (QuantumRun.step candidates s ev) = QuantumRun.kills s)
    as (Hr' & Ht' & <- & <-).
  { destruct ev; unfold QuantumRun.step; rewrite ?Hr, ?Ht; by split_and!. }
  by apply IH.
Qed.
End QuantumRunFacts.

(** X18.  Whatever events follow the start of the quantum process, the
    handler replies at most once; the temporary file is removed once with
    the reply and not before; and the process is killed at most once, and
    only with a reply. *)
Theorem quantum_bridge_replies_at_most_once :
  ∀ (RT : Runtime) (candidates : list json) (events : list QuantumRun.Event),
    (length (QuantumRun.replies (QuantumRun.run candidates events)) <= 1)%nat
    ∧ QuantumRun.unlinks (QuantumRun.run candidates events)
      = length (QuantumRun.replies (QuantumRun.run candidates events))
    ∧ (QuantumRun.kills (QuantumRun.run candidates events)
       <= length (QuantumRun.replies (QuantumRun.run candidates events)))%nat
    ∧ (QuantumRun.responded (QuantumRun.run candidates events) = true
       ↔ QuantumRun.replies (QuantumRun.run candidates events) ≠ []).
Proof.
  intros RT candidates events.
  destruct (run_invariant candidates events)
    as [(Hr & Hrep & Hu & Hk & Ht)|(Hr & [r Hrep] & Hu & Hk & Ht)];
    rewrite Hr, Hrep, Hu; simpl; split_and!; try done; try lia.
Qed.

(** X19.  The first event that ends the wait decides the reply, and what
    comes later changes nothing.  If the process closes first, the reply is
    that of the completion callback on the output collected until then, and
    the process is not killed; if the timer fires first, the reply is the
    error [Quantum optimization timed out] and the process is killed.
    Without such an event there is no reply. *)
Theorem quantum_bridge_first_ending_event_decides :
  ∀ (RT : Runtime) (candidates : list json) (before after : list QuantumRun.Event),
    Forall (fun ev => QuantumRun.ending ev = false) before →
    QuantumRun.replies (QuantumRun.run candidates before) = []
    ∧ (∀ code now,
         QuantumRun.replies
           (QuantumRun.run candidates (before ++ QuantumRun.Close code now :: after))
         = [QuantumApi.on_close candidates code (QuantumRun.collected before) now]
         ∧ QuantumRun.kills
             (QuantumRun.run candidates (before ++ QuantumRun.Close code now :: after))
           = 0%nat)
    ∧ (QuantumRun.replies
         (QuantumRun.run candidates (before ++ QuantumRun.Timeout :: after))
       = [QuantumApi.Failed "Quantum optimization timed out"]
       ∧ QuantumRun.kills
           (QuantumRun.run candidates (before ++ QuantumRun.Timeout :: after))
         = 1%nat).
Proof.
  intros RT candidates before after Hwait.
  destruct (run_waiting candidates before Hwait) as (Hr & Ht & Hrep & Hk & Hout).
  split; [done|split].
  - intros code now. unfold QuantumRun.run. rewrite foldl_app. cbn [foldl].
    fold (QuantumRun.run candidates before).
    destruct (run_settled candidates after
                (QuantumRun.step candidates (QuantumRun.run candidates before)
                   (QuantumRun.Close code now))) as [-> ->].
    + unfold QuantumRun.step. by rewrite Hr.
    + unfold QuantumRun.step. by rewrite Hr.
    + unfold QuantumRun.step. rewrite Hr. simpl. by rewrite Hrep, Hk, Hout.
  - unfold QuantumRun.run. rewrite foldl_app. cbn [foldl].
    fold (QuantumRun.run candidates before).
    destruct (run_settled candidates after
                (QuantumRun.step candidates (QuantumRun.run candidates before)
                   QuantumRun.Timeout)) as [-> ->].
    + unfold QuantumRun.step. by rewrite Ht, Hr.
    + unfold QuantumRun.step. by rewrite Ht, Hr.
    + unfold QuantumRun.step. rewrite Ht, Hr. simpl. by rewrite Hrep, Hk.
Qed.

Lemma quantum_bridge_first_ending_event_decides_witness :
  QuantumRun.replies
    (@QuantumRun.run chatty_runtime [JStr "a"] [QuantumRun.Stdout chatty_stdout]) = []
  ∧ (∀ code now,
       QuantumRun.replies
         (@QuantumRun.run chatty_runtime [JStr "a"]
            ([QuantumRun.Stdout chatty_stdout]
             ++ QuantumRun.Close code now :: [QuantumRun.Timeout]))
       = [@QuantumApi.on_close chatty_runtime [JStr "a"] code
            (QuantumRun.collected [QuantumRun.Stdout chatty_stdout]) now]
       ∧ QuantumRun.kills
           (@QuantumRun.run chatty_runtime [JStr "a"]
              ([QuantumRun.Stdout chatty_stdout]
               ++ QuantumRun.Close code now :: [QuantumRun.Timeout]))
         = 0%nat)
  ∧ (QuantumRun.replies
       (@QuantumRun.run chatty_runtime [JStr "a"]
          ([QuantumRun.Stdout chatty_stdout]
           ++ QuantumRun.Timeout :: [QuantumRun.Timeout]))
     = [QuantumApi.Failed "Quantum optimization timed out"]
     ∧ QuantumRun.kills
         (@QuantumRun.run chatty_runtime [JStr "a"]
            ([QuantumRun.Stdout chatty_stdout]
             ++ QuantumRun.Timeout :: [QuantumRun.Timeout]))
       = 1%nat).
Proof.
  apply (quantum_bridge_first_ending_event_decides chatty_runtime [JStr "a"]
           [QuantumRun.Stdout chatty_stdout] [QuantumRun.Timeout]).
  by apply Forall_singleton.
Defined.

(** *** The matrices *)


(** X21.  At a vector [x] with one entry per candidate, the quadratic form
    of the matrix of either handler is the objective with its three squared
    penalties, plus [θ ((Σ C x)² - Σ C² x) + μ ((Σ x)² - Σ x)
    + λ ((Σ P x)² - Σ P² x)] (the cross terms, which the matrix holds in both
    triangles, counted once more), minus the constant [θ B² + μ K² + λ M²]
    unless candidate 0 is selected. *)
Theorem quadratic_form_of_built_matrix :
  (∀ (Cs Ps : list Q) (B K M : Q) (x : list bool),
     length x = length Cs →
     quad_form (MeshApi.build_qubo Cs Ps B K M) x
     == penalised_objective mesh_weights Cs Ps [] B K M x
        + w_theta mesh_weights * (dot Cs x ^ 2 - dot2 Cs x)
        + w_mu mesh_weights * (ones x ^ 2 - ones x)
        + w_lambda mesh_weights * (dot Ps x ^ 2 - dot2 Ps x)
        - offset_term mesh_weights B K M * (1 - b2q (bit x 0)))
  ∧ (∀ (Cs Ps Es : list Q) (B K M : Q) (x : list bool),
       length x = length Cs →
       quad_form (SiteApi.build_qubo Cs Ps Es B K M) x
       == penalised_objective site_weights Cs Ps Es B K M x
          + w_theta site_weights * (dot Cs x ^ 2 - dot2 Cs x)
          + w_mu site_weights * (ones x ^ 2 - ones x)
          + w_lambda site_weights * (dot Ps x ^ 2 - dot2 Ps x)
          - offset_term site_weights B K M * (1 - b2q (bit x 0))).
Proof.
  split.
  - intros Cs Ps B K M x Hlen. by apply mesh_quad_form.
  - intros Cs Ps Es B K M x Hlen. by apply site_quad_form.
Qed.

Lemma quadratic_form_of_built_matrix_witness :
  quad_form (MeshApi.build_qubo [10; 10] [1; 1] 25 2 0) [true; false]
  == penalised_objective mesh_weights [10; 10] [1; 1] [] 25 2 0 [true; false]
     + w_theta mesh_weights * (dot [10; 10] [true; false] ^ 2 - dot2 [10; 10] [true; false])
     + w_mu mesh_weights * (ones [true; false] ^ 2 - ones [true; false])
     + w_lambda mesh_weights * (dot [1; 1] [true; false] ^ 2 - dot2 [1; 1] [true; false])
     - offset_term mesh_weights 25 2 0 * (1 - b2q (bit [true; false] 0)).
Proof.
  apply (proj1 quadratic_form_of_built_matrix [10; 10] [1; 1] 25 2 0 [true; false]).
  reflexivity.
Defined.

(** *** The cooling schedule *)

Lemma qpow_add (a : Q) (n m : nat) : qpow a (n + m) == qpow a n * qpow a m.
Proof.
  induction n as [|n IH]; simpl; [ring|]. rewrite IH. ring.
Qed.

Lemma qpow_mul (a : Q) (n m : nat) : qpow a (n * m) == qpow (qpow a n) m.
Proof.
  induction m as [|m IH].
  - rewrite Nat.mul_0_r. reflexivity.
  - rewrite Nat.mul_succ_r, Nat.add_comm, qpow_add, IH. reflexivity.
Qed.

Lemma qpow_mono (a b : Q) (k : nat) :
  0 <= a → a <= b → 0 <= qpow a k ∧ qpow a k <= qpow b k.
Proof.
  intros Ha Hab. induction k as [|k [IH0 IH]]; simpl; [split; lra|].
  split.
  - by apply Qmult_le_0_compat.
  - apply Qle_trans with (a * qpow b k).
    + rewrite !(Qmult_comm a). apply Qmult_le_compat_r; done.
    + apply Qmult_le_compat_r; [done|]. lra.
Qed.

Lemma qpow_le_1 (a : Q) (k : nat) : 0 <= a → a <= 1 → qpow a k <= 1.
Proof.
  intros Ha Ha1. induction k as [|k IH]; simpl; [lra|].
  destruct (qpow_mono a a k Ha ltac:(lra)) as [H0 _]. nra.
Qed.

(** Ten thousand coolings by the default factor leave more than
    [2 / 100000] of the temperature. *)
Lemma default_cooling : (2 # 100000) <= qpow default_alpha default_maxIter.
Proof.
  assert ((99 # 100) <= qpow default_alpha 10) as H1 by (vm_compute; discriminate).
  assert ((9 # 10) <= qpow default_alpha 100) as H2.
  { change 100%nat with (10 * 10)%nat. rewrite qpow_mul.
    apply Qle_trans with (qpow (99 # 100) 10); [vm_compute; discriminate|].
    apply qpow_mono; [lra|done]. }
  assert ((34 # 100) <= qpow default_alpha 1000) as H3.
  { change 1000%nat with (100 * 10)%nat. rewrite qpow_mul.
    apply Qle_trans with (qpow (9 # 10) 10); [vm_compute; discriminate|].
    apply qpow_mono; [lra|done]. }
  change default_maxIter with (1000 * 10)%nat. rewrite qpow_mul.
  apply Qle_trans with (qpow (34 # 100) 10); [vm_compute; discriminate|].
  apply qpow_mono; [lra|done].
Qed.

Section CoolingFacts.
Context {C : Type} `{Priced C}.
Variables (Qm : matrix) (n : nat) (candidates : list C) (budget alpha : Q)
          (rnd : nat → draw).

Lemma sa_step_T (d : draw) (s : sa_state) :
  sa_T (sa_step Qm n candidates budget alpha d s) = sa_T s * alpha.
Proof.
  unfold sa_step. destruct (_ || _); [destruct (below_best _ _)|]; done.
Qed.

Lemma sa_states_full (todo : nat) : ∀ iter s,
  0 <= alpha → alpha <= 1 → 0 <= sa_T s →
  (1 # 1000000) <= sa_T s * qpow alpha todo →
  length (sa_states Qm n candidates budget alpha rnd todo iter s) = todo.
Proof.
  induction todo as [|todo IH]; intros iter s Ha0 Ha1 HT Hfloor; [done|].
  cbn [sa_states]. cbv zeta. rewrite sa_step_T.
  simpl in Hfloor.
  pose proof (qpow_le_1 alpha todo Ha0 Ha1) as Hp1.
  destruct (qpow_mono alpha alpha todo Ha0 ltac:(lra)) as [Hp0 _].
  assert (0 <= sa_T s * alpha) as HT' by (by apply Qmult_le_0_compat).
  assert ((1 # 1000000) <= sa_T s * alpha) as Hwarm.
  { pose proof (Qmult_le_0_compat _ _ HT' (proj1 (Qle_minus_iff _ _) Hp1)) as Hgap.
    revert Hfloor Hgap. generalize (qpow alpha todo) (sa_T s). intros p t Hfloor Hgap.
    assert (t * (alpha * p) == t * alpha * p) as Hassoc by ring.
    assert (t * alpha * (1 + - p) == t * alpha - t * alpha * p) as Hdist by ring.
    rewrite Hassoc in Hfloor. rewrite Hdist in Hgap. lra. }
  apply Qltb_ge in Hwarm. rewrite Hwarm. cbn [length]. f_equal.
  apply IH; [done|done|by rewrite sa_step_T| ].
  rewrite sa_step_T.
  assert (sa_T s * alpha * qpow alpha todo == sa_T s * (alpha * qpow alpha todo))
    as -> by ring.
  done.
Qed.
End CoolingFacts.

(** X22.  With the default arguments (10000 iterations, initial temperature
    20, cooling factor 0.999) the temperature never falls below [1e-6]: the
    early exit of the annealing loop is never taken and every run executes
    all 10000 iterations, as both handlers call it. *)
Theorem default_annealing_runs_every_iteration :
  ∀ (C : Type) (P : Priced C) (Qm : matrix) (n : nat) (candidates : list C)
    (budget : Q) (rnd : nat → draw),
    length (sa_states Qm n candidates budget default_alpha rnd default_maxIter 0
              (sa_init n default_T0)) = default_maxIter.
Proof.
  intros C P Qm n candidates budget rnd.
  apply sa_states_full.
  - discriminate.
  - discriminate.
  - discriminate.
  - pose proof default_cooling as Hcool.
    change (sa_T (sa_init n default_T0)) with 20.
    set (p := qpow default_alpha default_maxIter) in *. lra.
Qed.

(** *** Indices of the quantum bridge *)

Lemma index_of_number (i : nat) :
  QuantumApi.index_of (JNum (inject_Z (Z.of_nat i))) = Some i.
Proof.
  cbn [QuantumApi.index_of]. rewrite Qfloor_Z.
  assert (Qeq_bool (inject_Z (Z.of_nat i)) (inject_Z (Z.of_nat i)) = true) as ->
    by (by apply Qeq_bool_iff).
  assert ((0 <=? Z.of_nat i)%Z = true) as -> by (apply Z.leb_le; lia).
  cbn [andb]. by rewrite Nat2Z.id.
Qed.

Lemma index_of_decimal (i : nat) :
  QuantumApi.index_of (JStr (index_string i)) = Some i.
Proof.
  cbn [QuantumApi.index_of]. unfold index_string at 1.
  rewrite NilEmpty.usu, Unsigned.of_to. by rewrite String.eqb_refl.
Qed.

(** X23.  The quantum bridge reads an index of [selected_indices] as a
    property key of the array of candidates: the number [i] and the string
    of the decimal digits of [i] both select candidate [i], and an index
    past the end of the candidates selects [undefined]. *)
Theorem quantum_indices_as_numbers_or_strings :
  ∀ (candidates : list json) (indices : list nat) (rest : list (string * json)),
    QuantumApi.selected_grids
      (JObj (("selected_indices"%string,
              JArr ((fun i => JNum (inject_Z (Z.of_nat i))) <$> indices)) :: rest))
      candidates
    = Some ((fun i => candidates !! i) <$> indices)
    ∧ QuantumApi.selected_grids
        (JObj (("selected_indices"%string,
                JArr ((fun i => JStr (index_string i)) <$> indices)) :: rest))
        candidates
      = Some ((fun i => candidates !! i) <$> indices)
    ∧ ∀ i, (length candidates <= i)%nat →
           QuantumApi.selected_grids
             (JObj (("selected_indices"%string,
                     JArr [JNum (inject_Z (Z.of_nat i))]) :: rest))
             candidates
           = Some [None].
Proof.
  intros candidates indices rest.
  unfold QuantumApi.selected_grids, get_prop. cbn [lookup_prop].
  change (String.eqb "selected_indices" "selected_indices") with true. cbv iota.
  split_and!.
  - f_equal. rewrite <- list_fmap_compose. apply list_fmap_ext.
    intros k i _. cbn [compose]. by rewrite index_of_number.
  - f_equal. rewrite <- list_fmap_compose. apply list_fmap_ext.
    intros k i _. cbn [compose]. by rewrite index_of_decimal.
  - intros i Hi. cbn [fmap list_fmap]. rewrite index_of_number.
    by rewrite lookup_ge_None_2.
Qed.

(** *** The matrix of a mesh *)

Lemma mesh_costs `{Runtime} coords pc cs steps i :
  (i < length (MeshApi.mesh coords pc cs steps))%nat →
  item (MeshApi.costs (MeshApi.mesh coords pc cs steps)) i = MeshApi.price cs
  ∧ item (MeshApi.pops (MeshApi.mesh coords pc cs steps)) i = 1.
Proof.
  intros Hi. unfold item, MeshApi.costs, MeshApi.pops. rewrite !list_lookup_fmap.
  destruct (lookup_lt_is_Some_2 _ _ Hi) as [c Hc]. rewrite Hc. simpl.
  destruct (mesh_invariant coords pc cs steps) as [Hall _].
  rewrite Forall_forall in Hall.
  destruct (Hall c (list_elem_of_lookup_2 _ _ _ Hc)) as (Hcost & _).
  by rewrite Hcost.
Qed.


